(** * Last.fm music library: the synchronisation engine of main.ts

    A shallow embedding of [syncTracks], [appendToHistory],
    [updateTrackContent] and their helpers, and of the settings, the
    status bar and the auto-sync timer around them, followed by the
    properties of the specification that concern them and by further
    properties of the code.

    - JavaScript strings are lists of UTF-16 code units ([list N]).
    - The Obsidian vault is a finite map from paths to files and folders.
    - The host environment ([normalizePath], [Date], [encodeURIComponent],
      the clock and the remote service) is a parameter of the engine. *)

From stdpp Require Import gmap list.
From Stdlib Require Import ZArith NArith String Ascii List Bool Sorted DecimalPos Lia.
Import ListNotations.
Open Scope Z_scope.

(** ** JavaScript strings *)

Abbreviation jsstring := (list N).

(** An ASCII literal as a JavaScript string. *)
Definition str (s : string) : jsstring :=
  List.map N_of_ascii (list_ascii_of_string s).

Definition LF : N := 10%N.
Definition EM_DASH : N := 8212%N.

(** ECMAScript [WhiteSpace] and [LineTerminator]: what [trim] strips and
    what the regular expression class [\s] matches. *)
Definition isWhiteSpace (c : N) : bool :=
  ((9 <=? c) && (c <=? 13) || (c =? 32) || (c =? 160) || (c =? 5760)
   || (8192 <=? c) && (c <=? 8202) || (c =? 8232) || (c =? 8233)
   || (c =? 8239) || (c =? 8287) || (c =? 12288) || (c =? 65279))%N.

(** What the regular expression [.] does not match. *)
Definition isLineTerminator (c : N) : bool :=
  ((c =? 10) || (c =? 13) || (c =? 8232) || (c =? 8233))%N.

(** The class [\d]. *)
Definition isDigit (c : N) : bool := ((48 <=? c) && (c <=? 57))%N.

Definition eqStr (a b : jsstring) : bool := bool_decide (a = b).

Fixpoint trimStart (s : jsstring) : jsstring :=
  match s with
  | c :: r => if isWhiteSpace c then trimStart r else s
  | [] => []
  end.

Definition trimEnd (s : jsstring) : jsstring := rev (trimStart (rev s)).

Definition trim (s : jsstring) : jsstring := trimEnd (trimStart s).

(** [s.startsWith(p)]. *)
Fixpoint startsWith (p s : jsstring) : bool :=
  match p, s with
  | [], _ => true
  | a :: p', b :: s' => (a =? b)%N && startsWith p' s'
  | _ :: _, [] => false
  end.

(** [s.includes(p)]. *)
Fixpoint includes (s p : jsstring) : bool :=
  startsWith p s || match s with [] => false | _ :: r => includes r p end.

(** [s.split("\n")]: never empty. *)
Fixpoint split (s : jsstring) : list jsstring :=
  match s with
  | [] => [[]]
  | c :: r =>
      if (c =? LF)%N then [] :: split r
      else match split r with
           | l :: ls => (c :: l) :: ls
           | [] => [[c]]
           end
  end.

(** [lines.join("\n")]. *)
Fixpoint join (lines : list jsstring) : jsstring :=
  match lines with
  | [] => []
  | [l] => l
  | l :: ls => l ++ LF :: join ls
  end.

(** [lines.findIndex(p) + 1]: 0 when nothing satisfies [p]. *)
Fixpoint findIndexSucc {A} (p : A -> bool) (l : list A) : nat :=
  match l with
  | [] => 0
  | x :: r => if p x then 1
              else match findIndexSucc p r with O => O | S k => S (S k) end
  end.

(** [lines.splice(at, 0, x)]. *)
Definition splice {A} (lines : list A) (at_ : nat) (x : A) : list A :=
  firstn at_ lines ++ x :: skipn at_ lines.

(** [s.replace(/%20/g, "+")] and the like: every occurrence of a
    non-empty literal, left to right. *)
Fixpoint replaceAllFrom (fuel : nat) (pat by_ s : jsstring) : jsstring :=
  match fuel with
  | O => s
  | S fuel' =>
      match s with
      | [] => []
      | c :: r =>
          if startsWith pat s
          then by_ ++ replaceAllFrom fuel' pat by_ (skipn (length pat) s)
          else c :: replaceAllFrom fuel' pat by_ r
      end
  end.

Definition replaceAll (pat by_ s : jsstring) : jsstring :=
  replaceAllFrom (length s) pat by_ s.

(** [String(n)] for an integer. *)
Fixpoint uintCodes (d : Decimal.uint) : jsstring :=
  match d with
  | Decimal.Nil => []
  | Decimal.D0 d => 48%N :: uintCodes d
  | Decimal.D1 d => 49%N :: uintCodes d
  | Decimal.D2 d => 50%N :: uintCodes d
  | Decimal.D3 d => 51%N :: uintCodes d
  | Decimal.D4 d => 52%N :: uintCodes d
  | Decimal.D5 d => 53%N :: uintCodes d
  | Decimal.D6 d => 54%N :: uintCodes d
  | Decimal.D7 d => 55%N :: uintCodes d
  | Decimal.D8 d => 56%N :: uintCodes d
  | Decimal.D9 d => 57%N :: uintCodes d
  end.

Definition numToString (n : Z) : jsstring :=
  match n with
  | Zneg p => 45%N :: uintCodes (Pos.to_uint p)
  | _ => uintCodes (N.to_uint (Z.to_N n))
  end.

(** [Number(digits)] for a string of decimal digits. *)
Definition digitsToNum (ds : jsstring) : Z :=
  fold_left (fun acc c => 10 * acc + (Z.of_N c - 48)) ds 0.

(** [String(n).padStart(2, "0")]. *)
Definition pad (n : Z) : jsstring :=
  let s := numToString n in
  match s with
  | [_] => 48%N :: s
  | [] => [48%N; 48%N]
  | _ => s
  end.

(** [a || b] on strings: the empty string is falsy. *)
Definition orElse (a b : jsstring) : jsstring :=
  match a with [] => b | _ => a end.

(** [s.endsWith(p)], and the removal of a final [.md]. *)
Definition endsWith (p s : jsstring) : bool := startsWith (rev p) (rev s).

Definition stripMd (s : jsstring) : jsstring :=
  if endsWith (str ".md") s then firstn (length s - 3) s else s.

(** ** A JavaScript [Map] with string keys: entries in insertion order *)

Fixpoint mapGet {V} (k : jsstring) (m : list (jsstring * V)) : option V :=
  match m with
  | [] => None
  | (k', v) :: r => if eqStr k k' then Some v else mapGet k r
  end.

(** [m.set(k, v)]: an existing key keeps its position. *)
Fixpoint mapSet {V} (k : jsstring) (v : V) (m : list (jsstring * V)) : list (jsstring * V) :=
  match m with
  | [] => [(k, v)]
  | (k', v') :: r => if eqStr k k' then (k, v) :: r else (k', v') :: mapSet k v r
  end.

Definition mapValues {V} (m : list (jsstring * V)) : list V := List.map snd m.

(** ** The data of main.ts *)

Module Image.
(** An element of [LastFmTrack.image]: [#text] and [size]. *)
Record t := mk { text : jsstring; size : jsstring }.
End Image.

Module LastFmTrack.
(** [interface LastFmTrack]. [artist] and [album] hold the [#text]
    member. [date] is [date.uts] read as a number: [None] when the
    event has no [date] or an empty [uts]. [image] is empty when the
    member is absent. *)
Record t := mk {
  name : jsstring;
  artist : jsstring;
  album : option jsstring;
  date : option Z;
  image : list Image.t
}.
End LastFmTrack.

Module TrackGroup.
(** [interface TrackGroup]. *)
Record t := mk {
  count : Z;
  latestIso : jsstring;
  latestTs : Z;
  firstIso : jsstring;
  firstTs : Z;
  album : jsstring;
  coverUrl : jsstring;
  artist : jsstring;
  name : jsstring;
  fileName : jsstring
}.
End TrackGroup.

Module Play.
(** An element of [historyPlays]. *)
Record t := mk { fileName : jsstring; dateIso : jsstring; ts : Z }.
End Play.

Module Settings.
(** [interface LastFmSettings]. *)
Record t := mk {
  apiKey : jsstring;
  username : jsstring;
  folder : jsstring;
  historyFolderPath : jsstring;
  autoSyncEnabled : bool
}.
End Settings.

(** What lives at a vault path. *)
Inductive Node := TFile (content : jsstring) | TFolder.

(** The fields read from a [Date] in local time. [month] is 0-based. *)
Record DateFields := mkDate {
  fullYear : Z; month : Z; dayOfMonth : Z; hours : Z; minutes : Z; seconds : Z
}.

(** The vault API used by the plugin. [createFolder] and [create] throw
    when something already is at the path; the plugin swallows the
    former ([.catch(() => {})]). *)
Definition createFolder (vault : gmap (list N) Node) (path : jsstring) : gmap (list N) Node :=
  match vault !! path with
  | None => <[path := TFolder]> vault
  | Some _ => vault
  end.

Definition vaultCreate (vault : gmap (list N) Node) (path content : jsstring)
  : option (gmap (list N) Node) :=
  match vault !! path with
  | None => Some (<[path := TFile content]> vault)
  | Some _ => None
  end.

Definition vaultModify (vault : gmap (list N) Node) (path content : jsstring)
  : option (gmap (list N) Node) :=
  match vault !! path with
  | Some (TFile _) => Some (<[path := TFile content]> vault)
  | _ => None
  end.

Definition adapterRead (vault : gmap (list N) Node) (path : jsstring) : option jsstring :=
  match vault !! path with
  | Some (TFile c) => Some c
  | _ => None
  end.

(** A phase that writes to the vault: it completes with a value, or a
    vault call throws and the writes made so far stay. *)
Inductive Run (A : Type) :=
| Done (vault : gmap (list N) Node) (a : A)
| Thrown (vault : gmap (list N) Node).
Arguments Done {A} vault a.
Arguments Thrown {A} vault.

Definition runVault {A} (r : Run A) : gmap (list N) Node :=
  match r with Done v _ => v | Thrown v => v end.

(** ** The remote service *)

(** What varies in a [user.getrecenttracks] request. *)
Record Request := mkRequest { page : Z; from : option Z }.

(** What [requestUrl] does: it rejects with [err.status] (absent for a
    network or JSON failure), or resolves with the parsed body:
    [error], [@attr.totalPages] read as a number ([None] when absent or
    empty) and the tracks as an array. *)
Inductive Reply :=
| Throws (status : option Z)
| Responds (error : option Z) (totalPages : option Z) (tracks : list LastFmTrack.t).

Inductive Effect := Requested (req : Request) | Waited (ms : Z).

Inductive FetchResult :=
| Fetched (allNewTracks : list LastFmTrack.t)
| FetchFailed
| OutOfFuel.

Inductive Outcome :=
| MissingCredentials
| HistoryFolderMissing
| SyncFailed
| NoNewTracks
| AllRecorded
| Synced (created updated : Z)
| Crashed.

Module Result.
(** What a run of [syncTracks] leaves behind. *)
Record t := mk {
  vault : gmap (list N) Node;
  settings : Settings.t;
  effects : list Effect;
  outcome : Outcome
}.
End Result.

(** ** Helpers of the plugin that need no environment *)

(** [sanitizeFileName]: each of the nine characters asterisk, double
    quote, backslash, slash, less-than, greater-than, bar, colon and
    question mark becomes a hyphen; the result is trimmed. *)
Definition isIllegal (c : N) : bool :=
  ((c =? 42) || (c =? 34) || (c =? 92) || (c =? 47) || (c =? 60)
   || (c =? 62) || (c =? 124) || (c =? 58) || (c =? 63))%N.

Definition sanitizeFileName (s : jsstring) : jsstring :=
  trim (List.map (fun c => if isIllegal c then 45%N else c) s).

Definition extractBestCover (images : list Image.t) : jsstring :=
  match images with
  | [] => []
  | first :: _ =>
      let img :=
        match List.find (fun i => eqStr (Image.size i) (str "extralarge")) images with
        | Some i => i
        | None =>
            match List.find (fun i => eqStr (Image.size i) (str "large")) images with
            | Some i => i
            | None => first
            end
        end in
      trim (Image.text img)
  end.

(** The normalized identity of an event and what derives from it. *)
Definition artistOf (t : LastFmTrack.t) : jsstring :=
  orElse (trim (LastFmTrack.artist t)) (str "Unknown").

Definition nameOf (t : LastFmTrack.t) : jsstring :=
  orElse (trim (LastFmTrack.name t)) (str "Unknown").

Definition keyOf (artist name : jsstring) : jsstring := artist ++ str "|" ++ name.

Definition fileNameOf (artist name : jsstring) : jsstring :=
  sanitizeFileName artist ++ str " - " ++ sanitizeFileName name ++ str ".md".

(** The filter of [syncTracks]: [const ts = t.date?.uts ? Number(t.date.uts) : 0]. *)
Definition filterTs (t : LastFmTrack.t) : Z :=
  match LastFmTrack.date t with Some uts => uts | None => 0 end.

Definition trulyNewTracks (lastFetchedTimestamp : Z) (allNewTracks : list LastFmTrack.t)
  : list LastFmTrack.t :=
  List.filter (fun t => filterTs t >? lastFetchedTimestamp) allNewTracks.

(** [historyPlays.sort((a, b) => a.ts - b.ts)]: the sort is stable. *)
Fixpoint insertPlay (p : Play.t) (sorted : list Play.t) : list Play.t :=
  match sorted with
  | [] => [p]
  | q :: r => if Play.ts p <=? Play.ts q then p :: sorted else q :: insertPlay p r
  end.

Definition sortPlays (plays : list Play.t) : list Play.t :=
  fold_right insertPlay [] plays.

(** ** The regular expressions of the plugin

    Each pattern is a matcher tried at one position: it returns what
    follows the match. [String.prototype.match] and [replace] without
    the [g] flag take the leftmost position where the matcher succeeds. *)

Fixpoint spanWhile (p : N -> bool) (s : jsstring) : jsstring * jsstring :=
  match s with
  | c :: r => if p c then let '(a, b) := spanWhile p r in (c :: a, b) else ([], s)
  | [] => ([], [])
  end.

Definition dropLit (lit s : jsstring) : option jsstring :=
  if startsWith lit s then Some (skipn (length lit) s) else None.

Definition dropQuote (s : jsstring) : jsstring :=
  match s with
  | c :: r => if (c =? 34)%N then r else s
  | [] => []
  end.

(** The pattern of [updateTrackContent] for the stored count, at one
    position: the literal [play_count:], white space, an optional double
    quote, one or more digits (the capture), an optional double quote.
    It returns the digits and the rest. The classes are disjoint, so the
    greedy choice is the only one. *)
Definition matchPlayCount (s : jsstring) : option (jsstring * jsstring) :=
  match dropLit (str "play_count:") s with
  | None => None
  | Some s1 =>
      let s2 := snd (spanWhile isWhiteSpace s1) in
      match spanWhile isDigit (dropQuote s2) with
      | ([], _) => None
      | (digits, s3) => Some (digits, dropQuote s3)
      end
  end.

(** [last_listened_at:\s*.+] at one position. When the white space runs
    to the end of the input, [\s*] gives back up to its last character
    that is not a line terminator, and [.+] takes that one character. *)
Definition matchLastListened (s : jsstring) : option jsstring :=
  match dropLit (str "last_listened_at:") s with
  | None => None
  | Some s1 =>
      let '(ws, s2) := spanWhile isWhiteSpace s1 in
      match s2 with
      | _ :: _ => Some (snd (spanWhile (fun c => negb (isLineTerminator c)) s2))
      | [] =>
          let '(lts, before) := spanWhile isLineTerminator (rev ws) in
          match before with
          | [] => None
          | _ :: _ => Some (rev lts)
          end
      end
  end.

(** The leftmost match. *)
Fixpoint findFirst {A} (m : jsstring -> option A) (s : jsstring) : option A :=
  match m s with
  | Some a => Some a
  | None => match s with [] => None | _ :: r => findFirst m r end
  end.

(** [s.replace(re, by_)] for a pattern without the [g] flag. *)
Fixpoint replaceFirst (m : jsstring -> option jsstring) (by_ s : jsstring) : jsstring :=
  match m s with
  | Some rest => by_ ++ rest
  | None => match s with [] => [] | c :: r => c :: replaceFirst m by_ r end
  end.

(** [updateTrackContent(content, newPlays, latestIso)]. *)
Definition updateTrackContent (content : jsstring) (newPlays : Z) (latestIso : jsstring)
  : jsstring :=
  let countMatch := findFirst matchPlayCount content in
  let count :=
    match countMatch with
    | Some (digits, _) => digitsToNum digits + newPlays
    | None => newPlays
    end in
  let content :=
    replaceFirst (fun s => option_map snd (matchPlayCount s))
      (str "play_count: " ++ [34%N] ++ numToString count ++ [34%N]) content in
  replaceFirst matchLastListened (str "last_listened_at: " ++ latestIso) content.

(** The capture of [^- (\d{4}-\d{2}-\d{2}T\d{2}:\d{2}:\d{2})]. *)
Definition takeDigits (n : nat) (s : jsstring) : option (jsstring * jsstring) :=
  let d := firstn n s in
  if (length d =? n)%nat && forallb isDigit d then Some (d, skipn n s) else None.

Inductive Item := Lit (l : jsstring) | Digits (n : nat).

Fixpoint matchItems (items : list Item) (s : jsstring) : option (jsstring * jsstring) :=
  match items with
  | [] => Some ([], s)
  | Lit l :: items' =>
      match dropLit l s with
      | Some r =>
          match matchItems items' r with
          | Some (m, rest) => Some (l ++ m, rest)
          | None => None
          end
      | None => None
      end
  | Digits n :: items' =>
      match takeDigits n s with
      | Some (d, r) =>
          match matchItems items' r with
          | Some (m, rest) => Some (d ++ m, rest)
          | None => None
          end
      | None => None
      end
  end.

Definition isoItems : list Item :=
  [Digits 4; Lit (str "-"); Digits 2; Lit (str "-"); Digits 2; Lit (str "T");
   Digits 2; Lit (str ":"); Digits 2; Lit (str ":"); Digits 2].

Definition matchEntry (line : jsstring) : option jsstring :=
  match dropLit (str "- ") line with
  | Some r => option_map fst (matchItems isoItems r)
  | None => None
  end.

(** The count [updateTrackContent] reads from a record: 0 when the
    pattern does not match. *)
Definition storedCount (content : jsstring) : Z :=
  match findFirst matchPlayCount content with
  | Some (digits, _) => digitsToNum digits
  | None => 0
  end.

Definition playCountAt (vault : gmap (list N) Node) (path : jsstring) : Z :=
  match adapterRead vault path with
  | Some c => storedCount c
  | None => 0
  end.

(** ** The text of a history log *)

Definition HEADING : jsstring := str "# History".

Definition entryOf (name iso : jsstring) : jsstring :=
  str "- " ++ iso ++ [32%N; EM_DASH; 32%N] ++ str "[[" ++ name ++ str "]]".

Definition isBlank (l : jsstring) : bool := eqStr (trim l) [].

(** The [while] of [appendToHistory]: skip the blank lines from [at_]. *)
Fixpoint skipBlank (rest : list jsstring) (at_ : nat) : nat :=
  match rest with
  | l :: r => if isBlank l then skipBlank r (S at_) else at_
  | [] => at_
  end.

(** [appendToHistory] on the text of the log: [None] when the entry is
    already included and nothing is written. *)
Definition insertEntry (content entry : jsstring) : option jsstring :=
  if includes content entry then None
  else
    let content :=
      if includes content HEADING then content
      else HEADING ++ [LF; LF] ++ trimStart content in
    let lines := split content in
    let start := findIndexSucc (fun l => eqStr (trim l) HEADING) lines in
    let insertAt := skipBlank (skipn start lines) start in
    Some (join (splice lines insertAt entry)).

(** *** Vocabulary for the properties of a record *)

(** Lines, each ended by a line feed. *)
Definition unlines (ls : list jsstring) : jsstring :=
  concat (List.map (fun l => l ++ [LF]) ls).

Definition COUNT_KEY : jsstring := str "play_count:".
Definition LAST_KEY : jsstring := str "last_listened_at:".

Definition countLine (digits : jsstring) : jsstring :=
  COUNT_KEY ++ [32%N; 34%N] ++ digits ++ [34%N].

Definition lastLine (iso : jsstring) : jsstring := LAST_KEY ++ [32%N] ++ iso.

(** A record as [buildNewTrackContent] lays it out: the lines [head]
    before the count, the count, the lines [middle] between the count and
    the last-listened line (first_listened_at is there), the
    last-listened value, and the text [tail] after it. *)
Definition recordText (head : list jsstring) (digits : jsstring)
    (middle : list jsstring) (last tail : jsstring) : jsstring :=
  unlines head ++ countLine digits ++ LF :: unlines middle ++ lastLine last ++ LF :: tail.

(** A value the last-listened pattern takes whole: it starts with a
    character that is not white space and holds no line terminator. *)
Definition plainValue (s : jsstring) : bool :=
  match s with
  | c :: _ => negb (isWhiteSpace c) && forallb (fun x => negb (isLineTerminator x)) s
  | [] => false
  end.

(** The two keys occur nowhere before the fields they name, and the
    stored count is a string of digits. *)
Definition wellFormedRecord (head : list jsstring) (digits : jsstring)
    (middle : list jsstring) : Prop :=
  Forall (fun l => includes l COUNT_KEY = false) head
  /\ Forall (fun l => includes l LAST_KEY = false) (head ++ middle)
  /\ digits <> [] /\ forallb isDigit digits = true.


(** The characters [timestampToLocalISO] writes: digits, hyphen, colon
    and the letter T. *)
Definition isoChar (c : N) : bool :=
  (isDigit c || (c =? 45) || (c =? 58) || (c =? 84))%N.

(** *** Vocabulary for the properties of a log *)

Definition noLF (s : jsstring) : Prop := ~ In LF s.

Definition isHeadingLine (l : jsstring) : bool := eqStr (trim l) HEADING.

(** The text [appendToHistory] works on once the heading is ensured. *)
Definition withHeading (content : jsstring) : jsstring :=
  if includes content HEADING then content
  else HEADING ++ [LF; LF] ++ trimStart content.

(** Where [appendToHistory] inserts among the lines. *)
Definition insertPos (lines : list jsstring) : nat :=
  let start := findIndexSucc isHeadingLine lines in
  skipBlank (skipn start lines) start.

(** The lines above and below the insertion point of a log. *)
Definition topOf (content : jsstring) : list jsstring :=
  firstn (insertPos (split (withHeading content))) (split (withHeading content)).

Definition restOf (content : jsstring) : list jsstring :=
  skipn (insertPos (split (withHeading content))) (split (withHeading content)).

(** What [appendToHistory] reads: the file, or the text it starts a new
    log with. *)
Definition logContent (vault : gmap (list N) Node) (path : jsstring) : jsstring :=
  match adapterRead vault path with
  | Some c => c
  | None => HEADING ++ [LF; LF]
  end.

Definition entryOfPlay (p : Play.t) : jsstring :=
  entryOf (stripMd (Play.fileName p)) (Play.dateIso p).

(** The text of a log that read [content0] once the entries [done],
    latest first, were inserted in it. *)
Definition logAfter (content0 : jsstring) (done : list jsstring) : jsstring :=
  match done with
  | [] => content0
  | _ :: _ => join (topOf content0 ++ done ++ restOf content0)
  end.

(** The file at [path] is that log. *)
Definition logIs (vault : gmap (list N) Node) (path content0 : jsstring)
    (done : list jsstring) : Prop :=
  match done with
  | [] => logContent vault path = content0
  | _ :: _ => adapterRead vault path = Some (logAfter content0 done)
  end.

(** A line as [appendToHistory] writes them. *)
Definition entryLike (l : jsstring) : Prop :=
  noLF l /\ isBlank l = false /\ isHeadingLine l = false.

Definition sortedByTs (plays : list Play.t) : Prop :=
  StronglySorted (fun a b => Play.ts a <= Play.ts b) plays.

(** The shape of [String(n)] for a four-digit year and of
    [pad(n)] for a two-digit field. *)
Definition fourDigits (s : jsstring) : bool :=
  match s with
  | [a; b; c; d] => isDigit a && isDigit b && isDigit c && isDigit d
  | _ => false
  end.

Definition twoDigits (s : jsstring) : bool :=
  match s with
  | [a; b] => isDigit a && isDigit b
  | _ => false
  end.

(** ** A host for the examples: the UTC time zone, paths kept as they are *)

Definition civilFromDays (days : Z) : Z * Z * Z :=
  let z := days + 719468 in
  let era := z / 146097 in
  let doe := z - era * 146097 in
  let yoe := (doe - doe / 1460 + doe / 36524 - doe / 146096) / 365 in
  let doy := doe - (365 * yoe + yoe / 4 - yoe / 100) in
  let mp := (5 * doy + 2) / 153 in
  let d := doy - (153 * mp + 2) / 5 + 1 in
  let m := if mp <? 10 then mp + 3 else mp - 9 in
  (yoe + era * 400 + (if m <=? 2 then 1 else 0), m, d).

Definition daysFromCivil (y m d : Z) : Z :=
  let y := if m <=? 2 then y - 1 else y in
  let era := y / 400 in
  let yoe := y - era * 400 in
  let doy := (153 * (if m >? 2 then m - 3 else m + 9) + 2) / 5 + d - 1 in
  era * 146097 + (yoe * 365 + yoe / 4 - yoe / 100 + doy) - 719468.

Definition utcFields (ts : Z) : DateFields :=
  let '(y, m, d) := civilFromDays (ts / 86400) in
  let sod := ts mod 86400 in
  mkDate y (m - 1) d (sod / 3600) (sod mod 3600 / 60) (sod mod 60).

(** A date-time without offset is local time; an impossible date is
    [NaN]. *)
Definition utcParseDate (iso : jsstring) : option Z :=
  match matchItems isoItems iso with
  | Some (_, []) =>
      let num (a b : nat) := digitsToNum (firstn b (skipn a iso)) in
      let y := num 0%nat 4%nat in
      let m := num 5%nat 2%nat in
      let d := num 8%nat 2%nat in
      let h := num 11%nat 2%nat in
      let mi := num 14%nat 2%nat in
      let sec := num 17%nat 2%nat in
      let days := daysFromCivil y m d in
      if (1 <=? m) && (m <=? 12) && (1 <=? d) && (h <=? 23) && (mi <=? 59) && (sec <=? 59)
         && bool_decide (civilFromDays days = (y, m, d))
      then Some ((days * 86400 + h * 3600 + mi * 60 + sec) * 1000)
      else None
  | _ => None
  end.

Definition idPath (p : jsstring) : jsstring := p.

(** Decimal time stamps of the examples: 2024-01-01T00:00:00Z and later. *)
Definition T2024 : Z := 1704067200.

(** The examples only encode unreserved characters, which
    [encodeURIComponent] leaves alone. *)
Definition hostEncode (s : jsstring) : jsstring := s.

Definition hostClock (i : nat) : Z := T2024 + 86400 * 300.

(** A remote that answers the successive requests of a run with the
    given replies, and rejects once they are used up. *)
Definition scripted (replies : list Reply) (sent : nat) (req : Request) : Reply :=
  nth sent replies (Throws None).

Definition settingsFresh : Settings.t :=
  Settings.mk (str "key") (str "user") (str "Music") [] false.

(** The history folder set to the notes folder. *)
Definition settingsShared : Settings.t :=
  Settings.mk (str "key") (str "user") (str "Music") (str "Music") false.

Definition uprising (date : option Z) : LastFmTrack.t :=
  LastFmTrack.mk (str "Uprising") (str "Muse") (Some (str "The Resistance")) date [].

Definition quote : jsstring := [34%N].

(** A record as [buildNewTrackContent] writes it, with five plays. *)
Definition recordWith (playCount : jsstring) : jsstring :=
  str "---" ++ [LF]
  ++ str "track: Uprising" ++ [LF]
  ++ str "artist: Muse" ++ [LF]
  ++ str "play_count: " ++ playCount ++ [LF]
  ++ str "first_listened_at: 2023-05-01T10:00:00" ++ [LF]
  ++ str "last_listened_at: 2023-06-01T10:00:00" ++ [LF]
  ++ str "---" ++ [LF].

Definition vaultWithRecord : gmap (list N) Node :=
  <[str "Music/Muse - Uprising.md" := TFile (recordWith (quote ++ str "5" ++ quote))]> ∅.

(** Two plays of one track, the later one fetched first. *)
Definition twoPlays : list LastFmTrack.t :=
  [uprising (Some (T2024 + 200)); uprising (Some (T2024 + 100))].

(** 2003-01-01T00:00:00Z: more than twenty years before 2024. *)
Definition T2003 : Z := 1041379200.

Definition recordPathOfUprising : jsstring := str "Music/Muse - Uprising.md".

(** ** Vocabulary for further properties *)

(** How [extractBestCover] ranks an image: extralarge before large before
    any other size. *)
Definition sizeRank (i : Image.t) : nat :=
  if eqStr (Image.size i) (str "extralarge") then 2
  else if eqStr (Image.size i) (str "large") then 1 else 0.

(** The pattern [buildLastFmUrl] replaces. *)
Definition PERCENT20 : jsstring := str "%20".

(** Date fields as [timestampToLocalISO] expects them for a year of four
    digits. *)
Definition fieldsInRange (d : DateFields) : Prop :=
  1000 <= fullYear d <= 9999 /\ 0 <= month d <= 11 /\ 1 <= dayOfMonth d <= 31
  /\ 0 <= hours d <= 23 /\ 0 <= minutes d <= 59 /\ 0 <= seconds d <= 59.

(** No two requests of a fetch follow each other without a wait. *)
Fixpoint paced (log : list Effect) : bool :=
  match log with
  | Requested _ :: ((Requested _ :: _) as rest) => false
  | _ :: rest => paced rest
  | [] => true
  end.

Definition requestsOf (log : list Effect) : list Request :=
  flat_map (fun e => match e with Requested r => [r] | Waited _ => [] end) log.

(** Pages asked for one after the other: the same page again or the
    next one. *)
Fixpoint stepwise (prev : Z) (pages : list Z) : bool :=
  match pages with
  | [] => true
  | q :: rest => ((q =? prev) || (q =? prev + 1)) && stepwise q rest
  end.

(** The pages the requests of a fetch ask for, in order. *)
Definition pagesOf (log : list Effect) : list Z := List.map page (requestsOf log).

(** A value made of the characters of a local time, as the plugin passes
    to [updateTrackContent]; it holds no dollar sign, which [replace]
    would read as a pattern. *)
Definition isoLike (s : jsstring) : bool :=
  match s with
  | [] => false
  | _ :: _ => forallb isoChar s
  end.

(** Neither key of [updateTrackContent] occurs in the text. *)
Definition keyFree (s : jsstring) : bool :=
  negb (includes s COUNT_KEY) && negb (includes s LAST_KEY).

(** No occurrence of [p] can start inside [lit], whatever follows it. *)
Fixpoint clearOf (p lit : jsstring) : bool :=
  match lit with
  | [] => true
  | _ :: r => negb (startsWith p lit || startsWith lit p) && clearOf p r
  end.

(** The lines of a new record before its count, and its text after the
    last-listened line. *)
Definition recordHead (g : TrackGroup.t) (url : jsstring) : list jsstring :=
  [str "---";
   str "track: " ++ TrackGroup.name g;
   str "artist: " ++ TrackGroup.artist g;
   str "album: " ++ orElse (TrackGroup.album g) [EM_DASH];
   str "tags: [song]";
   str "lastfm_url: " ++ url].

Definition recordTail (g : TrackGroup.t) (url : jsstring) : jsstring :=
  str "cover_url: " ++ TrackGroup.coverUrl g ++ [LF]
  ++ str "---" ++ [LF]
  ++ str "![](" ++ TrackGroup.coverUrl g ++ str ")" ++ [LF]
  ++ str "[Last.fm " ++ [8594%N] ++ str " " ++ TrackGroup.name g ++ str "](" ++ url ++ str ")"
  ++ [LF; LF].

(** The group with [n] more plays, the latest of them at [iso]. *)
Definition withPlays (g : TrackGroup.t) (n : Z) (iso : jsstring) : TrackGroup.t :=
  TrackGroup.mk (TrackGroup.count g + n) iso (TrackGroup.latestTs g)
    (TrackGroup.firstIso g) (TrackGroup.firstTs g) (TrackGroup.album g)
    (TrackGroup.coverUrl g) (TrackGroup.artist g) (TrackGroup.name g)
    (TrackGroup.fileName g).

(** ** The plugin around the engine: settings, status bar and timer *)

(** [DEFAULT_SETTINGS] of settings.ts. *)
Definition DEFAULT_SETTINGS : Settings.t :=
  Settings.mk [] [] (str "Music Library") [] false.

Module Stored.
(** What [loadData()] resolves with: the members that the stored object
    has. *)
Record t := mk {
  apiKey : option jsstring;
  username : option jsstring;
  folder : option jsstring;
  historyFolderPath : option jsstring;
  autoSyncEnabled : option bool
}.
End Stored.

(** [Object.assign({}, DEFAULT_SETTINGS, await this.loadData())];
    [None] is the [null] of a plugin without stored data. *)
Definition loadSettings (data : option Stored.t) : Settings.t :=
  match data with
  | None => DEFAULT_SETTINGS
  | Some d =>
      Settings.mk
        (default (Settings.apiKey DEFAULT_SETTINGS) (Stored.apiKey d))
        (default (Settings.username DEFAULT_SETTINGS) (Stored.username d))
        (default (Settings.folder DEFAULT_SETTINGS) (Stored.folder d))
        (default (Settings.historyFolderPath DEFAULT_SETTINGS) (Stored.historyFolderPath d))
        (default (Settings.autoSyncEnabled DEFAULT_SETTINGS) (Stored.autoSyncEnabled d))
  end.

(** The [onChange] handlers of the four text fields of the settings
    tab. *)
Definition onChangeApiKey (value : jsstring) (s : Settings.t) : Settings.t :=
  Settings.mk (trim value) (Settings.username s) (Settings.folder s)
    (Settings.historyFolderPath s) (Settings.autoSyncEnabled s).

Definition onChangeUsername (value : jsstring) (s : Settings.t) : Settings.t :=
  Settings.mk (Settings.apiKey s) (trim value) (Settings.folder s)
    (Settings.historyFolderPath s) (Settings.autoSyncEnabled s).

Definition onChangeFolder (value : jsstring) (s : Settings.t) : Settings.t :=
  Settings.mk (Settings.apiKey s) (Settings.username s) (trim value)
    (Settings.historyFolderPath s) (Settings.autoSyncEnabled s).

Definition onChangeHistoryFolder (value : jsstring) (s : Settings.t) : Settings.t :=
  Settings.mk (Settings.apiKey s) (Settings.username s) (Settings.folder s)
    (trim value) (Settings.autoSyncEnabled s).

Module Plugin.
(** The fields of [LastFmMusicLibraryPlugin], with the part of the
    window they act on: [statusBarItem] holds the text of the item once
    [onload] has made it, [intervals] are the intervals of the plugin
    that are running, and [nextInterval] is the identifier
    [window.setInterval] returns next. *)
Record t := mk {
  settings : Settings.t;
  statusBarItem : option jsstring;
  autoSyncIntervalId : option nat;
  intervals : list nat;
  nextInterval : nat
}.
End Plugin.

(** [updateStatusBar(message)]. *)
Definition updateStatusBar (message : jsstring) (p : Plugin.t) : Plugin.t :=
  match Plugin.statusBarItem p with
  | Some _ =>
      let auto := if Settings.autoSyncEnabled (Plugin.settings p)
                  then str " | Auto ON" else str " | Auto OFF" in
      Plugin.mk (Plugin.settings p) (Some (str "Last.fm: " ++ message ++ auto))
        (Plugin.autoSyncIntervalId p) (Plugin.intervals p) (Plugin.nextInterval p)
  | None => p
  end.

(** [enableAutoSync()]. *)
Definition enableAutoSync (p : Plugin.t) : Plugin.t :=
  match Plugin.autoSyncIntervalId p with
  | Some _ => p
  | None =>
      let id := Plugin.nextInterval p in
      updateStatusBar (str "Auto ON")
        (Plugin.mk (Plugin.settings p) (Plugin.statusBarItem p) (Some id)
           (id :: Plugin.intervals p) (S id))
  end.

(** [disableAutoSync()]. *)
Definition disableAutoSync (p : Plugin.t) : Plugin.t :=
  match Plugin.autoSyncIntervalId p with
  | None => p
  | Some id =>
      updateStatusBar (str "Auto OFF")
        (Plugin.mk (Plugin.settings p) (Plugin.statusBarItem p) None
           (List.filter (fun i => negb (i =? id)%nat) (Plugin.intervals p))
           (Plugin.nextInterval p))
  end.

(** The [onChange] handler of the automatic-sync toggle. *)
Definition onChangeAutoSync (value : bool) (p : Plugin.t) : Plugin.t :=
  let s := Plugin.settings p in
  let p := Plugin.mk
             (Settings.mk (Settings.apiKey s) (Settings.username s) (Settings.folder s)
                (Settings.historyFolderPath s) value)
             (Plugin.statusBarItem p) (Plugin.autoSyncIntervalId p)
             (Plugin.intervals p) (Plugin.nextInterval p) in
  if value then enableAutoSync p else disableAutoSync p.

(** What [onload] does with the settings it loaded: the status bar item
    is made and set to Ready, and the timer is started when the flag is
    set. [next] is the identifier the window gives out next. *)
Definition onload (data : option Stored.t) (next : nat) : Plugin.t :=
  let p := updateStatusBar (str "Ready")
             (Plugin.mk (loadSettings data) (Some []) None [] next) in
  if Settings.autoSyncEnabled (Plugin.settings p) then enableAutoSync p else p.

(** The calls that reach the timer once the plugin is loaded. *)
Inductive Call :=
| EnableAutoSync
| DisableAutoSync
| ToggleAutoSync (value : bool)
| UpdateStatusBar (message : jsstring).

Definition call (c : Call) (p : Plugin.t) : Plugin.t :=
  match c with
  | EnableAutoSync => enableAutoSync p
  | DisableAutoSync => disableAutoSync p
  | ToggleAutoSync value => onChangeAutoSync value p
  | UpdateStatusBar message => updateStatusBar message p
  end.

Definition calls (cs : list Call) (p : Plugin.t) : Plugin.t :=
  fold_left (fun p c => call c p) cs p.

(** The running intervals of the plugin are the one it remembers, if
    any, and identifiers still to come are fresh. *)
Definition timerMatches (p : Plugin.t) : Prop :=
  Plugin.intervals p
  = match Plugin.autoSyncIntervalId p with Some id => [id] | None => [] end
  /\ forall id, In id (Plugin.intervals p) -> (id < Plugin.nextInterval p)%nat.

(** ** The engine, over its host environment *)

Section Engine.

(** Obsidian's [normalizePath] and the built-in [encodeURIComponent]. *)
Variable normalizePath : jsstring -> jsstring.
Variable encodeURIComponent : jsstring -> jsstring.

(** [new Date(ts * 1000)] read in local time, and
    [new Date(iso).getTime()] in milliseconds ([None] for [NaN]). *)
Variable localFields : Z -> DateFields.
Variable parseDate : jsstring -> option Z.

Definition timestampToLocalISO (ts : Z) : jsstring :=
  let d := localFields ts in
  numToString (fullYear d) ++ str "-" ++ pad (month d + 1) ++ str "-"
    ++ pad (dayOfMonth d) ++ str "T"
    ++ pad (hours d) ++ str ":" ++ pad (minutes d) ++ str ":" ++ pad (seconds d).

Definition localISOToTimestamp (iso : jsstring) : option Z :=
  match parseDate iso with
  | None => None
  | Some ms => Some (ms / 1000)
  end.

Definition buildLastFmUrl (artist track : jsstring) : jsstring :=
  let a := replaceAll (str "%20") (str "+") (encodeURIComponent artist) in
  let t := replaceAll (str "%20") (str "+") (encodeURIComponent track) in
  str "https://www.last.fm/music/" ++ a ++ str "/_/" ++ t.

Definition buildNewTrackContent (g : TrackGroup.t) (url : jsstring) : jsstring :=
  str "---" ++ [LF]
  ++ str "track: " ++ TrackGroup.name g ++ [LF]
  ++ str "artist: " ++ TrackGroup.artist g ++ [LF]
  ++ str "album: " ++ orElse (TrackGroup.album g) [EM_DASH] ++ [LF]
  ++ str "tags: [song]" ++ [LF]
  ++ str "lastfm_url: " ++ url ++ [LF]
  ++ str "play_count: " ++ [34%N] ++ numToString (TrackGroup.count g) ++ [34%N] ++ [LF]
  ++ str "first_listened_at: " ++ TrackGroup.firstIso g ++ [LF]
  ++ str "last_listened_at: " ++ TrackGroup.latestIso g ++ [LF]
  ++ str "cover_url: " ++ TrackGroup.coverUrl g ++ [LF]
  ++ str "---" ++ [LF]
  ++ str "![](" ++ TrackGroup.coverUrl g ++ str ")" ++ [LF]
  ++ str "[Last.fm " ++ [8594%N] ++ str " " ++ TrackGroup.name g ++ str "](" ++ url ++ str ")"
  ++ [LF; LF].

(** *** The aggregator: the [for (const t of trulyNewTracks)] loop *)

(** [Math.floor(Date.now() / 1000)] when the [i]-th surviving event is
    processed. *)
Variable clock : nat -> Z.

Definition eventTs (i : nat) (t : LastFmTrack.t) : Z :=
  match LastFmTrack.date t with Some uts => uts | None => clock i end.

Definition playOf (i : nat) (t : LastFmTrack.t) : Play.t :=
  Play.mk (fileNameOf (artistOf t) (nameOf t))
          (timestampToLocalISO (eventTs i t)) (eventTs i t).

(** The group a first event creates, before it is counted. *)
Definition newGroup (i : nat) (t : LastFmTrack.t) : TrackGroup.t :=
  let ts := eventTs i t in
  let iso := timestampToLocalISO ts in
  TrackGroup.mk 0 iso ts iso ts
    (trim (match LastFmTrack.album t with Some a => a | None => [] end))
    (extractBestCover (LastFmTrack.image t))
    (artistOf t) (nameOf t) (fileNameOf (artistOf t) (nameOf t)).

(** [group.count++] and the two comparisons that follow it. *)
Definition countPlay (i : nat) (t : LastFmTrack.t) (g : TrackGroup.t) : TrackGroup.t :=
  let ts := eventTs i t in
  let iso := timestampToLocalISO ts in
  let album := trim (match LastFmTrack.album t with Some a => a | None => [] end) in
  let coverUrl := extractBestCover (LastFmTrack.image t) in
  let g1 :=
    if ts >? TrackGroup.latestTs g
    then TrackGroup.mk (TrackGroup.count g + 1) iso ts
           (TrackGroup.firstIso g) (TrackGroup.firstTs g) album coverUrl
           (TrackGroup.artist g) (TrackGroup.name g) (TrackGroup.fileName g)
    else TrackGroup.mk (TrackGroup.count g + 1)
           (TrackGroup.latestIso g) (TrackGroup.latestTs g)
           (TrackGroup.firstIso g) (TrackGroup.firstTs g)
           (TrackGroup.album g) (TrackGroup.coverUrl g)
           (TrackGroup.artist g) (TrackGroup.name g) (TrackGroup.fileName g) in
  if ts <? TrackGroup.firstTs g1
  then TrackGroup.mk (TrackGroup.count g1)
         (TrackGroup.latestIso g1) (TrackGroup.latestTs g1) iso ts
         (TrackGroup.album g1) (TrackGroup.coverUrl g1)
         (TrackGroup.artist g1) (TrackGroup.name g1) (TrackGroup.fileName g1)
  else g1.

Fixpoint aggregate (i : nat) (tracks : list LastFmTrack.t)
    (trackGroups : list (jsstring * TrackGroup.t)) (historyPlays : list Play.t)
  : list (jsstring * TrackGroup.t) * list Play.t :=
  match tracks with
  | [] => (trackGroups, historyPlays)
  | t :: rest =>
      let key := keyOf (artistOf t) (nameOf t) in
      let historyPlays := historyPlays ++ [playOf i t] in
      let group :=
        match mapGet key trackGroups with
        | Some g => g
        | None => newGroup i t
        end in
      aggregate (S i) rest (mapSet key (countPlay i t group) trackGroups) historyPlays
  end.

(** *** The resume point: the [for (let year ...)] loop *)

Definition historyFileName (year : jsstring) : jsstring :=
  str "History-" ++ year ++ str ".md".

Definition historyPath (historyFolder year : jsstring) : jsstring :=
  normalizePath (historyFolder ++ str "/" ++ historyFileName year).

(** The inner [for (const line of lines)]: the first line that matches
    and whose timestamp is truthy. *)
Fixpoint scanLines (lines : list jsstring) : option Z :=
  match lines with
  | [] => None
  | line :: rest =>
      match matchEntry line with
      | Some iso =>
          match localISOToTimestamp iso with
          | Some ts => if ts =? 0 then scanLines rest else Some ts
          | None => scanLines rest
          end
      | None => scanLines rest
      end
  end.

Definition scanYear (vault : gmap (list N) Node) (historyFolder : jsstring) (year : Z)
  : option Z :=
  match vault !! historyPath historyFolder (numToString year) with
  | Some (TFile content) => scanLines (split content)
  | _ => None
  end.

(** [n] years downward from [year]. *)
Fixpoint scanYears (vault : gmap (list N) Node) (historyFolder : jsstring)
    (n : nat) (year : Z) : option Z :=
  match n with
  | O => None
  | S n' =>
      match scanYear vault historyFolder year with
      | Some ts => Some ts
      | None => scanYears vault historyFolder n' (year - 1)
      end
  end.

(** [year = currentYear; year >= currentYear - 20; year--]. *)
Definition resolveWatermark (vault : gmap (list N) Node) (historyFolder : jsstring)
    (currentYear : Z) : option Z :=
  scanYears vault historyFolder 21 currentYear.

(** *** The fetcher: the [fetchLoop: while] loop *)

Variable remote : nat -> Request -> Reply.

Definition maxAttempts : Z := 3.

Definition isTransient (status : option Z) : bool :=
  match status with
  | Some s => (s =? 500) || (s =? 429)
  | None => false
  end.

Definition retryDelay (status : option Z) : Z :=
  match status with
  | Some 429 => 30000
  | _ => 5000
  end.

Definition truthyNum (x : option Z) : bool :=
  match x with Some n => negb (n =? 0) | None => false end.

(** One unit of [fuel] per iteration; [sent] counts the requests made
    so far in this run. *)
Fixpoint fetchLoop (fuel : nat) (found : bool) (fromTimestamp : Z)
    (sent : nat) (page totalPages attempts : Z)
    (allNewTracks : list LastFmTrack.t) (log : list Effect)
  : FetchResult * list Effect :=
  match fuel with
  | O => (OutOfFuel, log)
  | S fuel' =>
      if (page <=? totalPages) && (attempts <? maxAttempts) then
        let req := mkRequest page (if found then Some fromTimestamp else None) in
        let log := log ++ [Requested req] in
        match remote sent req with
        | Responds error tp tracks =>
            if truthyNum error then (FetchFailed, log)
            else
              let totalPages :=
                match tp with
                | Some n => if page =? 1 then (if found then n else 1) else totalPages
                | None => totalPages
                end in
              match tracks with
              | [] => (Fetched allNewTracks, log)
              | _ :: _ =>
                  let page := page + 1 in
                  let log := if page <=? totalPages then log ++ [Waited 2000] else log in
                  fetchLoop fuel' found fromTimestamp (S sent) page totalPages attempts
                    (allNewTracks ++ tracks) log
              end
        | Throws status =>
            if isTransient status && (attempts <? maxAttempts - 1) then
              fetchLoop fuel' found fromTimestamp (S sent) page totalPages (attempts + 1)
                allNewTracks (log ++ [Waited (retryDelay status)])
            else (FetchFailed, log)
        end
      else (Fetched allNewTracks, log)
  end.

(** Page 1 is requested at most three times, so the [totalPages] the
    loop can adopt is among the first three replies to that request:
    this many iterations always suffice (see [fetchTracks_terminates]). *)
Definition declaredPages (found : bool) (fromTimestamp : Z) (sent : nat) : nat :=
  match remote sent (mkRequest 1 (if found then Some fromTimestamp else None)) with
  | Responds _ (Some n) _ => Z.to_nat n
  | _ => 0
  end.

Definition fetchFuel (found : bool) (fromTimestamp : Z) : nat :=
  (6 + declaredPages found fromTimestamp 0 + declaredPages found fromTimestamp 1
     + declaredPages found fromTimestamp 2)%nat.

Definition fetchTracks (found : bool) (fromTimestamp : Z) : FetchResult * list Effect :=
  fetchLoop (fetchFuel found fromTimestamp) found fromTimestamp 0 1 1 0 [] [].

(** *** The store writer *)

Definition recordPath (folder : jsstring) (g : TrackGroup.t) : jsstring :=
  normalizePath (folder ++ str "/" ++ TrackGroup.fileName g).

(** One iteration of [for (const group of trackGroups.values())]. *)
Definition writeGroup (folder : jsstring) (vault : gmap (list N) Node) (g : TrackGroup.t)
  : option (gmap (list N) Node * bool) :=
  let path := recordPath folder g in
  let lastfmUrl := buildLastFmUrl (TrackGroup.artist g) (TrackGroup.name g) in
  match vault !! path with
  | Some (TFile content) =>
      match vaultModify vault path
              (updateTrackContent content (TrackGroup.count g) (TrackGroup.latestIso g)) with
      | Some v => Some (v, false)
      | None => None
      end
  | _ =>
      match vaultCreate vault path (buildNewTrackContent g lastfmUrl) with
      | Some v => Some (v, true)
      | None => None
      end
  end.

Fixpoint writeGroups (folder : jsstring) (vault : gmap (list N) Node)
    (groups : list TrackGroup.t) (created updated : Z) : Run (Z * Z) :=
  match groups with
  | [] => Done vault (created, updated)
  | g :: rest =>
      match writeGroup folder vault g with
      | Some (v, true) => writeGroups folder v rest (created + 1) updated
      | Some (v, false) => writeGroups folder v rest created (updated + 1)
      | None => Thrown vault
      end
  end.

(** The folder [appendToHistory] derives from the settings. *)
Definition historyFolderOf (settings : Settings.t) : jsstring :=
  match trim (Settings.historyFolderPath settings) with
  | _ :: _ => normalizePath (Settings.historyFolderPath settings)
  | [] => normalizePath (Settings.folder settings ++ str "/History")
  end.

(** [appendToHistory(name, iso)]. *)
Definition appendToHistory (settings : Settings.t) (vault : gmap (list N) Node)
    (name iso : jsstring) : Run unit :=
  let year := firstn 4 iso in
  let folder := historyFolderOf settings in
  let path := historyPath folder year in
  let entry := entryOf name iso in
  let '(content, vault) :=
    match adapterRead vault path with
    | Some c => (c, vault)
    | None => (HEADING ++ [LF; LF], createFolder vault folder)
    end in
  match insertEntry content entry with
  | None => Done vault tt
  | Some text =>
      match vault !! path with
      | None =>
          match vaultCreate vault path text with
          | Some v => Done v tt
          | None => Thrown vault
          end
      | Some _ =>
          match vaultModify vault path text with
          | Some v => Done v tt
          | None => Thrown vault
          end
      end
  end.

(** [for (const play of historyPlays)]. *)
Fixpoint appendAll (settings : Settings.t) (vault : gmap (list N) Node)
    (plays : list Play.t) : Run unit :=
  match plays with
  | [] => Done vault tt
  | play :: rest =>
      match appendToHistory settings vault (stripMd (Play.fileName play)) (Play.dateIso play) with
      | Done v _ => appendAll settings v rest
      | Thrown v => Thrown v
      end
  end.

(** *** [syncTracks] *)

(** [new Date().getFullYear()] when the run starts. *)
Variable currentYear : Z.

Definition withHistoryFolder (settings : Settings.t) (path : jsstring) : Settings.t :=
  Settings.mk (Settings.apiKey settings) (Settings.username settings)
    (Settings.folder settings) path (Settings.autoSyncEnabled settings).

(** From the aggregation on: what follows a non-empty [trulyNewTracks]. *)
Definition storeWriter (settings : Settings.t) (vault : gmap (list N) Node)
    (trulyNew : list LastFmTrack.t) : gmap (list N) Node * Outcome :=
  let '(trackGroups, historyPlays) := aggregate 0 trulyNew [] [] in
  let historyPlays := sortPlays historyPlays in
  match writeGroups (Settings.folder settings) vault (mapValues trackGroups) 0 0 with
  | Thrown v => (v, Crashed)
  | Done v (created, updated) =>
      match appendAll settings v historyPlays with
      | Thrown v' => (v', Crashed)
      | Done v' _ => (v', Synced created updated)
      end
  end.

(** From the resume point on: what follows the folder preparation. *)
Definition syncFrom (settings : Settings.t) (vault : gmap (list N) Node)
    (historyFolder : jsstring) : Result.t :=
  let found := resolveWatermark vault historyFolder currentYear in
  let lastFetchedTimestamp := match found with Some ts => ts | None => 0 end in
  let fromTimestamp := match found with Some ts => ts + 1 | None => 0 end in
  let isFound := match found with Some _ => true | None => false end in
  match fetchTracks isFound fromTimestamp with
  | (Fetched allNewTracks, log) =>
      match allNewTracks with
      | [] => Result.mk vault settings log NoNewTracks
      | _ :: _ =>
          match trulyNewTracks lastFetchedTimestamp allNewTracks with
          | [] => Result.mk vault settings log AllRecorded
          | (_ :: _) as trulyNew =>
              let '(v, o) := storeWriter settings vault trulyNew in
              Result.mk v settings log o
          end
      end
  | (_, log) => Result.mk vault settings log SyncFailed
  end.

Definition syncTracks (settings : Settings.t) (vault : gmap (list N) Node) : Result.t :=
  match Settings.apiKey settings, Settings.username settings with
  | _ :: _, _ :: _ =>
      let folder := Settings.folder settings in
      let vault := createFolder vault (normalizePath folder) in
      match trim (Settings.historyFolderPath settings) with
      | _ :: _ =>
          let historyFolder := normalizePath (Settings.historyFolderPath settings) in
          match vault !! historyFolder with
          | None => Result.mk vault settings [] HistoryFolderMissing
          | Some _ => syncFrom settings vault historyFolder
          end
      | [] =>
          let historyFolder := normalizePath (folder ++ str "/History") in
          let vault := createFolder vault historyFolder in
          syncFrom (withHistoryFolder settings historyFolder) vault historyFolder
      end
  | _, _ => Result.mk vault settings [] MissingCredentials
  end.

(** ** Properties of the aggregator *)


Definition hasKey (k : jsstring) (t : LastFmTrack.t) : bool :=
  eqStr (keyOf (artistOf t) (nameOf t)) k.

(** How many of the events carry the key. *)
Definition countKey (k : jsstring) (tracks : list LastFmTrack.t) : Z :=
  Z.of_nat (length (List.filter (hasKey k) tracks)).

Definition groupCount (k : jsstring) (groups : list (jsstring * TrackGroup.t)) : Z :=
  match mapGet k groups with Some g => TrackGroup.count g | None => 0 end.

(** The log a play is appended to. *)
Definition logPathOf (settings : Settings.t) (p : Play.t) : jsstring :=
  historyPath (historyFolderOf settings) (firstn 4 (Play.dateIso p)).

(** Whether [appendToHistory] gets past its guard for this play. *)
Definition willInsert (settings : Settings.t) (vault : gmap (list N) Node) (p : Play.t)
  : bool :=
  negb (includes (logContent vault (logPathOf settings p)) (entryOfPlay p)).

(** The plays of a run whose entry [appendToHistory] inserted, in the
    order of their insertion. *)
Fixpoint appendedPlays (settings : Settings.t) (vault : gmap (list N) Node)
    (plays : list Play.t) : list Play.t :=
  match plays with
  | [] => []
  | p :: rest =>
      match appendToHistory settings vault (stripMd (Play.fileName p)) (Play.dateIso p) with
      | Done v _ =>
          (if willInsert settings vault p then [p] else [])
            ++ appendedPlays settings v rest
      | Thrown _ => []
      end
  end.

(** The inserted plays that went to the log at [path]. *)
Definition appendedTo (settings : Settings.t) (vault : gmap (list N) Node)
    (plays : list Play.t) (path : jsstring) : list Play.t :=
  List.filter (fun p => eqStr (logPathOf settings p) path)
    (appendedPlays settings vault plays).

(** The plays the aggregator pushes for the events, the first being the
    [i]-th of the run. *)
Fixpoint playsFrom (i : nat) (tracks : list LastFmTrack.t) : list Play.t :=
  match tracks with
  | [] => []
  | t :: rest => playOf i t :: playsFrom (S i) rest
  end.

(** A timestamp the host formats as the resolver expects and reads back:
    a four-digit year, fields in their ranges, and [localISOToTimestamp]
    inverse to [timestampToLocalISO] there. *)
Definition wellDated (ts : Z) : Prop :=
  let d := localFields ts in
  1000 <= fullYear d <= 9999 /\ 0 <= month d <= 11 /\ 1 <= dayOfMonth d <= 31
  /\ 0 <= hours d <= 23 /\ 0 <= minutes d <= 59 /\ 0 <= seconds d <= 59
  /\ localISOToTimestamp (timestampToLocalISO ts) = Some ts.

(** The plays and the groups of a run, from its surviving events. *)
Definition runPlays (trulyNew : list LastFmTrack.t) : list Play.t :=
  sortPlays (snd (aggregate 0 trulyNew [] [])).

Definition runGroups (trulyNew : list LastFmTrack.t) : list TrackGroup.t :=
  mapValues (fst (aggregate 0 trulyNew [] [])).

(** The play the run appends last. *)
Definition latestPlay (trulyNew : list LastFmTrack.t) : Play.t :=
  last (runPlays trulyNew) (Play.mk [] [] 0).

(** The vault once the records of the run are written, and the plays
    whose entries the run then inserts. *)
Definition recordsWritten (settings : Settings.t) (vault : gmap (list N) Node)
    (trulyNew : list LastFmTrack.t) : gmap (list N) Node :=
  runVault (writeGroups (Settings.folder settings) vault (runGroups trulyNew) 0 0).

Definition runAppended (settings : Settings.t) (vault : gmap (list N) Node)
    (trulyNew : list LastFmTrack.t) : list Play.t :=
  appendedPlays settings (recordsWritten settings vault trulyNew) (runPlays trulyNew).

(** The folder preparation of [syncTracks]: the settings, the vault and
    the history folder the rest of the run works with, or [None] when the
    run ends there. *)
Definition prepare (settings : Settings.t) (vault : gmap (list N) Node)
  : option (Settings.t * gmap (list N) Node * jsstring) :=
  match Settings.apiKey settings, Settings.username settings with
  | _ :: _, _ :: _ =>
      let folder := Settings.folder settings in
      let vault := createFolder vault (normalizePath folder) in
      match trim (Settings.historyFolderPath settings) with
      | _ :: _ =>
          let historyFolder := normalizePath (Settings.historyFolderPath settings) in
          match vault !! historyFolder with
          | None => None
          | Some _ => Some (settings, vault, historyFolder)
          end
      | [] =>
          let historyFolder := normalizePath (folder ++ str "/History") in
          Some (withHistoryFolder settings historyFolder,
                createFolder vault historyFolder, historyFolder)
      end
  | _, _ => None
  end.

(** The watermark, the fetch and the surviving events of a run that
    resumes from this vault. *)
Definition lastFetched (vault : gmap (list N) Node) (historyFolder : jsstring) : Z :=
  match resolveWatermark vault historyFolder currentYear with
  | Some ts => ts
  | None => 0
  end.

Definition fetched (vault : gmap (list N) Node) (historyFolder : jsstring) : FetchResult :=
  let found := resolveWatermark vault historyFolder currentYear in
  fst (fetchTracks (match found with Some _ => true | None => false end)
         (match found with Some ts => ts + 1 | None => 0 end)).

Definition survivors (vault : gmap (list N) Node) (historyFolder : jsstring)
  : list LastFmTrack.t :=
  match fetched vault historyFolder with
  | Fetched all => trulyNewTracks (lastFetched vault historyFolder) all
  | _ => []
  end.




(** Files stay files and folders stay folders: nothing is deleted. *)
Definition grows (v v' : gmap (list N) Node) : Prop :=
  forall p, match v !! p with
            | Some TFolder => v' !! p = Some TFolder
            | Some (TFile _) => exists c, v' !! p = Some (TFile c)
            | None => True
            end.

(** A group carries the identity of its key. *)
Definition groupKeyed (k : jsstring) (g : TrackGroup.t) : Prop :=
  k = keyOf (TrackGroup.artist g) (TrackGroup.name g)
  /\ TrackGroup.fileName g = fileNameOf (TrackGroup.artist g) (TrackGroup.name g).

(** *** Vocabulary for the groups of a run *)

Definition albumOf (t : LastFmTrack.t) : jsstring :=
  trim (match LastFmTrack.album t with Some a => a | None => [] end).

(** Among the events with key [k], the [j]-th event [t] is the first one
    with the greatest timestamp. *)
Definition latestAt (k : jsstring) (tracks : list LastFmTrack.t) (j : nat)
    (t : LastFmTrack.t) : Prop :=
  nth_error tracks j = Some t /\ hasKey k t = true
  /\ forall j' t', nth_error tracks j' = Some t' -> hasKey k t' = true ->
                   eventTs j' t' <= eventTs j t
                   /\ ((j' < j)%nat -> eventTs j' t' < eventTs j t).

(** Likewise the first one with the least timestamp. *)
Definition earliestAt (k : jsstring) (tracks : list LastFmTrack.t) (j : nat)
    (t : LastFmTrack.t) : Prop :=
  nth_error tracks j = Some t /\ hasKey k t = true
  /\ forall j' t', nth_error tracks j' = Some t' -> hasKey k t' = true ->
                   eventTs j t <= eventTs j' t'
                   /\ ((j' < j)%nat -> eventTs j t < eventTs j' t').

(** What a finished group records of the events with its key. *)
Definition groupSummarises (k : jsstring) (tracks : list LastFmTrack.t)
    (g : TrackGroup.t) : Prop :=
  1 <= TrackGroup.count g
  /\ TrackGroup.firstTs g <= TrackGroup.latestTs g
  /\ (exists j t,
        latestAt k tracks j t
        /\ TrackGroup.latestTs g = eventTs j t
        /\ TrackGroup.latestIso g = timestampToLocalISO (eventTs j t)
        /\ TrackGroup.album g = albumOf t
        /\ TrackGroup.coverUrl g = extractBestCover (LastFmTrack.image t))
  /\ (exists j t,
        earliestAt k tracks j t
        /\ TrackGroup.firstTs g = eventTs j t
        /\ TrackGroup.firstIso g = timestampToLocalISO (eventTs j t)).

(** The entry of the play is in the log of its year. *)
Definition logged (settings : Settings.t) (vault : gmap (list N) Node) (p : Play.t) : Prop :=
  exists text, adapterRead vault (logPathOf settings p) = Some text
               /\ includes text (entryOfPlay p) = true.



Lemma eqStr_true a b : eqStr a b = true <-> a = b.
Proof. unfold eqStr. apply bool_decide_eq_true. Qed.

Lemma eqStr_false a b : eqStr a b = false <-> a <> b.
Proof. unfold eqStr. apply bool_decide_eq_false. Qed.

Lemma eqStr_refl a : eqStr a a = true.
Proof. apply eqStr_true. reflexivity. Qed.

Lemma countPlay_count i t g :
  TrackGroup.count (countPlay i t g) = TrackGroup.count g + 1.
Proof.
  unfold countPlay.
  destruct (eventTs i t >? TrackGroup.latestTs g); cbn;
    match goal with |- context [if ?c then _ else _] => destruct c end;
    reflexivity.
Qed.





Lemma mapGet_mapSet_eq {V} k (v : V) m : mapGet k (mapSet k v m) = Some v.
Proof.
  induction m as [|[k' v'] m IH]; cbn.
  - rewrite eqStr_refl. reflexivity.
  - destruct (eqStr k k') eqn:E; cbn; rewrite ?eqStr_refl, ?E; auto.
Qed.

Lemma mapGet_mapSet_ne {V} k k' (v : V) m :
  k <> k' -> mapGet k (mapSet k' v m) = mapGet k m.
Proof.
  intros Hne. induction m as [|[k2 v2] m IH]; cbn.
  - apply eqStr_false in Hne. rewrite Hne. reflexivity.
  - destruct (eqStr k' k2) eqn:E; cbn.
    + apply eqStr_true in E. subst k2.
      apply eqStr_false in Hne. rewrite Hne. reflexivity.
    + destruct (eqStr k k2); auto.
Qed.

Lemma countPlay_identity i t g :
  TrackGroup.artist (countPlay i t g) = TrackGroup.artist g
  /\ TrackGroup.name (countPlay i t g) = TrackGroup.name g
  /\ TrackGroup.fileName (countPlay i t g) = TrackGroup.fileName g.
Proof.
  unfold countPlay.
  destruct (eventTs i t >? TrackGroup.latestTs g); cbn;
    match goal with |- context [if ?c then _ else _] => destruct c end;
    cbn; auto.
Qed.

Lemma aggregate_groupCount k tracks : forall i groups plays,
  groupCount k (fst (aggregate i tracks groups plays))
  = groupCount k groups + countKey k tracks.
Proof.
  unfold countKey.
  induction tracks as [|t rest IH]; intros i groups plays.
  - cbn [aggregate fst List.filter length]. rewrite Z.add_0_r. reflexivity.
  - cbn [aggregate List.filter]. rewrite IH. unfold hasKey at 2.
    set (key := keyOf (artistOf t) (nameOf t)).
    destruct (eqStr key k) eqn:E.
    + apply eqStr_true in E. subst k. unfold groupCount at 1.
      rewrite mapGet_mapSet_eq, countPlay_count. unfold groupCount.
      destruct (mapGet key groups); cbn [length newGroup TrackGroup.count]; lia.
    + apply eqStr_false in E. unfold groupCount at 1.
      rewrite mapGet_mapSet_ne by congruence. fold (groupCount k groups). lia.
Qed.

Lemma aggregate_groupKeyed tracks : forall i groups plays,
  (forall k g, mapGet k groups = Some g -> groupKeyed k g) ->
  forall k g, mapGet k (fst (aggregate i tracks groups plays)) = Some g -> groupKeyed k g.
Proof.
  induction tracks as [|t rest IH]; intros i groups plays Hinv k g.
  - cbn. apply Hinv.
  - cbn [aggregate]. apply IH. clear k g. intros k g.
    set (key := keyOf (artistOf t) (nameOf t)).
    destruct (decide (k = key)) as [->|Hne].
    + rewrite mapGet_mapSet_eq. intros [= <-].
      destruct (countPlay_identity i t
                  (match mapGet key groups with Some g => g | None => newGroup i t end))
        as (Ha & Hn & Hf).
      unfold groupKeyed. rewrite Ha, Hn, Hf.
      destruct (mapGet key groups) as [g0|] eqn:E.
      * apply (Hinv _ _ E).
      * cbn. split; reflexivity.
    + rewrite mapGet_mapSet_ne by exact Hne. apply Hinv.
Qed.

Lemma countKey_nonneg k tracks : 0 <= countKey k tracks.
Proof. unfold countKey. lia. Qed.

Lemma trulyNewTracks_In W all t :
  In t (trulyNewTracks W all) <-> In t all /\ filterTs t > W.
Proof.
  unfold trulyNewTracks. rewrite filter_In.
  split; intros [H1 H2]; split; auto.
  - apply Z.gtb_gt. exact H2.
  - apply Z.gtb_gt in H2. exact H2.
Qed.

(** ** Properties of the fetcher *)




(** ** The vault only grows *)

Lemma grows_refl v : grows v v.
Proof. intros p. destruct (v !! p) as [[c|]|]; eauto. Qed.

Lemma grows_trans v1 v2 v3 : grows v1 v2 -> grows v2 v3 -> grows v1 v3.
Proof.
  intros H12 H23 p. specialize (H12 p). specialize (H23 p).
  destruct (v1 !! p) as [[c|]|]; auto.
  - destruct H12 as [c' H12]. rewrite H12 in H23. exact H23.
  - rewrite H12 in H23. exact H23.
Qed.

Lemma grows_insert_fresh v q n : v !! q = None -> grows v (<[q := n]> v).
Proof.
  intros Hq p. destruct (decide (p = q)) as [->|Hne].
  - rewrite Hq. exact I.
  - rewrite lookup_insert_ne by congruence. destruct (v !! p) as [[c|]|]; eauto.
Qed.

Lemma grows_createFolder v q : grows v (createFolder v q).
Proof.
  unfold createFolder. destruct (v !! q) eqn:E; [apply grows_refl|].
  apply grows_insert_fresh, E.
Qed.

Lemma grows_vaultCreate v q c v' : vaultCreate v q c = Some v' -> grows v v'.
Proof.
  unfold vaultCreate. destruct (v !! q) eqn:E; [discriminate|].
  intros [= <-]. apply grows_insert_fresh, E.
Qed.

Lemma grows_vaultModify v q c v' : vaultModify v q c = Some v' -> grows v v'.
Proof.
  unfold vaultModify. destruct (v !! q) as [[c0|]|] eqn:E; try discriminate.
  intros [= <-] p. destruct (decide (p = q)) as [->|Hne].
  - rewrite E, lookup_insert_eq. eauto.
  - rewrite lookup_insert_ne by congruence. destruct (v !! p) as [[c1|]|]; eauto.
Qed.

Lemma grows_writeGroup folder v g v' b :
  writeGroup folder v g = Some (v', b) -> grows v v'.
Proof.
  unfold writeGroup.
  destruct (v !! recordPath folder g) as [[c|]|].
  - destruct (vaultModify _ _ _) eqn:E; [|discriminate].
    intros [= <- _]. eapply grows_vaultModify, E.
  - destruct (vaultCreate _ _ _) eqn:E; [|discriminate].
    intros [= <- _]. eapply grows_vaultCreate, E.
  - destruct (vaultCreate _ _ _) eqn:E; [|discriminate].
    intros [= <- _]. eapply grows_vaultCreate, E.
Qed.

Lemma grows_writeGroups folder groups : forall v created updated,
  grows v (runVault (writeGroups folder v groups created updated)).
Proof.
  induction groups as [|g rest IH]; intros v created updated; cbn [writeGroups].
  - apply grows_refl.
  - destruct (writeGroup folder v g) as [[v' [|]]|] eqn:E.
    + eapply grows_trans; [eapply grows_writeGroup, E|apply IH].
    + eapply grows_trans; [eapply grows_writeGroup, E|apply IH].
    + apply grows_refl.
Qed.

Lemma grows_appendToHistory settings v name iso :
  grows v (runVault (appendToHistory settings v name iso)).
Proof.
  unfold appendToHistory.
  set (path := historyPath _ _).
  destruct (adapterRead v path) as [c|].
  - destruct (insertEntry _ _); [|apply grows_refl].
    destruct (v !! path).
    + destruct (vaultModify _ _ _) eqn:E; [eapply grows_vaultModify, E|apply grows_refl].
    + destruct (vaultCreate _ _ _) eqn:E; [eapply grows_vaultCreate, E|apply grows_refl].
  - eapply grows_trans; [apply grows_createFolder|].
    destruct (insertEntry _ _); [|apply grows_refl].
    destruct (createFolder v _ !! path).
    + destruct (vaultModify _ _ _) eqn:E; [eapply grows_vaultModify, E|apply grows_refl].
    + destruct (vaultCreate _ _ _) eqn:E; [eapply grows_vaultCreate, E|apply grows_refl].
Qed.

Lemma grows_appendAll settings plays : forall v,
  grows v (runVault (appendAll settings v plays)).
Proof.
  induction plays as [|p rest IH]; intros v; cbn [appendAll].
  - apply grows_refl.
  - pose proof (grows_appendToHistory settings v (stripMd (Play.fileName p)) (Play.dateIso p)) as H.
    destruct (appendToHistory _ _ _ _) as [v' []|v']; cbn in H.
    + eapply grows_trans; [exact H|apply IH].
    + exact H.
Qed.

Lemma grows_storeWriter settings v trulyNew :
  grows v (fst (storeWriter settings v trulyNew)).
Proof.
  unfold storeWriter. destruct (aggregate _ _ _ _) as [groups plays].
  pose proof (grows_writeGroups (Settings.folder settings) (mapValues groups) v 0 0) as H1.
  destruct (writeGroups _ _ _ _ _) as [v1 [created updated]|v1]; cbn in H1 |- *; [|exact H1].
  pose proof (grows_appendAll settings (sortPlays plays) v1) as H2.
  destruct (appendAll _ _ _) as [v2 []|v2]; cbn in H2 |- *;
    eapply grows_trans; eauto.
Qed.

Lemma syncFrom_settings settings v hf :
  Result.settings (syncFrom settings v hf) = settings.
Proof.
  unfold syncFrom.
  destruct (fetchTracks _ _) as [[all| |] log]; try reflexivity.
  destruct all as [|t all]; [reflexivity|].
  destruct (trulyNewTracks _ _) as [|t' new]; [reflexivity|].
  destruct (storeWriter _ _ _). reflexivity.
Qed.

Lemma grows_syncFrom settings v hf : grows v (Result.vault (syncFrom settings v hf)).
Proof.
  unfold syncFrom.
  destruct (fetchTracks _ _) as [[all| |] log]; try apply grows_refl.
  destruct all as [|t all]; [apply grows_refl|].
  destruct (trulyNewTracks _ _) as [|t' new] eqn:E; [apply grows_refl|].
  pose proof (grows_storeWriter settings v (t' :: new)) as H.
  destruct (storeWriter _ _ _). exact H.
Qed.

Lemma createFolder_lookup v q : createFolder v q !! q <> None.
Proof.
  unfold createFolder. destruct (v !! q) eqn:E.
  - rewrite E. discriminate.
  - rewrite lookup_insert_eq. discriminate.
Qed.

Lemma createFolder_fresh v q : v !! q = None -> createFolder v q !! q = Some TFolder.
Proof. intros E. unfold createFolder. rewrite E. apply lookup_insert_eq. Qed.

Lemma fetchLoop_exit fuel found fromTs sent page totalPages attempts acc log :
  totalPages < page ->
  fetchLoop (S fuel) found fromTs sent page totalPages attempts acc log
  = (Fetched acc, log).
Proof.
  intros H. cbn [fetchLoop].
  replace (page <=? totalPages) with false by (symmetry; apply Z.leb_gt; lia).
  reflexivity.
Qed.



Lemma createFolder_adapterRead v q p :
  adapterRead (createFolder v q) p = adapterRead v p.
Proof.
  unfold createFolder, adapterRead. destruct (v !! q) eqn:E; [reflexivity|].
  destruct (decide (p = q)) as [->|Hne].
  - rewrite lookup_insert_eq, E. reflexivity.
  - rewrite lookup_insert_ne by congruence. reflexivity.
Qed.

(** ** Strings: prefixes, inclusion, lines *)

Lemma startsWith_spec p : forall s, startsWith p s = true <-> exists r, s = p ++ r.
Proof.
  induction p as [|a p IH]; intros s; cbn.
  - split; [eauto|reflexivity].
  - destruct s as [|b s].
    + split; [discriminate|]. intros [r Hr]. discriminate.
    + rewrite andb_true_iff, N.eqb_eq, IH. split.
      * intros [-> [r ->]]. eauto.
      * intros [r [= -> ->]]. eauto.
Qed.

Lemma includes_spec p : forall s, includes s p = true <-> exists a b, s = a ++ p ++ b.
Proof.
  induction s as [|c s IH]; cbn [includes]; rewrite orb_true_iff, startsWith_spec.
  - split.
    + intros [[r Hr]|H]; [|discriminate]. exists [], r. exact Hr.
    + intros (a & b & H). left. destruct a; [eauto|discriminate].
  - rewrite IH. split.
    + intros [[r Hr]|(a & b & ->)].
      * exists [], r. exact Hr.
      * exists (c :: a), b. reflexivity.
    + intros (a & b & H). destruct a as [|c' a].
      * left. eauto.
      * right. injection H as -> ->. eauto.
Qed.

Lemma includes_refl_app a p b : includes (a ++ p ++ b) p = true.
Proof. apply includes_spec. eauto. Qed.

Lemma split_nonempty s : split s <> [].
Proof.
  destruct s as [|c s]; cbn; [discriminate|].
  destruct (c =? LF)%N; [discriminate|].
  destruct (split s); discriminate.
Qed.

Lemma join_cons l ls : ls <> [] -> join (l :: ls) = l ++ LF :: join ls.
Proof. destruct ls; [congruence|reflexivity]. Qed.

Lemma join_split s : join (split s) = s.
Proof.
  induction s as [|c s IH]; [reflexivity|]. cbn [split].
  pose proof (split_nonempty s) as Hs.
  destruct (N.eqb_spec c LF) as [->|Hne].
  - rewrite join_cons by exact Hs. rewrite IH. reflexivity.
  - destruct (split s) as [|l ls] eqn:E; [congruence|].
    destruct ls as [|l' ls'].
    + cbn [join] in *. rewrite IH. reflexivity.
    + rewrite join_cons by discriminate. rewrite join_cons in IH by discriminate.
      cbn [app]. rewrite IH. reflexivity.
Qed.

Lemma split_noLF s : Forall noLF (split s).
Proof.
  induction s as [|c s IH]; cbn [split].
  - constructor; [|constructor]. intros [].
  - destruct (N.eqb_spec c LF) as [->|Hne].
    + constructor; [intros []|exact IH].
    + destruct (split s) as [|l ls]; [constructor; [|constructor]|].
      * intros [H|[]]. congruence.
      * inversion IH as [|? ? Hl Hls]; subst. constructor; [|exact Hls].
        intros [H|H]; [congruence|exact (Hl H)].
Qed.

Lemma split_line l : noLF l -> split l = [l].
Proof.
  induction l as [|c l IH]; intros H; [reflexivity|]. cbn [split].
  destruct (N.eqb_spec c LF) as [->|Hne]; [exfalso; apply H; left; reflexivity|].
  rewrite IH; [reflexivity|]. intros Hin. apply H. right. exact Hin.
Qed.

Lemma split_app_LF l s : noLF l -> split (l ++ LF :: s) = l :: split s.
Proof.
  induction l as [|c l IH]; intros H; cbn [split app].
  - rewrite N.eqb_refl. reflexivity.
  - destruct (N.eqb_spec c LF) as [->|Hne]; [exfalso; apply H; left; reflexivity|].
    rewrite IH; [reflexivity|]. intros Hin. apply H. right. exact Hin.
Qed.

Lemma split_join lines : lines <> [] -> Forall noLF lines -> split (join lines) = lines.
Proof.
  induction lines as [|l ls IH]; intros Hne Hall; [congruence|].
  inversion Hall as [|? ? Hl Hls]; subst.
  destruct ls as [|l' ls'].
  - cbn. apply split_line, Hl.
  - change (join (l :: l' :: ls')) with (l ++ LF :: join (l' :: ls')).
    rewrite split_app_LF by exact Hl. rewrite IH; [reflexivity|discriminate|exact Hls].
Qed.

Lemma join_app l1 l : forall l2, join (l1 ++ l :: l2) =
  match l1 with [] => [] | _ => join l1 ++ [LF] end ++ l
  ++ match l2 with [] => [] | _ => LF :: join l2 end.
Proof.
  induction l1 as [|x l1 IH]; intros l2.
  - cbn [app]. destruct l2; cbn [join app]; [rewrite app_nil_r|]; reflexivity.
  - cbn [app]. destruct l1 as [|y l1].
    + cbn [app join] in *. destruct l2; cbn [app]; rewrite <- ?app_assoc; cbn; [rewrite app_nil_r|]; reflexivity.
    + change (join (x :: (y :: l1) ++ l :: l2)) with (x ++ LF :: join ((y :: l1) ++ l :: l2)).
      rewrite IH. change (join (x :: y :: l1)) with (x ++ LF :: join (y :: l1)).
      rewrite <- !app_assoc. cbn [app]. reflexivity.
Qed.

Lemma includes_join_intro lines l x :
  In l lines -> includes l x = true -> includes (join lines) x = true.
Proof.
  intros Hin Hx. apply in_split in Hin. destruct Hin as (l1 & l2 & ->).
  apply includes_spec in Hx. destruct Hx as (a & b & ->).
  rewrite join_app. apply includes_spec.
  set (pre := match l1 with [] => [] | _ => join l1 ++ [LF] end).
  set (post := match l2 with [] => [] | _ => LF :: join l2 end).
  exists (pre ++ a), (b ++ post). rewrite <- !app_assoc. reflexivity.
Qed.

Lemma startsWith_app_LF x a b :
  noLF x -> startsWith x (a ++ LF :: b) = true -> startsWith x a = true.
Proof.
  revert a. induction x as [|c x IH]; intros a Hx H; [reflexivity|].
  destruct a as [|d a]; cbn in H |- *.
  - apply andb_true_iff in H. destruct H as [H _]. apply N.eqb_eq in H.
    exfalso. apply Hx. left. congruence.
  - apply andb_true_iff in H. destruct H as [H1 H2]. rewrite H1. cbn.
    apply IH; [|exact H2]. intros Hin. apply Hx. right. exact Hin.
Qed.

Lemma includes_app_LF x a b :
  noLF x -> x <> [] -> includes (a ++ LF :: b) x = true ->
  includes a x = true \/ includes b x = true.
Proof.
  intros Hx Hne. induction a as [|c a IH]; cbn [app includes]; intros H.
  - apply orb_true_iff in H. destruct H as [H|H]; [|right; exact H].
    destruct x as [|d x]; [congruence|]. cbn in H.
    apply andb_true_iff in H. destruct H as [H _]. apply N.eqb_eq in H.
    exfalso. apply Hx. left. congruence.
  - apply orb_true_iff in H. destruct H as [H|H].
    + left. apply orb_true_iff. left.
      apply (startsWith_app_LF x (c :: a) b Hx H).
    + destruct (IH H) as [H'|H']; [left|right; exact H'].
      apply orb_true_iff. right. exact H'.
Qed.

Lemma includes_join_elim x lines :
  noLF x -> x <> [] -> includes (join lines) x = true ->
  exists l, In l lines /\ includes l x = true.
Proof.
  intros Hx Hne. induction lines as [|l ls IH]; intros H.
  - cbn in H. rewrite orb_false_r in H. destruct x; [congruence|discriminate].
  - destruct ls as [|l' ls'].
    + exists l. split; [left; reflexivity|exact H].
    + change (join (l :: l' :: ls')) with (l ++ LF :: join (l' :: ls')) in H.
      destruct (includes_app_LF _ _ _ Hx Hne H) as [H'|H'].
      * exists l. split; [left; reflexivity|exact H'].
      * destruct (IH H') as (m & Hm & Hm'). exists m. split; [right; exact Hm|exact Hm'].
Qed.

(** ** The insertion point of a log *)

Lemma skipBlank_add r : forall a, skipBlank r a = (a + skipBlank r 0)%nat.
Proof.
  induction r as [|l r IH]; intros a; cbn [skipBlank]; [lia|].
  destruct (isBlank l); [|lia]. rewrite (IH (S a)), (IH 1%nat). lia.
Qed.

Lemma skipBlank_stop bl : forall e rest,
  Forall (fun l => isBlank l = true) bl -> isBlank e = false ->
  skipBlank (bl ++ e :: rest) 0 = length bl.
Proof.
  induction bl as [|b bl IH]; intros e rest Hbl He; cbn [app skipBlank length].
  - rewrite He. reflexivity.
  - inversion Hbl as [|? ? Hb Hbl']; subst. rewrite Hb.
    rewrite skipBlank_add, IH by assumption. lia.
Qed.

Lemma skipBlank_prefix r :
  (skipBlank r 0 <= length r)%nat
  /\ Forall (fun l => isBlank l = true) (firstn (skipBlank r 0) r).
Proof.
  induction r as [|l r [IH1 IH2]]; cbn [skipBlank length].
  - split; [lia|constructor].
  - destruct (isBlank l) eqn:E.
    + rewrite skipBlank_add. cbn [Nat.add firstn]. split; [lia|].
      constructor; assumption.
    + split; [lia|constructor].
Qed.

Lemma findIndexSucc_none {A} (p : A -> bool) l :
  Forall (fun x => p x = false) l -> findIndexSucc p l = 0%nat.
Proof.
  induction 1 as [|x l Hx Hl IH]; cbn; [reflexivity|]. rewrite Hx, IH. reflexivity.
Qed.

Lemma findIndexSucc_found {A} (p : A -> bool) pre h tl :
  Forall (fun x => p x = false) pre -> p h = true ->
  findIndexSucc p (pre ++ h :: tl) = S (length pre).
Proof.
  induction 1 as [|x l Hx Hl IH]; intros Hh; cbn.
  - rewrite Hh. reflexivity.
  - rewrite Hx, (IH Hh). reflexivity.
Qed.

Lemma findIndexSucc_cases {A} (p : A -> bool) l :
  (findIndexSucc p l = 0%nat /\ Forall (fun x => p x = false) l)
  \/ (exists pre h tl, l = pre ++ h :: tl /\ Forall (fun x => p x = false) pre
                       /\ p h = true /\ findIndexSucc p l = S (length pre)).
Proof.
  induction l as [|x l IH]; cbn.
  - left. split; [reflexivity|constructor].
  - destruct (p x) eqn:E.
    + right. exists [], x, l. repeat split; auto.
    + destruct IH as [[H0 Hall]|(pre & h & tl & -> & Hpre & Hh & Hi)].
      * left. rewrite H0. split; [reflexivity|constructor; assumption].
      * right. exists (x :: pre), h, tl. rewrite Hi. repeat split; auto.
Qed.

Lemma insertPos_le lines : (insertPos lines <= length lines)%nat.
Proof.
  unfold insertPos.
  destruct (findIndexSucc_cases isHeadingLine lines)
    as [[H0 _]|(pre & h & tl & -> & _ & _ & Hi)].
  - rewrite H0. cbn [skipn]. apply skipBlank_prefix.
  - rewrite Hi. rewrite skipBlank_add.
    replace (skipn (S (length pre)) (pre ++ h :: tl)) with tl.
    + pose proof (proj1 (skipBlank_prefix tl)). rewrite length_app. cbn [length]. lia.
    + change (S (length pre)) with (1 + length pre)%nat.
      rewrite <- skipn_skipn, skipn_app, skipn_all, Nat.sub_diag. reflexivity.
Qed.

(** Entry-like lines put on top of the insertion point leave it where it
    is. *)
Lemma insertPos_done lines d ds :
  isBlank d = false ->
  Forall (fun l => isHeadingLine l = false) (d :: ds) ->
  insertPos (firstn (insertPos lines) lines ++ (d :: ds) ++ skipn (insertPos lines) lines)
  = insertPos lines.
Proof.
  intros Hd Hdone.
  destruct (findIndexSucc_cases isHeadingLine lines)
    as [[H0 Hall]|(pre & h & tl & -> & Hpre & Hh & Hi)].
  - assert (Hk : insertPos lines = skipBlank lines 0)
      by (unfold insertPos; rewrite H0; reflexivity).
    rewrite Hk. destruct (skipBlank_prefix lines) as [Hle Hbl].
    unfold insertPos. rewrite findIndexSucc_none.
    + rewrite skipn_O. cbn [app]. rewrite skipBlank_stop by assumption.
      rewrite length_firstn. lia.
    + rewrite <- (firstn_skipn (skipBlank lines 0) lines) in Hall.
      apply Forall_app in Hall. destruct Hall as [Ha Hb].
      apply Forall_app. split; [exact Ha|apply Forall_app; split; assumption].
  - assert (Hsk : forall x, skipn (S (length pre)) (pre ++ h :: x) = x).
    { intros x. change (S (length pre)) with (1 + length pre)%nat.
      rewrite <- skipn_skipn, skipn_app, skipn_all, Nat.sub_diag. reflexivity. }
    assert (Hk : insertPos (pre ++ h :: tl) = (S (length pre) + skipBlank tl 0)%nat).
    { unfold insertPos. rewrite Hi, Hsk. apply skipBlank_add. }
    rewrite Hk. destruct (skipBlank_prefix tl) as [Hle Hbl].
    set (b := skipBlank tl 0) in *.
    assert (Hf : firstn (S (length pre) + b) (pre ++ h :: tl) = pre ++ h :: firstn b tl).
    { rewrite firstn_app.
      replace (S (length pre) + b - length pre)%nat with (S b) by lia.
      rewrite firstn_all2 by lia. reflexivity. }
    assert (Hs : skipn (S (length pre) + b) (pre ++ h :: tl) = skipn b tl).
    { rewrite skipn_app.
      replace (S (length pre) + b - length pre)%nat with (S b) by lia.
      rewrite skipn_all2 by lia. reflexivity. }
    rewrite Hf, Hs. rewrite <- app_assoc. cbn [app].
    unfold insertPos. rewrite findIndexSucc_found by assumption.
    rewrite Hsk. cbn [app].
    rewrite skipBlank_add, skipBlank_stop by assumption.
    rewrite length_firstn. lia.
Qed.

(** ** Entries are neither blank nor headings *)

Lemma trimStart_snoc a c :
  isWhiteSpace c = false -> trimStart (a ++ [c]) = trimStart a ++ [c].
Proof.
  intros Hc. induction a as [|x a IH]; cbn.
  - rewrite Hc. reflexivity.
  - destruct (isWhiteSpace x); [exact IH|reflexivity].
Qed.

Lemma trim_head c s :
  isWhiteSpace c = false -> exists r, trim (c :: s) = c :: r.
Proof.
  intros Hc. unfold trim. cbn [trimStart]. rewrite Hc. unfold trimEnd. cbn [rev].
  rewrite (trimStart_snoc _ _ Hc), rev_app_distr. cbn. eauto.
Qed.

Lemma entryOf_line name iso :
  isBlank (entryOf name iso) = false /\ isHeadingLine (entryOf name iso) = false.
Proof.
  unfold entryOf, isBlank, isHeadingLine.
  change (str "- " ++ iso ++ [32%N; EM_DASH; 32%N] ++ str "[[" ++ name ++ str "]]")
    with (45%N :: 32%N :: iso ++ [32%N; EM_DASH; 32%N] ++ str "[[" ++ name ++ str "]]").
  destruct (trim_head 45%N (32%N :: iso ++ [32%N; EM_DASH; 32%N] ++ str "[[" ++ name ++ str "]]")
              eq_refl) as [r Hr].
  rewrite Hr. split; apply eqStr_false; discriminate.
Qed.

(** ** What [insertEntry] does to the lines of a log *)

Lemma insertEntry_eq content entry :
  insertEntry content entry
  = if includes content entry then None
    else Some (join (topOf content ++ entry :: restOf content)).
Proof. reflexivity. Qed.

Lemma withHeading_includes content : includes (withHeading content) HEADING = true.
Proof.
  unfold withHeading. destruct (includes content HEADING) eqn:E; [exact E|].
  apply includes_spec. exists [], ([LF; LF] ++ trimStart content). reflexivity.
Qed.

Lemma withHeading_id content : includes content HEADING = true -> withHeading content = content.
Proof. intros H. unfold withHeading. rewrite H. reflexivity. Qed.

Lemma top_rest content : topOf content ++ restOf content = split (withHeading content).
Proof. apply firstn_skipn. Qed.

Lemma top_length content : length (topOf content) = insertPos (split (withHeading content)).
Proof. unfold topOf. rewrite length_firstn. pose proof (insertPos_le (split (withHeading content))). lia. Qed.

Lemma noLF_HEADING : noLF HEADING.
Proof. unfold noLF. cbn. intros H. repeat (destruct H as [H|H]; [discriminate|]). exact H. Qed.

(** A log on which entries were stacked: the stack sits between the
    top and the rest of the original text, and the next entry goes on top
    of it. *)
Lemma stacked_log content d ds :
  Forall noLF (d :: ds) -> isBlank d = false ->
  Forall (fun l => isHeadingLine l = false) (d :: ds) ->
  let text := join (topOf content ++ (d :: ds) ++ restOf content) in
  split text = topOf content ++ (d :: ds) ++ restOf content
  /\ topOf text = topOf content
  /\ restOf text = (d :: ds) ++ restOf content.
Proof.
  intros Hlf Hd Hh text.
  assert (Hsplit : split text = topOf content ++ (d :: ds) ++ restOf content).
  { apply split_join.
    - destruct (topOf content); discriminate.
    - pose proof (split_noLF (withHeading content)) as Hall.
      rewrite <- top_rest in Hall. apply Forall_app in Hall. destruct Hall as [Ha Hb].
      apply Forall_app. split; [exact Ha|apply Forall_app; split; assumption]. }
  assert (Hinc : includes text HEADING = true).
  { pose proof (withHeading_includes content) as H0.
    rewrite <- (join_split (withHeading content)) in H0.
    apply includes_join_elim in H0; [|exact noLF_HEADING|discriminate].
    destruct H0 as (l & Hl & Hl').
    apply (includes_join_intro _ l); [|exact Hl'].
    rewrite <- top_rest in Hl. apply in_app_or in Hl.
    apply in_or_app. destruct Hl as [Hl|Hl]; [left; exact Hl|].
    right. apply in_or_app. right. exact Hl. }
  assert (Hpos : insertPos (topOf content ++ (d :: ds) ++ restOf content)
                 = length (topOf content)).
  { rewrite top_length. unfold topOf, restOf. apply insertPos_done; assumption. }
  split; [exact Hsplit|].
  unfold topOf at 1, restOf at 1. rewrite (withHeading_id _ Hinc), Hsplit, Hpos.
  split.
  - rewrite List.firstn_app, Nat.sub_diag, firstn_all. cbn [firstn]. apply app_nil_r.
  - rewrite List.skipn_app, Nat.sub_diag, skipn_all. reflexivity.
Qed.

(** ** What [appendToHistory] does to the vault *)

Lemma adapterRead_insert v q c p :
  adapterRead (<[q := TFile c]> v) p = if decide (p = q) then Some c else adapterRead v p.
Proof.
  unfold adapterRead. destruct (decide (p = q)) as [->|Hne].
  - rewrite lookup_insert_eq. reflexivity.
  - rewrite lookup_insert_ne by congruence. reflexivity.
Qed.

Lemma Done_inj {A} v (a : A) v' a' : Done v a = Done v' a' -> v = v'.
Proof. intros H. injection H as H _. exact H. Qed.

Lemma Some_inj {A} (a b : A) : Some a = Some b -> a = b.
Proof. intros H. injection H as H. exact H. Qed.

Lemma appendToHistory_read settings v p v' :
  appendToHistory settings v (stripMd (Play.fileName p)) (Play.dateIso p) = Done v' tt ->
  (forall path, path <> logPathOf settings p -> adapterRead v' path = adapterRead v path)
  /\ adapterRead v' (logPathOf settings p)
     = if willInsert settings v p
       then Some (join (topOf (logContent v (logPathOf settings p))
                        ++ entryOfPlay p :: restOf (logContent v (logPathOf settings p))))
       else adapterRead v (logPathOf settings p).
Proof.
  unfold appendToHistory, willInsert, logContent.
  fold (logPathOf settings p). fold (entryOfPlay p).
  set (path := logPathOf settings p). set (entry := entryOfPlay p).
  destruct (adapterRead v path) as [c|] eqn:Hread.
  - rewrite insertEntry_eq. destruct (includes c entry); cbn [negb].
    + intros H. apply Done_inj in H. subst v'. split; [reflexivity|exact Hread].
    + unfold adapterRead in Hread.
      destruct (v !! path) as [[c0|]|] eqn:Hl; try discriminate Hread.
      unfold vaultModify. rewrite Hl. intros H. apply Done_inj in H. subst v'. split.
      * intros q Hq. rewrite adapterRead_insert. destruct (decide (q = path)); congruence.
      * rewrite adapterRead_insert. destruct (decide (path = path)); congruence.
  - rewrite insertEntry_eq.
    destruct (includes (HEADING ++ [LF; LF]) entry); cbn [negb].
    + intros H. apply Done_inj in H. subst v'.
      split; intros; rewrite createFolder_adapterRead; [reflexivity|exact Hread].
    + pose proof (createFolder_adapterRead v (historyFolderOf settings) path) as Hcf.
      rewrite Hread in Hcf. unfold adapterRead in Hcf.
      destruct (createFolder v (historyFolderOf settings) !! path) as [[c0|]|] eqn:Hl.
      * discriminate Hcf.
      * unfold vaultModify. rewrite Hl. intros H. discriminate H.
      * unfold vaultCreate. rewrite Hl. intros H. apply Done_inj in H. subst v'. split.
        -- intros q Hq. rewrite adapterRead_insert.
           destruct (decide (q = path)); [congruence|apply createFolder_adapterRead].
        -- rewrite adapterRead_insert. destruct (decide (path = path)); congruence.
Qed.

Lemma logAfter_cons content0 e done :
  Forall entryLike done ->
  logAfter content0 (e :: done)
  = join (topOf (logAfter content0 done) ++ e :: restOf (logAfter content0 done)).
Proof.
  intros Hdone. destruct done as [|d ds]; [reflexivity|].
  assert (Hlf : Forall noLF (d :: ds))
    by (eapply Forall_impl; [|exact Hdone]; intros l Hl; apply Hl).
  assert (Hh : Forall (fun l => isHeadingLine l = false) (d :: ds))
    by (eapply Forall_impl; [|exact Hdone]; intros l Hl; apply Hl).
  assert (Hd : isBlank d = false) by (inversion Hdone as [|? ? Hx _]; apply Hx).
  destruct (stacked_log content0 d ds Hlf Hd Hh) as (_ & Ht & Hr).
  cbn [logAfter]. rewrite Ht, Hr. reflexivity.
Qed.

Lemma entryOfPlay_like p : noLF (entryOfPlay p) -> entryLike (entryOfPlay p).
Proof.
  intros H. split; [exact H|]. apply entryOf_line.
Qed.

(** One append, seen from the log at [path]. *)
Lemma appendToHistory_log settings v p v' path content0 done :
  Forall entryLike done -> noLF (entryOfPlay p) ->
  logIs v path content0 done ->
  appendToHistory settings v (stripMd (Play.fileName p)) (Play.dateIso p) = Done v' tt ->
  logIs v' path content0
    (if eqStr (logPathOf settings p) path && willInsert settings v p
     then entryOfPlay p :: done else done).
Proof.
  intros Hdone Hp Hinv Hrun.
  destruct (appendToHistory_read _ _ _ _ Hrun) as [Hother Hself].
  assert (Hc : logContent v path = logAfter content0 done).
  { destruct done; [exact Hinv|]. unfold logContent. cbn in Hinv. rewrite Hinv. reflexivity. }
  destruct (eqStr (logPathOf settings p) path) eqn:E.
  - apply eqStr_true in E. subst path.
    destruct (willInsert settings v p) eqn:W; cbn [andb].
    + cbn [logIs]. rewrite Hself, Hc. f_equal. symmetry. apply logAfter_cons, Hdone.
    + destruct done as [|d ds]; cbn [logIs logAfter] in *.
      * unfold logContent in *. rewrite Hself. exact Hinv.
      * rewrite Hself. exact Hinv.
  - apply eqStr_false in E. cbn [andb].
    assert (Hr : adapterRead v' path = adapterRead v path) by (apply Hother; congruence).
    destruct done as [|d ds]; cbn [logIs] in *.
    + unfold logContent in *. rewrite Hr. exact Hinv.
    + rewrite Hr. exact Hinv.
Qed.

Lemma appendAll_log settings plays : forall v v' path content0 done,
  Forall entryLike done ->
  Forall (fun p => noLF (entryOfPlay p)) plays ->
  logIs v path content0 done ->
  appendAll settings v plays = Done v' tt ->
  logIs v' path content0
    (rev (List.map entryOfPlay (appendedTo settings v plays path)) ++ done).
Proof.
  unfold appendedTo.
  induction plays as [|p rest IH]; intros v v' path content0 done Hdone Hplays Hinv Hrun.
  - cbn [appendAll] in Hrun. apply Done_inj in Hrun. subst v'. exact Hinv.
  - cbn [appendAll appendedPlays] in *.
    inversion Hplays as [|? ? Hp Hrest]; subst.
    destruct (appendToHistory settings v (stripMd (Play.fileName p)) (Play.dateIso p))
      as [v1 []|v1] eqn:E; [|discriminate].
    pose proof (appendToHistory_log _ _ _ _ path content0 done Hdone Hp Hinv E) as H1.
    rewrite filter_app, map_app, rev_app_distr, <- app_assoc.
    destruct (willInsert settings v p) eqn:W.
    + cbn [List.filter]. destruct (eqStr (logPathOf settings p) path) eqn:Ep;
        cbn [andb List.map rev app] in *.
      * apply (IH v1 v' path content0 (entryOfPlay p :: done)); auto.
        constructor; [apply entryOfPlay_like, Hp|exact Hdone].
      * apply (IH v1 v' path content0 done); auto.
    + rewrite andb_false_r in H1. cbn [List.filter List.map rev app].
      apply (IH v1 v' path content0 done); auto.
Qed.

(** ** The plays of a run and their order *)

Lemma aggregate_plays tracks : forall i groups plays,
  snd (aggregate i tracks groups plays) = plays ++ playsFrom i tracks.
Proof.
  induction tracks as [|t rest IH]; intros i groups plays; cbn [aggregate playsFrom snd].
  - symmetry. apply app_nil_r.
  - rewrite IH, <- app_assoc. reflexivity.
Qed.

Lemma insertPlay_In p x : forall l, In x (insertPlay p l) <-> x = p \/ In x l.
Proof.
  induction l as [|q l IH]; cbn [insertPlay].
  - cbn. intuition.
  - destruct (Play.ts p <=? Play.ts q); cbn [In]; [intuition|].
    rewrite IH. intuition.
Qed.

Lemma insertPlay_sorted p l : sortedByTs l -> sortedByTs (insertPlay p l).
Proof.
  unfold sortedByTs. induction 1 as [|q l Hl IH Hq]; cbn [insertPlay].
  - constructor; constructor.
  - destruct (Z.leb_spec (Play.ts p) (Play.ts q)) as [Hle|Hgt].
    + constructor; [constructor; assumption|].
      constructor; [exact Hle|].
      eapply Forall_impl; [|exact Hq]. cbn. intros a Ha. lia.
    + constructor; [exact IH|].
      apply Forall_forall. intros x Hx. apply insertPlay_In in Hx.
      destruct Hx as [->|Hx]; [lia|].
      rewrite Forall_forall in Hq. apply Hq, Hx.
Qed.

Lemma sortPlays_sorted plays : sortedByTs (sortPlays plays).
Proof.
  unfold sortPlays. induction plays as [|p l IH]; cbn [fold_right].
  - constructor.
  - apply insertPlay_sorted, IH.
Qed.

Lemma sortPlays_In plays x : In x (sortPlays plays) <-> In x plays.
Proof.
  unfold sortPlays. induction plays as [|p l IH]; cbn [fold_right In]; [reflexivity|].
  rewrite insertPlay_In, IH. intuition.
Qed.

Lemma appendedPlays_In settings plays : forall v x,
  In x (appendedPlays settings v plays) -> In x plays.
Proof.
  induction plays as [|p rest IH]; intros v x; cbn [appendedPlays]; [tauto|].
  destruct (appendToHistory _ _ _ _) as [v1 u|v1]; [|intros []].
  intros H. apply in_app_or in H. destruct H as [H|H].
  - destruct (willInsert settings v p); [|destruct H].
    destruct H as [<-|[]]. left. reflexivity.
  - right. eapply IH, H.
Qed.

Lemma appendedPlays_sorted settings plays : forall v,
  sortedByTs plays -> sortedByTs (appendedPlays settings v plays).
Proof.
  unfold sortedByTs.
  induction plays as [|p rest IH]; intros v Hs; cbn [appendedPlays]; [constructor|].
  inversion Hs as [|? ? Hrest Hp]; subst.
  destruct (appendToHistory _ _ _ _) as [v1 u|v1]; [|constructor].
  destruct (willInsert settings v p); cbn [app]; [|apply IH, Hrest].
  constructor; [apply IH, Hrest|].
  apply Forall_forall. intros x Hx. apply appendedPlays_In in Hx.
  rewrite Forall_forall in Hp. apply Hp, Hx.
Qed.

Lemma filter_sorted f plays : sortedByTs plays -> sortedByTs (List.filter f plays).
Proof.
  unfold sortedByTs. induction 1 as [|p l Hl IH Hp]; cbn [List.filter]; [constructor|].
  destruct (f p); [|exact IH].
  constructor; [exact IH|].
  apply Forall_forall. intros x Hx. apply filter_In in Hx.
  rewrite Forall_forall in Hp. apply Hp, Hx.
Qed.


(** ** Entries without line feed *)

Lemma noLF_app a b : noLF a -> noLF b -> noLF (a ++ b).
Proof. unfold noLF. intros Ha Hb H. apply in_app_or in H. tauto. Qed.

Lemma trimStart_In s c : In c (trimStart s) -> In c s.
Proof.
  induction s as [|x s IH]; cbn; [tauto|].
  destruct (isWhiteSpace x); [intros H; right; apply IH, H|tauto].
Qed.

Lemma trim_In s c : In c (trim s) -> In c s.
Proof.
  unfold trim, trimEnd. intros H. apply in_rev in H. apply trimStart_In in H.
  apply in_rev in H. apply trimStart_In, H.
Qed.

Lemma noLF_trim s : noLF s -> noLF (trim s).
Proof. unfold noLF. intros H Hin. apply H, trim_In, Hin. Qed.

Lemma noLF_sanitize s : noLF s -> noLF (sanitizeFileName s).
Proof.
  unfold sanitizeFileName. intros H. apply noLF_trim.
  unfold noLF in *. intros Hin. apply in_map_iff in Hin.
  destruct Hin as (c & Hc & Hin). destruct (isIllegal c) eqn:E; [discriminate|].
  subst c. exact (H Hin).
Qed.

Lemma noLF_firstn n s : noLF s -> noLF (firstn n s).
Proof.
  unfold noLF. intros H Hin. apply H.
  rewrite <- (firstn_skipn n s). apply in_or_app. left. exact Hin.
Qed.

Lemma noLF_stripMd s : noLF s -> noLF (stripMd s).
Proof. unfold stripMd. intros H. destruct (endsWith _ _); [apply noLF_firstn, H|exact H]. Qed.

Lemma noLF_orElse a b : noLF a -> noLF b -> noLF (orElse a b).
Proof. intros Ha Hb. destruct a; [exact Hb|exact Ha]. Qed.

Lemma noLF_uintCodes d : noLF (uintCodes d).
Proof.
  unfold noLF. induction d; cbn [uintCodes]; [intros []|..];
    (intros [H|H]; [discriminate H|exact (IHd H)]).
Qed.

Lemma noLF_numToString n : noLF (numToString n).
Proof.
  destruct n; cbn [numToString]; try apply noLF_uintCodes.
  intros [H|H]; [discriminate H|exact (noLF_uintCodes _ H)].
Qed.

Lemma noLF_pad n : noLF (pad n).
Proof.
  unfold pad. pose proof (noLF_numToString n) as H.
  destruct (numToString n) as [|a [|b l]]; [| |exact H].
  - intros [E|[E|[]]]; discriminate E.
  - intros [E|E]; [discriminate E|exact (H E)].
Qed.

Lemma noLF_str_lit (l : jsstring) : forallb (fun c => negb (c =? LF)%N) l = true -> noLF l.
Proof.
  intros H Hin. rewrite forallb_forall in H. specialize (H _ Hin).
  rewrite N.eqb_refl in H. discriminate H.
Qed.

Lemma noLF_iso ts : noLF (timestampToLocalISO ts).
Proof.
  unfold timestampToLocalISO.
  repeat (apply noLF_app; [first [apply noLF_numToString | apply noLF_pad
                                  | apply noLF_str_lit; reflexivity]|]).
  apply noLF_pad.
Qed.

Lemma noLF_entryOf name iso : noLF name -> noLF iso -> noLF (entryOf name iso).
Proof.
  intros Hn Hi. unfold entryOf.
  apply noLF_app; [apply noLF_str_lit; reflexivity|].
  apply noLF_app; [exact Hi|].
  apply noLF_app; [apply noLF_str_lit; reflexivity|].
  apply noLF_app; [apply noLF_str_lit; reflexivity|].
  apply noLF_app; [exact Hn|apply noLF_str_lit; reflexivity].
Qed.

Lemma noLF_playOf i t :
  noLF (LastFmTrack.artist t) -> noLF (LastFmTrack.name t) -> noLF (entryOfPlay (playOf i t)).
Proof.
  intros Ha Hn. unfold entryOfPlay, playOf. cbn [Play.fileName Play.dateIso].
  apply noLF_entryOf; [|apply noLF_iso].
  apply noLF_stripMd. unfold fileNameOf, artistOf, nameOf.
  apply noLF_app; [apply noLF_sanitize, noLF_orElse;
                   [apply noLF_trim, Ha|apply noLF_str_lit; reflexivity]|].
  apply noLF_app; [apply noLF_str_lit; reflexivity|].
  apply noLF_app; [apply noLF_sanitize, noLF_orElse;
                   [apply noLF_trim, Hn|apply noLF_str_lit; reflexivity]|].
  apply noLF_str_lit. reflexivity.
Qed.

Lemma noLF_playsFrom tracks : forall i,
  (forall t, In t tracks -> noLF (LastFmTrack.artist t) /\ noLF (LastFmTrack.name t)) ->
  Forall (fun p => noLF (entryOfPlay p)) (playsFrom i tracks).
Proof.
  induction tracks as [|t rest IH]; intros i H; cbn [playsFrom]; constructor.
  - apply noLF_playOf; apply (H t); left; reflexivity.
  - apply IH. intros t' Ht'. apply H. right. exact Ht'.
Qed.

(** ** What the resolver reads back *)

Lemma below_bound (P : Z -> bool) (lo : Z) (n : nat) :
  forallb (fun k => P (lo + Z.of_nat k)) (seq 0 n) = true ->
  forall z, lo <= z < lo + Z.of_nat n -> P z = true.
Proof.
  intros H z Hz. rewrite forallb_forall in H.
  replace z with (lo + Z.of_nat (Z.to_nat (z - lo))) by lia.
  apply H. apply in_seq. lia.
Qed.

Lemma numToString_year y : 1000 <= y <= 9999 -> fourDigits (numToString y) = true.
Proof.
  intros H. apply (below_bound (fun z => fourDigits (numToString z)) 1000 (Z.to_nat 9000)).
  - vm_compute. reflexivity.
  - lia.
Qed.

Lemma pad_field n : 0 <= n <= 99 -> twoDigits (pad n) = true.
Proof.
  intros H. apply (below_bound (fun z => twoDigits (pad z)) 0 (Z.to_nat 100)).
  - vm_compute. reflexivity.
  - lia.
Qed.

Lemma year_reads_back y : 1000 <= y <= 9999 -> digitsToNum (numToString y) = y.
Proof.
  intros H.
  pose proof (below_bound (fun z => digitsToNum (numToString z) =? z) 1000 (Z.to_nat 9000)) as B.
  apply Z.eqb_eq. apply B; [vm_compute; reflexivity|lia].
Qed.

Lemma iso_year ts :
  1000 <= fullYear (localFields ts) <= 9999 ->
  firstn 4 (timestampToLocalISO ts) = numToString (fullYear (localFields ts)).
Proof.
  intros H. apply numToString_year in H. unfold timestampToLocalISO.
  destruct (numToString (fullYear (localFields ts))) as [|a [|b [|c [|d [|e l]]]]];
    try discriminate H. reflexivity.
Qed.

Lemma dropLit_app l rest : dropLit l (l ++ rest) = Some rest.
Proof.
  unfold dropLit.
  replace (startsWith l (l ++ rest)) with true
    by (symmetry; apply startsWith_spec; eauto).
  rewrite List.skipn_app, skipn_all, Nat.sub_diag, skipn_O. reflexivity.
Qed.

Lemma matchItems_lit l items rest m r :
  matchItems items rest = Some (m, r) ->
  matchItems (Lit l :: items) (l ++ rest) = Some (l ++ m, r).
Proof. intros H. cbn [matchItems]. rewrite dropLit_app, H. reflexivity. Qed.

Lemma matchItems_digits n ds items rest m r :
  length ds = n -> forallb isDigit ds = true ->
  matchItems items rest = Some (m, r) ->
  matchItems (Digits n :: items) (ds ++ rest) = Some (ds ++ m, r).
Proof.
  intros Hn Hd H. cbn [matchItems]. unfold takeDigits.
  rewrite List.firstn_app, <- Hn, firstn_all, Nat.sub_diag, firstn_O.
  rewrite app_nil_r, Nat.eqb_refl, Hd. cbn [andb].
  rewrite List.skipn_app, skipn_all, Nat.sub_diag, skipn_O. cbn [app].
  rewrite H. reflexivity.
Qed.

Lemma fourDigits_spec s : fourDigits s = true -> length s = 4%nat /\ forallb isDigit s = true.
Proof.
  destruct s as [|a [|b [|c [|d [|e l]]]]]; try discriminate.
  cbn [fourDigits forallb length]. intros H. split; [reflexivity|].
  rewrite andb_true_r. rewrite <- !andb_assoc in H. exact H.
Qed.

Lemma twoDigits_spec s : twoDigits s = true -> length s = 2%nat /\ forallb isDigit s = true.
Proof.
  destruct s as [|a [|b [|e l]]]; try discriminate.
  cbn [twoDigits forallb length]. intros H. split; [reflexivity|].
  rewrite andb_true_r. exact H.
Qed.

Lemma matchEntry_entry name ts :
  wellDated ts ->
  matchEntry (entryOf name (timestampToLocalISO ts)) = Some (timestampToLocalISO ts).
Proof.
  intros (Hy & Hm & Hd & Hh & Hmi & Hs & _).
  apply numToString_year, fourDigits_spec in Hy. destruct Hy as [Hy1 Hy2].
  destruct (twoDigits_spec _ (pad_field (month (localFields ts) + 1) ltac:(lia))) as [Hm1 Hm2].
  destruct (twoDigits_spec _ (pad_field (dayOfMonth (localFields ts)) ltac:(lia))) as [Hd1 Hd2].
  destruct (twoDigits_spec _ (pad_field (hours (localFields ts)) ltac:(lia))) as [Hh1 Hh2].
  destruct (twoDigits_spec _ (pad_field (minutes (localFields ts)) ltac:(lia))) as [Hi1 Hi2].
  destruct (twoDigits_spec _ (pad_field (seconds (localFields ts)) ltac:(lia))) as [Hs1 Hs2].
  unfold entryOf, timestampToLocalISO, matchEntry, isoItems.
  rewrite dropLit_app. rewrite <- !app_assoc.
  erewrite (matchItems_digits 4); [reflexivity|exact Hy1|exact Hy2|].
  apply matchItems_lit.
  apply (matchItems_digits 2); [exact Hm1|exact Hm2|].
  apply matchItems_lit.
  apply (matchItems_digits 2); [exact Hd1|exact Hd2|].
  apply matchItems_lit.
  apply (matchItems_digits 2); [exact Hh1|exact Hh2|].
  apply matchItems_lit.
  apply (matchItems_digits 2); [exact Hi1|exact Hi2|].
  apply matchItems_lit.
  rewrite <- (app_nil_r (pad (seconds (localFields ts)))) at 2.
  apply (matchItems_digits 2); [exact Hs1|exact Hs2|].
  reflexivity.
Qed.

Lemma scanLines_app a : forall b,
  scanLines (a ++ b) = match scanLines a with Some ts => Some ts | None => scanLines b end.
Proof.
  induction a as [|l a IH]; intros b; cbn [app scanLines]; [reflexivity|].
  destruct (matchEntry l) as [iso|]; [|apply IH].
  destruct (localISOToTimestamp iso) as [ts|]; [|apply IH].
  destruct (ts =? 0); [apply IH|reflexivity].
Qed.

Lemma scanLines_entry name ts rest :
  wellDated ts -> ts <> 0 ->
  scanLines (entryOf name (timestampToLocalISO ts) :: rest) = Some ts.
Proof.
  intros Hw Hnz. cbn [scanLines]. rewrite (matchEntry_entry name ts Hw).
  destruct Hw as (_ & _ & _ & _ & _ & _ & Hr). rewrite Hr.
  apply Z.eqb_neq in Hnz. rewrite Hnz. reflexivity.
Qed.

Lemma scanYear_logContent v hf y :
  scanYear v hf y = scanLines (split (logContent v (historyPath hf (numToString y)))).
Proof.
  unfold scanYear, logContent, adapterRead.
  destruct (v !! historyPath hf (numToString y)) as [[c|]|]; reflexivity.
Qed.

Lemma scanYears_found v hf k : forall n year ts,
  (k < n)%nat ->
  (forall j, (j < k)%nat -> scanYear v hf (year - Z.of_nat j) = None) ->
  scanYear v hf (year - Z.of_nat k) = Some ts ->
  scanYears v hf n year = Some ts.
Proof.
  induction k as [|k IH]; intros n year ts Hn Hnone Hk; destruct n as [|n]; try lia;
    cbn [scanYears].
  - replace (year - Z.of_nat 0) with year in Hk by lia. rewrite Hk. reflexivity.
  - specialize (Hnone 0%nat ltac:(lia)) as H0.
    replace (year - Z.of_nat 0) with year in H0 by lia. rewrite H0.
    apply IH; [lia| |].
    + intros j Hj. specialize (Hnone (S j) ltac:(lia)).
      replace (year - 1 - Z.of_nat j) with (year - Z.of_nat (S j)) by lia. exact Hnone.
    + replace (year - 1 - Z.of_nat k) with (year - Z.of_nat (S k)) by lia. exact Hk.
Qed.

(** ** The watermark a completed run leaves behind *)

Lemma writeGroup_read folder v g v' b path :
  writeGroup folder v g = Some (v', b) -> path <> recordPath folder g ->
  adapterRead v' path = adapterRead v path.
Proof.
  unfold writeGroup. intros H Hne.
  destruct (v !! recordPath folder g) as [[c|]|] eqn:E.
  - unfold vaultModify in H. rewrite E in H. apply Some_inj in H.
    apply (f_equal fst) in H. cbn [fst] in H. subst v'.
    rewrite adapterRead_insert. destruct (decide (path = _)); congruence.
  - unfold vaultCreate in H. rewrite E in H. discriminate H.
  - unfold vaultCreate in H. rewrite E in H. apply Some_inj in H.
    apply (f_equal fst) in H. cbn [fst] in H. subst v'.
    rewrite adapterRead_insert. destruct (decide (path = _)); congruence.
Qed.

Lemma writeGroups_read folder path groups : forall v created updated,
  (forall g, In g groups -> recordPath folder g <> path) ->
  adapterRead (runVault (writeGroups folder v groups created updated)) path
  = adapterRead v path.
Proof.
  induction groups as [|g rest IH]; intros v created updated Hne; cbn [writeGroups].
  - reflexivity.
  - destruct (writeGroup folder v g) as [[v1 [|]]|] eqn:E; [| |reflexivity].
    + rewrite IH by (intros g' Hg'; apply Hne; right; exact Hg').
      eapply writeGroup_read; [exact E|]. intros H. apply (Hne g); [left; reflexivity|auto].
    + rewrite IH by (intros g' Hg'; apply Hne; right; exact Hg').
      eapply writeGroup_read; [exact E|]. intros H. apply (Hne g); [left; reflexivity|auto].
Qed.

Lemma sorted_last plays d x :
  sortedByTs plays -> In x plays -> Play.ts x <= Play.ts (last plays d).
Proof.
  unfold sortedByTs. induction 1 as [|p l Hl IH Hp]; intros Hx; [destruct Hx|].
  rewrite Forall_forall in Hp. destruct l as [|q l'].
  - destruct Hx as [->|[]]. cbn. lia.
  - change (last (p :: q :: l') d) with (last (q :: l') d).
    destruct Hx as [->|Hx]; [|apply IH, Hx].
    apply Hp. clear. generalize q. induction l' as [|r l'' IH2]; intros q0.
    + left. reflexivity.
    + change (last (q0 :: r :: l'') d) with (last (r :: l'') d). right. apply IH2.
Qed.

Lemma last_In {A} (l : list A) d : l <> [] -> In (last l d) l.
Proof.
  induction l as [|x l IH]; intros H; [congruence|].
  destruct l as [|y l']; [left; reflexivity|].
  change (last (x :: y :: l') d) with (last (y :: l') d). right. apply IH. discriminate.
Qed.

Lemma playsFrom_iso tracks : forall i p,
  In p (playsFrom i tracks) -> Play.dateIso p = timestampToLocalISO (Play.ts p).
Proof.
  induction tracks as [|t rest IH]; intros i p; cbn [playsFrom]; [intros []|].
  intros [<-|H]; [reflexivity|eapply IH, H].
Qed.

Lemma runPlays_iso trulyNew p :
  In p (runPlays trulyNew) -> Play.dateIso p = timestampToLocalISO (Play.ts p).
Proof.
  unfold runPlays. intros H. apply (proj1 (sortPlays_In _ _)) in H.
  rewrite aggregate_plays in H. eapply playsFrom_iso, H.
Qed.

Lemma runPlays_nonempty trulyNew : trulyNew <> [] -> runPlays trulyNew <> [].
Proof.
  intros H. destruct trulyNew as [|t rest]; [congruence|].
  intros E. assert (Hin : In (playOf 0 t) (runPlays (t :: rest))).
  { unfold runPlays. apply sortPlays_In. rewrite aggregate_plays. left. reflexivity. }
  rewrite E in Hin. destruct Hin.
Qed.

Lemma rev_last {A} (l : list A) d : l <> [] -> exists r, rev l = last l d :: r.
Proof.
  intros H. destruct (exists_last H) as (l' & x & ->).
  rewrite rev_app_distr, last_last. cbn. eauto.
Qed.

Lemma storeWriter_synced settings v trulyNew v' created updated :
  storeWriter settings v trulyNew = (v', Synced created updated) ->
  appendAll settings (recordsWritten settings v trulyNew) (runPlays trulyNew) = Done v' tt.
Proof.
  unfold storeWriter, recordsWritten, runPlays, runGroups.
  destruct (aggregate 0 trulyNew [] []) as [groups plays]. cbn [fst snd].
  destruct (writeGroups _ _ _ _ _) as [v1 [c u]|v1]; cbn [runVault]; [|intros H; discriminate H].
  destruct (appendAll settings v1 (sortPlays plays)) as [v2 []|v2]; intros H.
  - apply (f_equal fst) in H. cbn [fst] in H. subst v2. reflexivity.
  - discriminate H.
Qed.

Lemma filter_none {A} (f : A -> bool) l :
  (forall x, In x l -> f x = false) -> List.filter f l = [].
Proof.
  induction l as [|x l IH]; intros H; cbn [List.filter]; [reflexivity|].
  rewrite (H x) by (left; reflexivity). apply IH. intros z Hz. apply H. right. exact Hz.
Qed.

Lemma last_of_map {A B} (f : A -> B) l d : last (List.map f l) (f d) = f (last l d).
Proof.
  induction l as [|x l IH]; [reflexivity|].
  destruct l as [|y l']; [reflexivity|].
  change (last (List.map f (x :: y :: l')) (f d)) with (last (List.map f (y :: l')) (f d)).
  exact IH.
Qed.

Lemma watermark_after_run settings v trulyNew v' created updated :
  storeWriter settings v trulyNew = (v', Synced created updated) ->
  trulyNew <> [] ->
  (forall t, In t trulyNew ->
             noLF (LastFmTrack.artist t) /\ noLF (LastFmTrack.name t)) ->
  let A := historyFolderOf settings in
  let latest := latestPlay trulyNew in
  let y := fullYear (localFields (Play.ts latest)) in
  wellDated (Play.ts latest) -> 0 < Play.ts latest ->
  currentYear - 20 <= y <= currentYear ->
  (forall y', y < y' <= currentYear -> scanYear v A y' = None) ->
  scanLines (topOf (logContent v (historyPath A (numToString y)))) = None ->
  In latest (runAppended settings v trulyNew) ->
  (forall p y', In p (runPlays trulyNew) -> y < y' <= currentYear ->
                logPathOf settings p <> historyPath A (numToString y')) ->
  (forall g y', In g (runGroups trulyNew) -> y <= y' <= currentYear ->
                recordPath (Settings.folder settings) g <> historyPath A (numToString y')) ->
  resolveWatermark v' A currentYear = Some (Play.ts latest).
Proof.
  intros Hrun Hne Hnames A latest y Hwd Hpos Hwin Hlater Htop Hins Hfiled Hrec.
  apply storeWriter_synced in Hrun.
  set (v1 := recordsWritten settings v trulyNew) in *.
  set (plays := runPlays trulyNew) in *.
  assert (Hsorted : sortedByTs plays) by apply sortPlays_sorted.
  assert (Hlf : Forall (fun x => noLF (entryOfPlay x)) plays).
  { apply Forall_forall. intros x Hx. unfold plays, runPlays in Hx.
    apply (proj1 (sortPlays_In _ _)) in Hx. rewrite aggregate_plays in Hx.
    pose proof (noLF_playsFrom trulyNew 0 Hnames) as H.
    rewrite Forall_forall in H. apply H, Hx. }
  assert (Hv1 : forall y', y <= y' <= currentYear ->
                 logContent v1 (historyPath A (numToString y'))
                 = logContent v (historyPath A (numToString y'))).
  { intros y' Hy'. unfold logContent, v1, recordsWritten.
    rewrite writeGroups_read; [reflexivity|]. intros g Hg. apply Hrec; assumption. }
  assert (Hlatest : In latest plays) by (apply last_In, runPlays_nonempty, Hne).
  assert (Hpath : logPathOf settings latest = historyPath A (numToString y)).
  { unfold logPathOf. fold A. rewrite (runPlays_iso trulyNew latest Hlatest).
    rewrite iso_year by apply Hwd. reflexivity. }
  unfold resolveWatermark.
  apply (scanYears_found v' A (Z.to_nat (currentYear - y))); [lia| |].
  - intros j Hj. set (y' := currentYear - Z.of_nat j).
    assert (Hy' : y < y' <= currentYear) by (unfold y'; lia).
    pose proof (appendAll_log settings plays v1 v' (historyPath A (numToString y'))
                  (logContent v1 (historyPath A (numToString y'))) []
                  (Forall_nil _) Hlf eq_refl Hrun) as Hlog.
    replace (appendedTo settings v1 plays (historyPath A (numToString y'))) with (@nil Play.t)
      in Hlog.
    + cbn [List.map rev app logIs] in Hlog.
      rewrite scanYear_logContent, Hlog, Hv1 by lia.
      rewrite <- scanYear_logContent. apply Hlater, Hy'.
    + symmetry. unfold appendedTo. apply filter_none. intros x Hx.
      apply appendedPlays_In in Hx. apply eqStr_false. apply Hfiled; assumption.
  - replace (currentYear - Z.of_nat (Z.to_nat (currentYear - y))) with y by lia.
    set (path := historyPath A (numToString y)) in *.
    pose proof (appendAll_log settings plays v1 v' path (logContent v1 path) []
                  (Forall_nil _) Hlf eq_refl Hrun) as Hlog.
    rewrite app_nil_r in Hlog.
    set (ins := appendedTo settings v1 plays path) in *.
    assert (Hin : In latest ins).
    { unfold ins, appendedTo. apply filter_In. split; [exact Hins|].
      apply eqStr_true. exact Hpath. }
    assert (Hinsne : ins <> []) by (intros E; rewrite E in Hin; destruct Hin).
    assert (Hinssorted : sortedByTs ins)
      by (apply filter_sorted, appendedPlays_sorted, Hsorted).
    assert (Hsub : forall x, In x ins -> In x plays).
    { intros x Hx. unfold ins, appendedTo in Hx. apply filter_In in Hx.
      destruct Hx as [Hx _]. eapply appendedPlays_In, Hx. }
    set (r := last ins (Play.mk [] [] 0)).
    assert (Hr : In r ins) by (apply last_In, Hinsne).
    assert (Hts : Play.ts r = Play.ts latest).
    { apply Z.le_antisymm.
      - apply (sorted_last plays (Play.mk [] [] 0) r Hsorted (Hsub r Hr)).
      - apply (sorted_last ins (Play.mk [] [] 0) latest Hinssorted Hin). }
    destruct (rev_last (List.map entryOfPlay ins) (entryOfPlay (Play.mk [] [] 0)))
      as [rest Hrev]; [destruct ins; [congruence|discriminate]|].
    rewrite last_of_map in Hrev. fold r in Hrev.
    assert (Hlike : Forall entryLike (rev (List.map entryOfPlay ins))).
    { apply Forall_forall. intros l Hl. apply in_rev, in_map_iff in Hl.
      destruct Hl as (x & <- & Hx). apply entryOfPlay_like.
      rewrite Forall_forall in Hlf. apply Hlf, Hsub, Hx. }
    rewrite Hrev in Hlog, Hlike. cbn [logIs logAfter] in Hlog.
    assert (Hlf' : Forall noLF (entryOfPlay r :: rest))
      by (eapply Forall_impl; [|exact Hlike]; intros l Hl; apply Hl).
    assert (Hh : Forall (fun l => isHeadingLine l = false) (entryOfPlay r :: rest))
      by (eapply Forall_impl; [|exact Hlike]; intros l Hl; apply Hl).
    assert (Hd : isBlank (entryOfPlay r) = false) by (inversion Hlike as [|? ? Hx _]; apply Hx).
    destruct (stacked_log (logContent v1 path) _ _ Hlf' Hd Hh) as (Hlines & _ & _).
    unfold scanYear. fold path.
    unfold adapterRead in Hlog.
    destruct (v' !! path) as [[c|]|]; try discriminate Hlog.
    apply Some_inj in Hlog. subst c. rewrite Hlines, scanLines_app.
    unfold path at 1. rewrite Hv1 by lia. fold path. rewrite Htop.
    cbn [app]. unfold entryOfPlay at 1.
    rewrite (runPlays_iso trulyNew r (Hsub r Hr)), Hts.
    apply scanLines_entry; [exact Hwd|lia].
Qed.

(** ** A run, from its preparation to its writes *)

Lemma syncTracks_prepare settings v :
  syncTracks settings v
  = match prepare settings v with
    | Some (settings', v', historyFolder) => syncFrom settings' v' historyFolder
    | None =>
        match Settings.apiKey settings, Settings.username settings with
        | _ :: _, _ :: _ =>
            Result.mk (createFolder v (normalizePath (Settings.folder settings)))
              settings [] HistoryFolderMissing
        | _, _ => Result.mk v settings [] MissingCredentials
        end
    end.
Proof.
  unfold syncTracks, prepare.
  destruct (Settings.apiKey settings); [reflexivity|].
  destruct (Settings.username settings); [reflexivity|].
  destruct (trim (Settings.historyFolderPath settings)); [reflexivity|].
  destruct (createFolder v _ !! _); reflexivity.
Qed.

Lemma syncFrom_survivors settings v historyFolder :
  Result.vault (syncFrom settings v historyFolder)
  = match survivors v historyFolder with
    | [] => v
    | _ :: _ => fst (storeWriter settings v (survivors v historyFolder))
    end
  /\ Result.outcome (syncFrom settings v historyFolder)
     = match fetched v historyFolder with
       | Fetched [] => NoNewTracks
       | Fetched (_ :: _) =>
           match survivors v historyFolder with
           | [] => AllRecorded
           | _ :: _ => snd (storeWriter settings v (survivors v historyFolder))
           end
       | _ => SyncFailed
       end.
Proof.
  unfold syncFrom, survivors, fetched, lastFetched.
  destruct (fetchTracks _ _) as [[all| |] log]; cbn [fst]; try (split; reflexivity).
  destruct all as [|t all]; [split; reflexivity|].
  destruct (trulyNewTracks _ (t :: all)) as [|t' new]; [split; reflexivity|].
  destruct (storeWriter settings v (t' :: new)). split; reflexivity.
Qed.

Lemma grows_lookup v v' p : grows v v' -> v !! p <> None -> v' !! p <> None.
Proof.
  intros Hg Hp. specialize (Hg p). destruct (v !! p) as [[c|]|]; [| |congruence].
  - destruct Hg as [c' ->]. discriminate.
  - rewrite Hg. discriminate.
Qed.

Lemma createFolder_present v p : v !! p <> None -> createFolder v p = v.
Proof. unfold createFolder. destruct (v !! p); [reflexivity|congruence]. Qed.

Lemma prepare_folder settings v settings' v' hf :
  prepare settings v = Some (settings', v', hf) ->
  v' !! normalizePath (Settings.folder settings) <> None
  /\ v' !! hf <> None
  /\ Settings.apiKey settings' <> [] /\ Settings.username settings' <> []
  /\ Settings.folder settings' = Settings.folder settings
  /\ ((trim (Settings.historyFolderPath settings) <> [] /\ settings' = settings
       /\ hf = normalizePath (Settings.historyFolderPath settings))
      \/ (trim (Settings.historyFolderPath settings) = []
          /\ settings' = withHistoryFolder settings hf
          /\ hf = normalizePath (Settings.folder settings ++ str "/History"))).
Proof.
  unfold prepare.
  destruct (Settings.apiKey settings) as [|k ks] eqn:Ek; [discriminate|].
  destruct (Settings.username settings) as [|u us] eqn:Eu; [discriminate|].
  destruct (trim (Settings.historyFolderPath settings)) as [|c cs] eqn:Et.
  - intros H. apply Some_inj in H.
    assert (H1 := f_equal (fun x => fst (fst x)) H).
    assert (H2 := f_equal (fun x => snd (fst x)) H).
    assert (H3 := f_equal snd H). cbn [fst snd] in H1, H2, H3. subst settings' v' hf.
    repeat split.
    + apply (grows_lookup _ _ _ (grows_createFolder _ _)). apply createFolder_lookup.
    + apply createFolder_lookup.
    + cbn. rewrite Ek. discriminate.
    + cbn. rewrite Eu. discriminate.
    + right. repeat split.
  - destruct (createFolder v _ !! normalizePath (Settings.historyFolderPath settings)) eqn:El;
      [|discriminate].
    intros H. apply Some_inj in H.
    assert (H1 := f_equal (fun x => fst (fst x)) H).
    assert (H2 := f_equal (fun x => snd (fst x)) H).
    assert (H3 := f_equal snd H). cbn [fst snd] in H1, H2, H3. subst settings' v' hf.
    repeat split.
    + apply createFolder_lookup.
    + rewrite El. discriminate.
    + rewrite Ek. discriminate.
    + rewrite Eu. discriminate.
    + left. repeat split. discriminate.
Qed.

(** A run that starts from what an earlier run left: it ends in the
    preparation without touching the vault, or resumes from the folder
    the earlier run appended to. *)
Lemma next_run settings v settings1 v1 hf v2 :
  prepare settings v = Some (settings1, v1, hf) -> grows v1 v2 ->
  syncTracks settings1 v2 = Result.mk v2 settings1 [] HistoryFolderMissing
  \/ syncTracks settings1 v2 = syncFrom settings1 v2 (historyFolderOf settings1).
Proof.
  intros Hp Hg.
  destruct (prepare_folder _ _ _ _ _ Hp) as (Hnf & Hhf & Hk & Hu & Hf & Hcase).
  assert (Hnf2 : createFolder v2 (normalizePath (Settings.folder settings1)) = v2).
  { rewrite Hf. apply createFolder_present. eapply grows_lookup; eassumption. }
  unfold syncTracks, historyFolderOf.
  destruct (Settings.apiKey settings1); [congruence|].
  destruct (Settings.username settings1); [congruence|].
  rewrite Hnf2.
  destruct (trim (Settings.historyFolderPath settings1)) as [|c cs] eqn:Et.
  - right. destruct Hcase as [(Hb & -> & _)|(Hb & Hs & Hh)]; [congruence|].
    assert (Hd : normalizePath (Settings.folder settings1 ++ str "/History") = hf)
      by (rewrite Hf; symmetry; exact Hh).
    rewrite Hd. rewrite (createFolder_present v2 hf) by (eapply grows_lookup; eassumption).
    replace (withHistoryFolder settings1 hf) with settings1; [reflexivity|].
    rewrite Hs. reflexivity.
  - destruct (v2 !! normalizePath (Settings.historyFolderPath settings1));
      [right; reflexivity|left; reflexivity].
Qed.

Lemma syncFrom_idle settings v hf W :
  resolveWatermark v hf currentYear = Some W ->
  (forall all, fst (fetchTracks true (W + 1)) = Fetched all -> trulyNewTracks W all = []) ->
  Result.vault (syncFrom settings v hf) = v
  /\ Result.outcome (syncFrom settings v hf) <> Crashed
  /\ (forall c u, Result.outcome (syncFrom settings v hf) <> Synced c u).
Proof.
  intros Hw Hall. unfold syncFrom. rewrite Hw.
  destruct (fetchTracks true (W + 1)) as [[all| |] log] eqn:E;
    try (repeat split; intros; discriminate).
  destruct all as [|t all]; [repeat split; intros; discriminate|].
  rewrite (Hall (t :: all)) by reflexivity. repeat split; intros; discriminate.
Qed.

Lemma playsFrom_of_track tracks : forall i0 t,
  In t tracks -> exists i, In (playOf i t) (playsFrom i0 tracks).
Proof.
  induction tracks as [|x rest IH]; intros i0 t; [intros []|].
  intros [->|H]; cbn [playsFrom].
  - exists i0. left. reflexivity.
  - destruct (IH (S i0) t H) as [i Hi]. exists i. right. exact Hi.
Qed.

Lemma playsFrom_ts tracks : forall i0 p,
  In p (playsFrom i0 tracks) -> exists i t, In t tracks /\ p = playOf i t.
Proof.
  induction tracks as [|x rest IH]; intros i0 p; cbn [playsFrom]; [intros []|].
  intros [<-|H].
  - exists i0, x. split; [left|]; reflexivity.
  - destruct (IH _ _ H) as (i & t & Ht & ->). exists i, t. split; [right; exact Ht|reflexivity].
Qed.

(** Nothing that an earlier run fetched passes the filter once the
    watermark is the timestamp of the latest play of that run. *)
Lemma refetched_events_are_filtered W all :
  trulyNewTracks W all <> [] ->
  let latest := latestPlay (trulyNewTracks W all) in
  0 < Play.ts latest ->
  forall all', incl all' all -> trulyNewTracks (Play.ts latest) all' = [].
Proof.
  intros Hne latest Hpos all' Hincl.
  set (news := trulyNewTracks W all) in *.
  assert (Hmax : forall p, In p (runPlays news) -> Play.ts p <= Play.ts latest).
  { intros p Hp. apply sorted_last; [apply sortPlays_sorted|exact Hp]. }
  assert (Hplay : forall t, In t news -> exists i, In (playOf i t) (runPlays news)).
  { intros t Ht. destruct (playsFrom_of_track news 0 t Ht) as [i Hi].
    exists i. unfold runPlays. apply sortPlays_In. rewrite aggregate_plays. exact Hi. }
  assert (HW : W < Play.ts latest).
  { destruct news as [|t rest] eqn:E; [congruence|].
    assert (Ht : In t (trulyNewTracks W all)) by (fold news; rewrite E; left; reflexivity).
    apply trulyNewTracks_In in Ht. destruct Ht as [_ Ht].
    destruct (Hplay t ltac:(left; reflexivity)) as [i Hi]. specialize (Hmax _ Hi).
    cbn [playOf Play.ts] in Hmax. unfold eventTs in Hmax. unfold filterTs in Ht.
    destruct (LastFmTrack.date t); lia. }
  unfold trulyNewTracks. apply filter_none. intros e He.
  rewrite Z.gtb_ltb. apply Z.ltb_ge.
  destruct (Z.gtb_spec (filterTs e) W) as [Hgt|Hle].
  - assert (Hin : In e news).
    { apply trulyNewTracks_In. split; [apply Hincl, He|lia]. }
    destruct (Hplay e Hin) as [i Hi]. specialize (Hmax _ Hi).
    cbn [playOf Play.ts] in Hmax. unfold eventTs in Hmax. unfold filterTs.
    destruct (LastFmTrack.date e); lia.
  - lia.
Qed.

(** ** What [updateTrackContent] does to a record *)

Lemma startsWith_in_line lit l rest k :
  noLF lit -> lit <> [] -> includes l lit = false ->
  startsWith lit (skipn k (l ++ [LF]) ++ rest) = true -> (length l < k)%nat.
Proof.
  intros Hlf Hne Hinc H.
  destruct (Nat.lt_ge_cases (length l) k) as [Hlt|Hge]; [exact Hlt|exfalso].
  assert (Hs : skipn k (l ++ [LF]) = skipn k l ++ [LF]).
  { rewrite List.skipn_app. replace (k - length l)%nat with 0%nat by lia. reflexivity. }
  rewrite Hs, <- app_assoc in H. cbn [app] in H.
  apply startsWith_app_LF in H; [|exact Hlf].
  apply startsWith_spec in H. destruct H as [r Hr].
  assert (Hin : includes l lit = true).
  { apply includes_spec. exists (firstn k l), r.
    rewrite <- Hr. symmetry. apply firstn_skipn. }
  congruence.
Qed.

Lemma replaceFirst_skip m by_ pre : forall s,
  (forall k, (k < length pre)%nat -> m (skipn k pre ++ s) = None) ->
  replaceFirst m by_ (pre ++ s) = pre ++ replaceFirst m by_ s.
Proof.
  induction pre as [|c pre IH]; intros s H; [reflexivity|].
  assert (H0 : m ((c :: pre) ++ s) = None) by (apply (H 0%nat); cbn; lia).
  cbn [app replaceFirst] in *. rewrite H0. f_equal. apply IH.
  intros k Hk. apply (H (S k)). cbn. lia.
Qed.

Lemma findFirst_skip {A} (m : jsstring -> option A) pre : forall s,
  (forall k, (k < length pre)%nat -> m (skipn k pre ++ s) = None) ->
  findFirst m (pre ++ s) = findFirst m s.
Proof.
  induction pre as [|c pre IH]; intros s H; [reflexivity|].
  assert (H0 : m ((c :: pre) ++ s) = None) by (apply (H 0%nat); cbn; lia).
  cbn [app findFirst] in *. rewrite H0. apply IH.
  intros k Hk. apply (H (S k)). cbn. lia.
Qed.

(** No occurrence of a key starts in lines that do not include it. *)
Lemma key_not_in_lines lit ls : forall rest k,
  noLF lit -> lit <> [] ->
  Forall (fun l => includes l lit = false) ls ->
  (k < length (unlines ls))%nat ->
  startsWith lit (skipn k (unlines ls) ++ rest) = false.
Proof.
  induction ls as [|l ls IH]; intros rest k Hlf Hne Hall Hk; [cbn in Hk; lia|].
  inversion Hall as [|? ? Hl Hls]; subst.
  unfold unlines in *. cbn [List.map concat] in *.
  rewrite length_app in Hk.
  destruct (Nat.lt_ge_cases k (length (l ++ [LF]))) as [Hin|Hout].
  - rewrite List.skipn_app. replace (k - length (l ++ [LF]))%nat with 0%nat by lia.
    rewrite skipn_O, <- app_assoc.
    destruct (startsWith lit _) eqn:E; [|reflexivity].
    apply startsWith_in_line in E; try assumption.
    rewrite length_app in Hin. cbn in Hin. lia.
  - rewrite List.skipn_app, skipn_all2 by lia. cbn [app].
    apply IH; try assumption. lia.
Qed.

Lemma matchPlayCount_key s : startsWith COUNT_KEY s = false -> matchPlayCount s = None.
Proof. intros H. unfold matchPlayCount, dropLit. fold COUNT_KEY. rewrite H. reflexivity. Qed.

Lemma matchLastListened_key s : startsWith LAST_KEY s = false -> matchLastListened s = None.
Proof. intros H. unfold matchLastListened, dropLit. fold LAST_KEY. rewrite H. reflexivity. Qed.

Lemma spanWhile_all p ds : forall c rest,
  forallb p ds = true -> p c = false -> spanWhile p (ds ++ c :: rest) = (ds, c :: rest).
Proof.
  induction ds as [|d ds IH]; intros c rest Hds Hc; cbn [app spanWhile].
  - rewrite Hc. reflexivity.
  - cbn [forallb] in Hds. apply andb_prop in Hds. destruct Hds as [Hd Hds].
    rewrite Hd, (IH c rest Hds Hc). reflexivity.
Qed.

Lemma matchPlayCount_line digits rest :
  digits <> [] -> forallb isDigit digits = true ->
  matchPlayCount (countLine digits ++ LF :: rest) = Some (digits, LF :: rest).
Proof.
  intros Hne Hd. unfold matchPlayCount, countLine. fold COUNT_KEY.
  rewrite <- !app_assoc, dropLit_app. cbn [app spanWhile snd].
  change (isWhiteSpace 32) with true. cbn iota.
  change (isWhiteSpace 34) with false. cbn iota. cbn [snd dropQuote].
  change (34 =? 34)%N with true. cbn iota.
  rewrite spanWhile_all by (exact Hd || reflexivity).
  destruct digits; [congruence|]. cbn [dropQuote]. reflexivity.
Qed.

Lemma matchLastListened_line last tail :
  plainValue last = true ->
  matchLastListened (lastLine last ++ LF :: tail) = Some (LF :: tail).
Proof.
  intros Hv. unfold matchLastListened, lastLine. fold LAST_KEY.
  rewrite <- !app_assoc, dropLit_app. cbn [app spanWhile].
  change (isWhiteSpace 32) with true. cbn iota.
  destruct last as [|c last]; [discriminate Hv|].
  cbn [plainValue] in Hv. apply andb_prop in Hv. destruct Hv as [Hc Hall].
  apply negb_true_iff in Hc. cbn [app spanWhile]. rewrite Hc. cbn iota.
  change (c :: last ++ LF :: tail) with ((c :: last) ++ LF :: tail).
  rewrite (spanWhile_all (fun x => negb (isLineTerminator x)) (c :: last) LF tail Hall eq_refl).
  reflexivity.
Qed.

Lemma findFirst_here {A} (m : jsstring -> option A) s a : m s = Some a -> findFirst m s = Some a.
Proof. intros H. destruct s; cbn [findFirst]; rewrite H; reflexivity. Qed.

Lemma replaceFirst_here m by_ s rest : m s = Some rest -> replaceFirst m by_ s = by_ ++ rest.
Proof. intros H. destruct s; cbn [replaceFirst]; rewrite H; reflexivity. Qed.

Lemma unlines_app a b : unlines (a ++ b) = unlines a ++ unlines b.
Proof. unfold unlines. rewrite map_app, concat_app. reflexivity. Qed.

Lemma unlines_one l : unlines [l] = l ++ [LF].
Proof. unfold unlines. cbn. apply app_nil_r. Qed.

Lemma includes_chars s p c : includes s p = true -> In c p -> In c s.
Proof.
  intros H Hc. apply includes_spec in H. destruct H as (a & b & ->).
  apply in_or_app. right. apply in_or_app. left. exact Hc.
Qed.

Lemma not_In_lit c (l : jsstring) : forallb (fun x => negb (x =? c)%N) l = true -> ~ In c l.
Proof.
  intros H Hin. rewrite forallb_forall in H. specialize (H _ Hin).
  rewrite N.eqb_refl in H. discriminate H.
Qed.

Lemma countLine_no_last_key digits :
  forallb isDigit digits = true -> includes (countLine digits) LAST_KEY = false.
Proof.
  intros Hd. destruct (includes (countLine digits) LAST_KEY) eqn:E; [exfalso|reflexivity].
  assert (Hin : In 115%N (countLine digits)).
  { apply (includes_chars _ _ _ E). unfold LAST_KEY. cbn. tauto. }
  unfold countLine in Hin. apply in_app_or in Hin. destruct Hin as [Hin|Hin].
  - revert Hin. apply not_In_lit. reflexivity.
  - apply in_app_or in Hin. destruct Hin as [Hin|Hin].
    + revert Hin. apply not_In_lit. reflexivity.
    + apply in_app_or in Hin. destruct Hin as [Hin|Hin].
      * rewrite forallb_forall in Hd. specialize (Hd _ Hin). discriminate Hd.
      * revert Hin. apply not_In_lit. reflexivity.
Qed.

Lemma uintCodes_digits d : forallb isDigit (uintCodes d) = true.
Proof. induction d; cbn [uintCodes forallb]; auto. Qed.

Lemma numToString_digits z :
  0 <= z -> numToString z <> [] /\ forallb isDigit (numToString z) = true.
Proof.
  intros Hz. destruct z as [|p|p]; [split; [discriminate|reflexivity]| |lia].
  cbn [numToString Z.to_N N.to_uint]. split; [|apply uintCodes_digits].
  pose proof (DecimalPos.Unsigned.to_uint_nonnil p) as Hn.
  destruct (Pos.to_uint p); [congruence|..]; discriminate.
Qed.

Lemma digitsToNum_nonneg ds : forallb isDigit ds = true -> 0 <= digitsToNum ds.
Proof.
  unfold digitsToNum. intros H.
  assert (G : forall acc, 0 <= acc ->
             0 <= fold_left (fun a c => 10 * a + (Z.of_N c - 48)) ds acc).
  { induction ds as [|d ds IH]; intros acc Hacc; cbn [fold_left]; [exact Hacc|].
    cbn [forallb] in H. apply andb_prop in H. destruct H as [Hd Hds].
    apply IH; [exact Hds|]. unfold isDigit in Hd. apply andb_prop in Hd.
    destruct Hd as [H1 _]. apply N.leb_le in H1. lia. }
  apply G. lia.
Qed.

(** The update of a well-formed record: the count becomes the stored
    count plus the new plays, the last-listened value becomes the new one,
    and the rest of the text stays as it is. *)
Lemma updateTrackContent_record head digits middle last tail newPlays iso :
  wellFormedRecord head digits middle ->
  plainValue last = true -> plainValue iso = true -> 0 <= newPlays ->
  updateTrackContent (recordText head digits middle last tail) newPlays iso
  = recordText head (numToString (digitsToNum digits + newPlays)) middle iso tail
  /\ wellFormedRecord head (numToString (digitsToNum digits + newPlays)) middle.
Proof.
  intros (Hhead & Hlines & Hne & Hd) Hlast Hiso Hn.
  set (count := digitsToNum digits + newPlays).
  assert (Hc : 0 <= count) by (pose proof (digitsToNum_nonneg digits Hd); unfold count; lia).
  destruct (numToString_digits count Hc) as [Hne' Hd'].
  split; [|repeat split; assumption].
  unfold updateTrackContent, recordText.
  set (rest := unlines middle ++ lastLine last ++ LF :: tail).
  assert (Hkey : noLF COUNT_KEY /\ COUNT_KEY <> [] /\ noLF LAST_KEY /\ LAST_KEY <> []).
  { repeat split; try discriminate; apply noLF_str_lit; reflexivity. }
  destruct Hkey as (Hk1 & Hk2 & Hk3 & Hk4).
  rewrite findFirst_skip.
  2:{ intros k Hk. apply matchPlayCount_key, key_not_in_lines; assumption. }
  rewrite (findFirst_here _ _ _ (matchPlayCount_line digits rest Hne Hd)).
  fold count.
  rewrite (replaceFirst_skip (fun s => option_map snd (matchPlayCount s))).
  2:{ intros k Hk. rewrite matchPlayCount_key; [reflexivity|].
      apply key_not_in_lines; assumption. }
  rewrite (replaceFirst_here (fun s => option_map snd (matchPlayCount s)) _ _ (LF :: rest)).
  2:{ cbv beta. rewrite (matchPlayCount_line digits rest Hne Hd). reflexivity. }
  change (str "play_count: " ++ [34%N] ++ numToString count ++ [34%N])
    with (countLine (numToString count)).
  unfold rest.
  replace (unlines head ++ countLine (numToString count)
             ++ LF :: unlines middle ++ lastLine last ++ LF :: tail)
    with (unlines (head ++ [countLine (numToString count)] ++ middle)
            ++ lastLine last ++ LF :: tail).
  2:{ rewrite !unlines_app, unlines_one, <- !app_assoc. reflexivity. }
  rewrite replaceFirst_skip.
  2:{ intros k Hk. apply matchLastListened_key, key_not_in_lines; try assumption.
      apply Forall_app in Hlines. destruct Hlines as [Hl1 Hl2].
      apply Forall_app. split; [exact Hl1|].
      apply Forall_app. split; [|exact Hl2].
      constructor; [apply countLine_no_last_key, Hd'|constructor]. }
  rewrite (replaceFirst_here _ _ _ (LF :: tail) (matchLastListened_line last tail Hlast)).
  rewrite !unlines_app, unlines_one, <- !app_assoc. reflexivity.
Qed.

(** ** Timestamps as record values *)

Lemma isoChar_plain c :
  isoChar c = true -> isWhiteSpace c = false /\ isLineTerminator c = false.
Proof.
  intros H.
  assert (Hlt : (c < 128)%N).
  { unfold isoChar, isDigit in H.
    repeat (apply orb_prop in H; destruct H as [H|H]).
    - apply andb_prop in H. destruct H as [_ H]. apply N.leb_le in H. lia.
    - apply N.eqb_eq in H. lia.
    - apply N.eqb_eq in H. lia.
    - apply N.eqb_eq in H. lia. }
  assert (B : forallb (fun k => implb (isoChar (N.of_nat k))
                                  (negb (isWhiteSpace (N.of_nat k))
                                   && negb (isLineTerminator (N.of_nat k))))
                (seq 0 128) = true) by (vm_compute; reflexivity).
  rewrite forallb_forall in B. specialize (B (N.to_nat c)).
  rewrite N2Nat.id, H in B. cbn [implb] in B.
  assert (Hin : In (N.to_nat c) (seq 0 128)) by (apply in_seq; lia).
  specialize (B Hin). apply andb_prop in B. destruct B as [B1 B2].
  apply negb_true_iff in B1, B2. split; assumption.
Qed.






(** ** The groups of a run whose events are later than the watermark *)





(** ** A record through the writes of a run *)







(** ** The claims that hold for every host *)

(** C5. Watermark boundary: a fetched event that carries a timestamp
    survives the filter of the aggregator if and only if that timestamp
    is strictly greater than the watermark [W]; an event stamped exactly
    [W] is dropped and one stamped [W + 1] is kept. *)
Theorem C5_watermark_boundary :
  forall (W uts : Z) (name artist : jsstring) (album : option jsstring)
         (image : list Image.t) (all : list LastFmTrack.t),
    let t := LastFmTrack.mk name artist album (Some uts) image in
    (In t (trulyNewTracks W all) <-> In t all /\ uts > W)
    /\ (uts = W -> ~ In t (trulyNewTracks W all))
    /\ (uts = W + 1 -> In t all -> In t (trulyNewTracks W all)).
Proof.
  intros W uts name artist album image all t.
  assert (Hiff : In t (trulyNewTracks W all) <-> In t all /\ uts > W)
    by (rewrite trulyNewTracks_In; reflexivity).
  split; [exact Hiff|]. split.
  - intros -> H. apply Hiff in H. lia.
  - intros -> H. apply Hiff. split; [exact H|lia].
Qed.


(** C8, as amended. The file identifier is a function of the normalized
    identity (stable), and events are merged into one TrackGroup exactly
    when their [artist|name] keys are equal: the group stored under a
    key counts the surviving events with that key and no others, and it
    carries the identity and the file identifier of that key. Nothing
    makes the identifier or the key injective. *)
Theorem C8_grouping_by_key :
  (forall i j t1 t2,
      artistOf t1 = artistOf t2 -> nameOf t1 = nameOf t2 ->
      Play.fileName (playOf i t1) = Play.fileName (playOf j t2))
  /\ (forall tracks k g,
        mapGet k (fst (aggregate 0 tracks [] [])) = Some g ->
        TrackGroup.count g = countKey k tracks /\ groupKeyed k g)
  /\ (forall tracks k,
        0 < countKey k tracks ->
        mapGet k (fst (aggregate 0 tracks [] [])) <> None).
Proof.
  split; [|split].
  - intros i j t1 t2 Ha Hn. cbn. rewrite Ha, Hn. reflexivity.
  - intros tracks k g Hg. split.
    + pose proof (aggregate_groupCount k tracks 0 [] []) as H.
      unfold groupCount in H. rewrite Hg in H. cbn in H. exact H.
    + eapply aggregate_groupKeyed; [|exact Hg]. intros k' g'. cbn. discriminate.
  - intros tracks k Hpos Hnone.
    pose proof (aggregate_groupCount k tracks 0 [] []) as H.
    unfold groupCount in H. rewrite Hnone in H. cbn in H. lia.
Qed.


(** C10, as amended. With credentials set: when the history-folder
    setting is not blank and, once the notes folder has been created if
    it was missing, nothing is at the normalized history path, the run
    ends at once, with no request sent and every file as it was; when
    the setting is blank, the run creates the History subfolder of the
    notes folder unless something is already at that path, stores the
    derived path in the settings, and goes on from there. *)
Theorem C10_history_folder_setup :
  forall settings vault,
    Settings.apiKey settings <> [] -> Settings.username settings <> [] ->
    let prepared := createFolder vault (normalizePath (Settings.folder settings)) in
    let derived := normalizePath (Settings.folder settings ++ str "/History") in
    (trim (Settings.historyFolderPath settings) <> [] ->
     prepared !! normalizePath (Settings.historyFolderPath settings) = None ->
     syncTracks settings vault = Result.mk prepared settings [] HistoryFolderMissing
     /\ forall p, adapterRead prepared p = adapterRead vault p)
    /\ (trim (Settings.historyFolderPath settings) = [] ->
        syncTracks settings vault
        = syncFrom (withHistoryFolder settings derived) (createFolder prepared derived) derived
        /\ Settings.historyFolderPath (Result.settings (syncTracks settings vault)) = derived
        /\ (prepared !! derived = None ->
            Result.vault (syncTracks settings vault) !! derived = Some TFolder)).
Proof.
  intros settings vault Hk Hu prepared derived.
  assert (Hrun : syncTracks settings vault
                 = match trim (Settings.historyFolderPath settings) with
                   | _ :: _ =>
                       match prepared !! normalizePath (Settings.historyFolderPath settings) with
                       | None => Result.mk prepared settings [] HistoryFolderMissing
                       | Some _ =>
                           syncFrom settings prepared
                             (normalizePath (Settings.historyFolderPath settings))
                       end
                   | [] => syncFrom (withHistoryFolder settings derived)
                             (createFolder prepared derived) derived
                   end).
  { unfold syncTracks.
    destruct (Settings.apiKey settings); [congruence|].
    destruct (Settings.username settings); [congruence|]. reflexivity. }
  split.
  - intros Hb Hnone. rewrite Hrun.
    destruct (trim (Settings.historyFolderPath settings)); [congruence|].
    rewrite Hnone. split; [reflexivity|].
    intros p. apply createFolder_adapterRead.
  - intros Hb. rewrite Hrun, Hb. split; [reflexivity|]. split.
    + rewrite syncFrom_settings. reflexivity.
    + intros Hnone.
      pose proof (grows_syncFrom (withHistoryFolder settings derived)
                    (createFolder prepared derived) derived derived) as Hg.
      rewrite (createFolder_fresh _ _ Hnone) in Hg. exact Hg.
Qed.


Lemma prepare_read settings v settings1 v1 hf path :
  prepare settings v = Some (settings1, v1, hf) -> adapterRead v1 path = adapterRead v path.
Proof.
  unfold prepare.
  destruct (Settings.apiKey settings); [discriminate|].
  destruct (Settings.username settings); [discriminate|].
  destruct (trim (Settings.historyFolderPath settings)).
  - intros H. apply Some_inj in H. apply (f_equal (fun x => snd (fst x))) in H.
    cbn [fst snd] in H. subst v1. rewrite !createFolder_adapterRead. reflexivity.
  - destruct (createFolder v _ !! _); [|discriminate].
    intros H. apply Some_inj in H. apply (f_equal (fun x => snd (fst x))) in H.
    cbn [fst snd] in H. subst v1. apply createFolder_adapterRead.
Qed.


(** ** Further properties of the engine *)

(** *** The pure helpers *)

Lemma trimStart_fixed c r : isWhiteSpace c = false -> trimStart (c :: r) = c :: r.
Proof. intros H. cbn. rewrite H. reflexivity. Qed.

Lemma trimStart_head s c r : trimStart s = c :: r -> isWhiteSpace c = false.
Proof.
  induction s as [|x s IH]; cbn; [discriminate|].
  destruct (isWhiteSpace x) eqn:E; [exact IH|].
  intros H. apply (f_equal (hd 0%N)) in H. cbn in H. subst x. exact E.
Qed.

Lemma trimStart_idem s : trimStart (trimStart s) = trimStart s.
Proof.
  destruct (trimStart s) as [|c r] eqn:E; [reflexivity|].
  apply trimStart_fixed. eapply trimStart_head, E.
Qed.

Lemma trimStart_suffix s : exists ws, s = ws ++ trimStart s.
Proof.
  induction s as [|x s [ws IH]]; [exists []; reflexivity|]. cbn.
  destruct (isWhiteSpace x); [|exists []; reflexivity].
  exists (x :: ws). cbn. rewrite <- IH. reflexivity.
Qed.

Lemma trimEnd_prefix s : exists ws, s = trimEnd s ++ ws.
Proof.
  unfold trimEnd. destruct (trimStart_suffix (rev s)) as [ws H].
  exists (rev ws). rewrite <- rev_app_distr, <- H, rev_involutive. reflexivity.
Qed.

Lemma trim_idem s : trim (trim s) = trim s.
Proof.
  unfold trim at 2 3.
  set (u := trimStart s).
  assert (Hstart : trimStart (trimEnd u) = trimEnd u).
  { destruct (trimEnd_prefix u) as [ws Hu].
    destruct (trimEnd u) as [|c r] eqn:E; [reflexivity|].
    apply trimStart_fixed. apply (trimStart_head s c (r ++ ws)).
    fold u. rewrite Hu. reflexivity. }
  unfold trim. rewrite Hstart. unfold trimEnd.
  rewrite rev_involutive, trimStart_idem. reflexivity.
Qed.

Lemma map_id_on {A} (f : A -> A) l : (forall x, In x l -> f x = x) -> List.map f l = l.
Proof.
  induction l as [|x l IH]; intros H; cbn; [reflexivity|].
  rewrite (H x (or_introl eq_refl)), IH; [reflexivity|].
  intros y Hy. apply H. right. exact Hy.
Qed.

Lemma sanitize_legal s c : In c (sanitizeFileName s) -> isIllegal c = false.
Proof.
  unfold sanitizeFileName. intros H. apply trim_In in H. apply in_map_iff in H.
  destruct H as (x & Hx & _). destruct (isIllegal x) eqn:E; subst c; [reflexivity|exact E].
Qed.

(** X1. [sanitizeFileName] yields a usable file-name part: none of the
    nine characters it replaces is left, there is no white space at
    either end, and sanitizing again changes nothing. *)
Theorem X1_sanitizeFileName_safe :
  forall s,
    (forall c, In c (sanitizeFileName s) -> isIllegal c = false)
    /\ trim (sanitizeFileName s) = sanitizeFileName s
    /\ sanitizeFileName (sanitizeFileName s) = sanitizeFileName s.
Proof.
  intros s. split; [apply sanitize_legal|]. split.
  - unfold sanitizeFileName. apply trim_idem.
  - unfold sanitizeFileName at 1.
    rewrite map_id_on.
    + unfold sanitizeFileName. apply trim_idem.
    + intros c Hc. rewrite (sanitize_legal s c Hc). reflexivity.
Qed.

Lemma startsWith_app_sep c p : forall a b,
  ~ In c p -> startsWith p (a ++ c :: b) = startsWith p a.
Proof.
  induction p as [|y p IH]; intros a b Hc; [destruct a; reflexivity|].
  destruct a as [|x a]; cbn.
  - replace (y =? c)%N with false; [reflexivity|].
    symmetry. apply N.eqb_neq. intros ->. apply Hc. left. reflexivity.
  - rewrite IH; [reflexivity|]. intros H. apply Hc. right. exact H.
Qed.

Lemma includes_app_sep c p a b :
  ~ In c p -> p <> [] -> includes (a ++ c :: b) p = includes a p || includes (c :: b) p.
Proof.
  intros Hc Hp. induction a as [|x a IH].
  - cbn [app includes]. destruct p; [congruence|]. reflexivity.
  - change ((x :: a) ++ c :: b) with (x :: (a ++ c :: b)). cbn [includes].
    rewrite IH. change (x :: a ++ c :: b) with ((x :: a) ++ c :: b).
    rewrite (startsWith_app_sep c p (x :: a) b Hc).
    rewrite orb_assoc. reflexivity.
Qed.

Lemma includes_skip_prefix h p l s :
  forallb (fun c => negb (c =? h)%N) l = true ->
  includes (l ++ s) (h :: p) = includes s (h :: p).
Proof.
  induction l as [|x l IH]; intros H; [reflexivity|].
  cbn in H. apply andb_prop in H. destruct H as [Hx Hl].
  change ((x :: l) ++ s) with (x :: (l ++ s)). cbn [includes startsWith].
  rewrite N.eqb_sym. apply negb_true_iff in Hx. rewrite Hx. cbn [andb orb].
  apply IH, Hl.
Qed.

(** What the output of the replacement starts with. *)
Lemma replaceAllFrom_head fuel : forall s,
  (length s <= fuel)%nat ->
  match replaceAllFrom fuel PERCENT20 (str "+") s with
  | [] => s = []
  | h :: _ => (h = 43%N /\ startsWith PERCENT20 s = true)
              \/ (startsWith PERCENT20 s = false /\ exists r, s = h :: r)
  end.
Proof.
  destruct fuel as [|fuel]; intros s Hlen.
  - destruct s; [reflexivity|cbn in Hlen; lia].
  - destruct s as [|c r]; [reflexivity|]. cbn [replaceAllFrom].
    destruct (startsWith PERCENT20 (c :: r)) eqn:E.
    + left. split; reflexivity.
    + right. split; [reflexivity|]. exists r. reflexivity.
Qed.

Lemma replaceAllFrom_clean fuel : forall s,
  (length s <= fuel)%nat ->
  includes (replaceAllFrom fuel PERCENT20 (str "+") s) PERCENT20 = false.
Proof.
  induction fuel as [|fuel IH]; intros s Hlen.
  - destruct s; [reflexivity|cbn in Hlen; lia].
  - destruct s as [|c r]; [reflexivity|]. cbn [replaceAllFrom].
    destruct (startsWith PERCENT20 (c :: r)) eqn:E.
    + apply startsWith_spec in E. destruct E as [rest E].
      assert (Hrest : skipn (length PERCENT20) (c :: r) = rest).
      { rewrite E. apply (drop_app_length PERCENT20 rest). }
      rewrite Hrest.
      change (str "+" ++ ?x) with (43%N :: x). cbn [includes].
      rewrite IH.
      * reflexivity.
      * apply (f_equal (@length N)) in E. rewrite length_app in E.
        change (length PERCENT20) with 3%nat in E. cbn [length] in E, Hlen. lia.
    + cbn [includes]. rewrite (IH r) by (cbn [length] in Hlen; lia).
      rewrite orb_false_r.
      destruct (startsWith PERCENT20 (c :: replaceAllFrom fuel PERCENT20 (str "+") r)) eqn:F;
        [|reflexivity].
      exfalso.
      assert (P3 : forall x X, startsWith PERCENT20 (x :: X)
                               = (37 =? x)%N && startsWith [50%N; 48%N] X) by reflexivity.
      rewrite P3 in E, F.
      apply andb_prop in F. destruct F as [Fc F]. rewrite Fc in E. cbn [andb] in E.
      assert (Hr : (length r <= fuel)%nat) by (cbn [length] in Hlen; lia).
      pose proof (replaceAllFrom_head fuel r Hr) as H1.
      destruct (replaceAllFrom fuel PERCENT20 (str "+") r) as [|h1 x1] eqn:E1;
        [discriminate F|].
      cbn [startsWith] in F. apply andb_prop in F. destruct F as [F1 F].
      apply N.eqb_eq in F1. subst h1.
      destruct H1 as [[H1 _]|[N1 [r1 ->]]]; [discriminate H1|].
      destruct fuel as [|fuel]; [cbn [length] in Hr; lia|].
      cbn [replaceAllFrom] in E1. rewrite N1 in E1.
      apply (f_equal (@tl N)) in E1. cbn [tl] in E1. subst x1.
      assert (Hr1 : (length r1 <= fuel)%nat) by (cbn [length] in Hr; lia).
      pose proof (replaceAllFrom_head fuel r1 Hr1) as H2.
      destruct (replaceAllFrom fuel PERCENT20 (str "+") r1) as [|h2 x2] eqn:E2;
        [discriminate F|].
      apply andb_prop in F. destruct F as [F2 _]. apply N.eqb_eq in F2. subst h2.
      destruct H2 as [[H2 _]|[_ [r2 ->]]]; [discriminate H2|].
      cbn in E. discriminate E.
Qed.

(** X2. The URL [buildLastFmUrl] builds never holds an encoded space:
    whatever [encodeURIComponent] returned for the artist and the
    track, no [%20] is left in the result. *)
Theorem X2_buildLastFmUrl_no_encoded_space :
  forall artist track, includes (buildLastFmUrl artist track) PERCENT20 = false.
Proof.
  intros artist track. unfold buildLastFmUrl.
  set (a := replaceAll _ _ (encodeURIComponent artist)).
  set (t := replaceAll _ _ (encodeURIComponent track)).
  assert (Ha : includes a PERCENT20 = false) by (apply replaceAllFrom_clean; lia).
  assert (Ht : includes t PERCENT20 = false) by (apply replaceAllFrom_clean; lia).
  change PERCENT20 with (37%N :: [50%N; 48%N]) in *.
  rewrite includes_skip_prefix by (vm_compute; reflexivity).
  change (str "/_/" ++ t) with (47%N :: ([95%N; 47%N] ++ t)).
  rewrite includes_app_sep; [|cbn; intros [H|[H|[H|[]]]]; discriminate|discriminate].
  rewrite Ha. cbn [orb].
  change (47%N :: [95%N; 47%N] ++ t) with ([47%N; 95%N; 47%N] ++ t).
  rewrite includes_skip_prefix by (vm_compute; reflexivity).
  exact Ht.
Qed.

(** X3. [extractBestCover] takes the best size on offer: for a non-empty
    list the result is the trimmed address of one of the images, and no
    image of the list ranks above it (extralarge, then large, then any
    other size); for an empty list it is the empty string. *)
Theorem X3_extractBestCover_best :
  forall images,
    match images with
    | [] => extractBestCover images = []
    | _ :: _ =>
        exists i, In i images
                  /\ extractBestCover images = trim (Image.text i)
                  /\ forall j, In j images -> (sizeRank j <= sizeRank i)%nat
    end.
Proof.
  intros [|first rest]; [reflexivity|].
  unfold extractBestCover.
  set (images := first :: rest).
  destruct (List.find (fun i => eqStr (Image.size i) (str "extralarge")) images) as [i|] eqn:E.
  - apply find_some in E. destruct E as [Hin Hi]. exists i. split; [exact Hin|].
    split; [reflexivity|]. intros j _. unfold sizeRank at 2. rewrite Hi.
    unfold sizeRank.
    destruct (eqStr (Image.size j) (str "extralarge")); [lia|].
    destruct (eqStr (Image.size j) (str "large")); lia.
  - pose proof (find_none _ _ E) as Hx. cbv beta in Hx.
    destruct (List.find (fun i => eqStr (Image.size i) (str "large")) images) as [i|] eqn:F.
    + apply find_some in F. destruct F as [Hin Hi]. exists i. split; [exact Hin|].
      split; [reflexivity|]. intros j Hj. unfold sizeRank.
      rewrite (Hx j Hj), (Hx i Hin), Hi.
      destruct (eqStr (Image.size j) (str "large")); lia.
    + pose proof (find_none _ _ F) as Hl. cbv beta in Hl.
      exists first. split; [left; reflexivity|]. split; [reflexivity|].
      intros j Hj. unfold sizeRank. rewrite (Hx j Hj), (Hl j Hj). apply Nat.le_0_l.
Qed.

(** *** The time codec and the resume point *)

Lemma iso_length ts :
  fieldsInRange (localFields ts) -> length (timestampToLocalISO ts) = 19%nat.
Proof.
  intros (Hy & Hm & Hd & Hh & Hmi & Hs).
  apply numToString_year, fourDigits_spec in Hy. destruct Hy as [Hy1 _].
  destruct (twoDigits_spec _ (pad_field (month (localFields ts) + 1) ltac:(lia))) as [Hm1 _].
  destruct (twoDigits_spec _ (pad_field (dayOfMonth (localFields ts)) ltac:(lia))) as [Hd1 _].
  destruct (twoDigits_spec _ (pad_field (hours (localFields ts)) ltac:(lia))) as [Hh1 _].
  destruct (twoDigits_spec _ (pad_field (minutes (localFields ts)) ltac:(lia))) as [Hi1 _].
  destruct (twoDigits_spec _ (pad_field (seconds (localFields ts)) ltac:(lia))) as [Hs1 _].
  unfold timestampToLocalISO. rewrite !length_app, Hy1, Hm1, Hd1, Hh1, Hi1, Hs1.
  reflexivity.
Qed.

Lemma matchEntry_fields name ts :
  fieldsInRange (localFields ts) ->
  matchEntry (entryOf name (timestampToLocalISO ts)) = Some (timestampToLocalISO ts).
Proof.
  intros (Hy & Hm & Hd & Hh & Hmi & Hs).
  apply numToString_year, fourDigits_spec in Hy. destruct Hy as [Hy1 Hy2].
  destruct (twoDigits_spec _ (pad_field (month (localFields ts) + 1) ltac:(lia))) as [Hm1 Hm2].
  destruct (twoDigits_spec _ (pad_field (dayOfMonth (localFields ts)) ltac:(lia))) as [Hd1 Hd2].
  destruct (twoDigits_spec _ (pad_field (hours (localFields ts)) ltac:(lia))) as [Hh1 Hh2].
  destruct (twoDigits_spec _ (pad_field (minutes (localFields ts)) ltac:(lia))) as [Hi1 Hi2].
  destruct (twoDigits_spec _ (pad_field (seconds (localFields ts)) ltac:(lia))) as [Hs1 Hs2].
  unfold entryOf, timestampToLocalISO, matchEntry, isoItems.
  rewrite dropLit_app. rewrite <- !app_assoc.
  erewrite (matchItems_digits 4); [reflexivity|exact Hy1|exact Hy2|].
  apply matchItems_lit.
  apply (matchItems_digits 2); [exact Hm1|exact Hm2|].
  apply matchItems_lit.
  apply (matchItems_digits 2); [exact Hd1|exact Hd2|].
  apply matchItems_lit.
  apply (matchItems_digits 2); [exact Hh1|exact Hh2|].
  apply matchItems_lit.
  apply (matchItems_digits 2); [exact Hi1|exact Hi2|].
  apply matchItems_lit.
  rewrite <- (app_nil_r (pad (seconds (localFields ts)))) at 2.
  apply (matchItems_digits 2); [exact Hs1|exact Hs2|].
  reflexivity.
Qed.

(** X4. What the store writer writes, the resolver reads: for a time
    whose local date fields are in range and whose year has four digits,
    [timestampToLocalISO] gives 19 characters that start with the year,
    and the history entry built from them, whatever the track name,
    matches the entry pattern of the resolver, which captures exactly
    those 19 characters. *)
Theorem X4_entry_matches_resolver_pattern :
  forall name ts,
    fieldsInRange (localFields ts) ->
    matchEntry (entryOf name (timestampToLocalISO ts)) = Some (timestampToLocalISO ts)
    /\ length (timestampToLocalISO ts) = 19%nat
    /\ firstn 4 (timestampToLocalISO ts) = numToString (fullYear (localFields ts)).
Proof.
  intros name ts H. split; [apply matchEntry_fields, H|].
  split; [apply iso_length, H|]. apply iso_year, H.
Qed.

Lemma scanYears_spec v hf n : forall year ts,
  scanYears v hf n year = Some ts <->
  exists k, (k < n)%nat
            /\ scanYear v hf (year - Z.of_nat k) = Some ts
            /\ forall j, (j < k)%nat -> scanYear v hf (year - Z.of_nat j) = None.
Proof.
  induction n as [|n IH]; intros year ts; cbn [scanYears].
  - split; [discriminate|]. intros (k & Hk & _). lia.
  - destruct (scanYear v hf year) as [t0|] eqn:E.
    + split.
      * intros H. exists 0%nat. split; [lia|]. split.
        -- rewrite Z.sub_0_r, E. exact H.
        -- intros j Hj. lia.
      * intros (k & Hk & Hts & Hnone). destruct k as [|k].
        -- rewrite Z.sub_0_r, E in Hts. exact Hts.
        -- specialize (Hnone 0%nat ltac:(lia)). rewrite Z.sub_0_r, E in Hnone. discriminate.
    + rewrite IH. split.
      * intros (k & Hk & Hts & Hnone). exists (S k). split; [lia|]. split.
        -- replace (year - Z.of_nat (S k)) with (year - 1 - Z.of_nat k) by lia. exact Hts.
        -- intros j Hj. destruct j as [|j]; [rewrite Z.sub_0_r; exact E|].
           replace (year - Z.of_nat (S j)) with (year - 1 - Z.of_nat j) by lia.
           apply Hnone. lia.
      * intros (k & Hk & Hts & Hnone). destruct k as [|k].
        -- rewrite Z.sub_0_r, E in Hts. discriminate.
        -- exists k. split; [lia|]. split.
           ++ replace (year - 1 - Z.of_nat k) with (year - Z.of_nat (S k)) by lia. exact Hts.
           ++ intros j Hj.
              replace (year - 1 - Z.of_nat j) with (year - Z.of_nat (S j)) by lia.
              apply Hnone. lia.
Qed.

(** X5. The resume point is resolved newest year first within a window
    of 21 years: the watermark is [ts] exactly when some year from the
    current one back to twenty years earlier has a log whose scan gives
    [ts] while the logs of all later years of the window give nothing.
    Logs of other years are never consulted. *)
Theorem X5_resolveWatermark_newest_first :
  forall vault historyFolder year ts,
    resolveWatermark vault historyFolder year = Some ts <->
    exists y, year - 20 <= y <= year
              /\ scanYear vault historyFolder y = Some ts
              /\ forall y', y < y' <= year -> scanYear vault historyFolder y' = None.
Proof.
  intros v hf year ts. unfold resolveWatermark. rewrite scanYears_spec. split.
  - intros (k & Hk & Hts & Hnone). exists (year - Z.of_nat k). split; [lia|].
    split; [exact Hts|]. intros y' Hy'.
    replace y' with (year - Z.of_nat (Z.to_nat (year - y'))) by lia.
    apply Hnone. lia.
  - intros (y & Hy & Hts & Hnone). exists (Z.to_nat (year - y)). split; [lia|]. split.
    + replace (year - Z.of_nat (Z.to_nat (year - y))) with y by lia. exact Hts.
    + intros j Hj. apply Hnone. lia.
Qed.

(** *** The fetcher *)



Lemma requestsOf_app a b : requestsOf (a ++ b) = requestsOf a ++ requestsOf b.
Proof. unfold requestsOf. apply flat_map_app. Qed.

Lemma fetchLoop_bootstrap fuel : forall fromTs sent attempts log,
  0 <= attempts < 3 ->
  (forall req, In req (requestsOf log) -> req = mkRequest 1 None) ->
  let r := fetchLoop fuel false fromTs sent 1 1 attempts [] log in
  (forall req, In req (requestsOf (snd r)) -> req = mkRequest 1 None)
  /\ (length (requestsOf (snd r)) <= length (requestsOf log) + Z.to_nat (3 - attempts))%nat
  /\ (forall all, fst r = Fetched all ->
        exists s error totalPages, remote s (mkRequest 1 None) = Responds error totalPages all).
Proof.
  induction fuel as [|fuel IH]; intros fromTs sent attempts log Ha Hlog r.
  - subst r. cbn [fetchLoop fst snd]. split; [exact Hlog|]. split; [lia|]. discriminate.
  - subst r. cbn [fetchLoop]. unfold maxAttempts.
    replace ((1 <=? 1) && (attempts <? 3)) with true
      by (symmetry; apply andb_true_intro; split; [reflexivity|apply Z.ltb_lt; lia]).
    assert (Hlog1 : forall req, In req (requestsOf (log ++ [Requested (mkRequest 1 None)])) ->
                                req = mkRequest 1 None).
    { intros req Hin. rewrite requestsOf_app in Hin. apply in_app_or in Hin.
      destruct Hin as [Hin|[<-|[]]]; [apply Hlog, Hin|reflexivity]. }
    assert (Hlen1 : length (requestsOf (log ++ [Requested (mkRequest 1 None)]))
                    = S (length (requestsOf log))).
    { rewrite requestsOf_app, length_app. cbn. lia. }
    destruct (remote sent (mkRequest 1 None)) as [status|error tp tracks] eqn:E.
    + destruct (isTransient status && (attempts <? 3 - 1)) eqn:Et.
      * apply andb_prop in Et. destruct Et as [_ Et]. apply Z.ltb_lt in Et.
        destruct (IH fromTs (S sent) (attempts + 1)
                    ((log ++ [Requested (mkRequest 1 None)]) ++ [Waited (retryDelay status)])
                    ltac:(lia)) as (H1 & H2 & H3).
        { intros req Hin. rewrite requestsOf_app in Hin. apply in_app_or in Hin.
          destruct Hin as [Hin|[]]. apply Hlog1, Hin. }
        split; [exact H1|]. split; [|exact H3].
        rewrite requestsOf_app, length_app, Hlen1 in H2. cbn [requestsOf flat_map length app] in H2.
        lia.
      * cbn [fst snd]. split; [exact Hlog1|]. split; [rewrite Hlen1; lia|discriminate].
    + destruct (truthyNum error).
      * cbn [fst snd]. split; [exact Hlog1|]. split; [rewrite Hlen1; lia|discriminate].
      * destruct tracks as [|t tracks].
        -- cbn [fst snd]. split; [exact Hlog1|]. split; [rewrite Hlen1; lia|].
           intros all Hall. exists sent, error, tp.
           apply (f_equal (fun x => match x with Fetched l => l | _ => [] end)) in Hall.
           subst all. exact E.
        -- change (1 =? 1) with true. cbv iota.
           replace (match tp with Some _ => 1 | None => 1 end) with 1 by (destruct tp; reflexivity).
           change (1 + 1 <=? 1) with false. cbv iota.
           destruct fuel as [|fuel'].
           ++ cbn [fetchLoop fst snd]. split; [exact Hlog1|]. split; [rewrite Hlen1; lia|discriminate].
           ++ rewrite fetchLoop_exit by lia. cbn [fst snd].
              split; [exact Hlog1|]. split; [rewrite Hlen1; lia|].
              intros all Hall. exists sent, error, tp.
              apply (f_equal (fun x => match x with Fetched l => l | _ => [] end)) in Hall.
              subst all. exact E.
Qed.

(** X7. Without a watermark the fetch is capped to one page: every
    request asks for page 1 without a lower bound, at most three are sent
    (the first and two retries), and what the fetch returns is the track
    list of a single reply, whatever number of pages the remote
    declares. *)
Theorem X7_bootstrap_single_page :
  forall fromTs,
    let r := fetchTracks false fromTs in
    (forall req, In req (requestsOf (snd r)) -> req = mkRequest 1 None)
    /\ (length (requestsOf (snd r)) <= 3)%nat
    /\ (forall all, fst r = Fetched all ->
          exists sent error totalPages,
            remote sent (mkRequest 1 None) = Responds error totalPages all).
Proof.
  intros fromTs.
  apply (fetchLoop_bootstrap (fetchFuel false fromTs) fromTs 0 0 []); [lia|].
  intros req [].
Qed.

Lemma paced_app_wait l : forall d b,
  paced (l ++ Waited d :: b) = paced l && paced b.
Proof.
  induction l as [|x l IH]; intros d b; [reflexivity|].
  destruct x as [r|e].
  - destruct l as [|y l]; [reflexivity|].
    destruct y as [r'|e']; [reflexivity|].
    change (paced ((Requested r :: Waited e' :: l) ++ Waited d :: b))
      with (paced ((Waited e' :: l) ++ Waited d :: b)).
    rewrite IH. reflexivity.
  - change (paced ((Waited e :: l) ++ Waited d :: b)) with (paced (l ++ Waited d :: b)).
    rewrite IH. reflexivity.
Qed.

Lemma paced_request log req :
  paced log = true -> (log = [] \/ exists l d, log = l ++ [Waited d]) ->
  paced (log ++ [Requested req]) = true.
Proof.
  intros Hp [->|(l & d & ->)]; [reflexivity|].
  rewrite paced_app_wait in Hp. rewrite <- app_assoc. cbn [app].
  rewrite paced_app_wait. apply andb_prop in Hp. destruct Hp as [Hp _].
  rewrite Hp. reflexivity.
Qed.

Lemma paced_wait log d : paced log = true -> paced (log ++ [Waited d]) = true.
Proof. intros H. rewrite paced_app_wait, H. reflexivity. Qed.

Lemma fetchLoop_paced fuel : forall found fromTs sent (page totalPages attempts : Z) acc log,
  paced log = true ->
  (page <= totalPages -> log = [] \/ exists l d, log = l ++ [Waited d]) ->
  paced (snd (fetchLoop fuel found fromTs sent page totalPages attempts acc log)) = true.
Proof.
  induction fuel as [|fuel IH];
    intros found fromTs sent page totalPages attempts acc log Hp Hend; [exact Hp|].
  cbn [fetchLoop].
  destruct ((page <=? totalPages) && (attempts <? maxAttempts)) eqn:Ec; [|exact Hp].
  apply andb_prop in Ec. destruct Ec as [Ec _]. apply Z.leb_le in Ec.
  set (req := mkRequest page (if found then Some fromTs else None)).
  pose proof (paced_request log req Hp (Hend Ec)) as Hp1.
  destruct (remote sent req) as [status|error tp tracks].
  - destruct (isTransient status && (attempts <? maxAttempts - 1)); [|exact Hp1].
    apply IH; [apply paced_wait, Hp1|]. intros _. right. eauto.
  - destruct (truthyNum error); [exact Hp1|].
    destruct tracks as [|t tracks]; [exact Hp1|].
    apply IH.
    + destruct (page + 1 <=? _); [apply paced_wait, Hp1|exact Hp1].
    + intros Hle. apply Z.leb_le in Hle. rewrite Hle. right. eauto.
Qed.

(** X8. Requests are never sent back to back: in the requests and waits
    of a fetch, every request but the first comes right after a wait,
    be it the pause between pages or the delay before a retry. *)
Theorem X8_requests_are_paced :
  forall found fromTs, paced (snd (fetchTracks found fromTs)) = true.
Proof.
  intros found fromTs. apply fetchLoop_paced; [reflexivity|]. intros _. left. reflexivity.
Qed.

Lemma last_cons {A} (x : A) l d : last (x :: l) d = last l x.
Proof.
  revert x d. induction l as [|y l IH]; intros x d; [reflexivity|].
  change (last (x :: y :: l) d) with (last (y :: l) d). rewrite !IH. reflexivity.
Qed.

Lemma stepwise_snoc l : forall p q,
  stepwise p (l ++ [q]) = stepwise p l && ((q =? last l p) || (q =? last l p + 1)).
Proof.
  induction l as [|x l IH]; intros p q.
  - cbn. rewrite andb_true_r. reflexivity.
  - change ((x :: l) ++ [q]) with (x :: (l ++ [q])). cbn [stepwise].
    rewrite IH, last_cons, andb_assoc. reflexivity.
Qed.

Lemma pagesOf_request log req : pagesOf (log ++ [Requested req]) = pagesOf log ++ [page req].
Proof. unfold pagesOf. rewrite requestsOf_app, map_app. reflexivity. Qed.

Lemma pagesOf_wait log d : pagesOf (log ++ [Waited d]) = pagesOf log.
Proof. unfold pagesOf. rewrite requestsOf_app, map_app. cbn. apply app_nil_r. Qed.

Lemma requestsOf_wait log d : requestsOf (log ++ [Waited d]) = requestsOf log.
Proof. rewrite requestsOf_app. cbn. apply app_nil_r. Qed.

Lemma fetchLoop_stepwise fuel :
  forall (found : bool) (fromTs : Z) sent (pg totalPages attempts : Z) acc log,
  1 <= pg ->
  stepwise 0 (pagesOf log) = true ->
  (forall r, In r (requestsOf log) ->
             from r = (if found then Some fromTs else None) /\ 1 <= page r) ->
  (last (pagesOf log) 0 = pg \/ last (pagesOf log) 0 = pg - 1) ->
  let out := snd (fetchLoop fuel found fromTs sent pg totalPages attempts acc log) in
  stepwise 0 (pagesOf out) = true
  /\ forall r, In r (requestsOf out) ->
               from r = (if found then Some fromTs else None) /\ 1 <= page r.
Proof.
  induction fuel as [|fuel IH];
    intros found fromTs sent pg totalPages attempts acc log Hpg Hs Hr Hlast out;
    [split; assumption|].
  subst out. cbn [fetchLoop].
  destruct ((pg <=? totalPages) && (attempts <? maxAttempts)); [|split; assumption].
  set (req := mkRequest pg (if found then Some fromTs else None)).
  assert (Hs1 : stepwise 0 (pagesOf (log ++ [Requested req])) = true).
  { rewrite pagesOf_request, stepwise_snoc, Hs. cbn [andb page req].
    apply orb_true_iff. destruct Hlast as [->| ->]; [left|right]; apply Z.eqb_eq; lia. }
  assert (Hr1 : forall r, In r (requestsOf (log ++ [Requested req])) ->
                          from r = (if found then Some fromTs else None) /\ 1 <= page r).
  { intros r Hin. rewrite requestsOf_app in Hin. apply in_app_or in Hin.
    destruct Hin as [Hin|[<-|[]]]; [apply Hr, Hin|]. split; [reflexivity|exact Hpg]. }
  assert (Hl1 : last (pagesOf (log ++ [Requested req])) 0 = pg).
  { rewrite pagesOf_request. apply last_last. }
  destruct (remote sent req) as [status|error tp tracks].
  - destruct (isTransient status && (attempts <? maxAttempts - 1)); [|split; assumption].
    apply IH; [exact Hpg| | |].
    + rewrite pagesOf_wait. exact Hs1.
    + rewrite requestsOf_wait. exact Hr1.
    + left. rewrite pagesOf_wait. exact Hl1.
  - destruct (truthyNum error); [split; assumption|].
    destruct tracks as [|t tracks]; [split; assumption|].
    apply IH; [lia| | |].
    + destruct (pg + 1 <=? _); [rewrite pagesOf_wait|]; exact Hs1.
    + destruct (pg + 1 <=? _); [rewrite requestsOf_wait|]; exact Hr1.
    + right. destruct (pg + 1 <=? _); [rewrite pagesOf_wait|]; rewrite Hl1; lia.
Qed.

(** X9. Pages are asked for in order and with one lower bound: the first
    request is for page 1, each later one is for the same page again (a
    retry) or for the next page, and every request of a run carries the
    same [from], the watermark plus one second when there is a watermark
    and none otherwise. *)
Theorem X9_requests_in_page_order :
  forall (found : bool) (fromTs : Z),
    let log := snd (fetchTracks found fromTs) in
    stepwise 0 (pagesOf log) = true
    /\ hd 1 (pagesOf log) = 1
    /\ forall r, In r (requestsOf log) ->
                 from r = (if found then Some fromTs else None) /\ 1 <= page r.
Proof.
  intros found fromTs log.
  assert (H : stepwise 0 (pagesOf log) = true
              /\ forall r, In r (requestsOf log) ->
                           from r = (if found then Some fromTs else None) /\ 1 <= page r).
  { apply (fetchLoop_stepwise (fetchFuel found fromTs) found fromTs 0 1 1 0 [] []);
      [lia|reflexivity|intros r []|right; reflexivity]. }
  destruct H as [Hs Hr]. split; [exact Hs|]. split; [|exact Hr].
  unfold pagesOf in *. destruct (requestsOf log) as [|r rs]; [reflexivity|].
  cbn [List.map hd stepwise] in *. apply andb_prop in Hs. destruct Hs as [Hs _].
  specialize (Hr r (or_introl eq_refl)). destruct Hr as [_ Hr].
  apply orb_true_iff in Hs. destruct Hs as [Hs|Hs]; apply Z.eqb_eq in Hs; lia.
Qed.

(** *** The aggregator *)

Lemma aggregate_snoc l : forall i groups plays t,
  aggregate i (l ++ [t]) groups plays
  = aggregate (i + length l) [t] (fst (aggregate i l groups plays))
      (snd (aggregate i l groups plays)).
Proof.
  induction l as [|x l IH]; intros i groups plays t.
  - cbn [app aggregate fst snd length]. rewrite Nat.add_0_r. reflexivity.
  - change ((x :: l) ++ [t]) with (x :: (l ++ [t])). cbn [aggregate length].
    rewrite IH. rewrite Nat.add_succ_r. reflexivity.
Qed.

Lemma nth_error_snoc_inv {A} (l : list A) t j x :
  nth_error (l ++ [t]) j = Some x ->
  ((j < length l)%nat /\ nth_error l j = Some x) \/ (j = length l /\ x = t).
Proof.
  intros H. destruct (lt_dec j (length l)) as [Hlt|Hge].
  - left. split; [exact Hlt|]. rewrite nth_error_app1 in H by exact Hlt. exact H.
  - right. rewrite nth_error_app2 in H by lia.
    destruct (j - length l)%nat as [|n] eqn:E.
    + cbn in H. apply Some_inj in H. split; [lia|congruence].
    + cbn in H. destruct n; discriminate H.
Qed.

Lemma nth_error_snoc_old {A} (l : list A) t j x :
  nth_error l j = Some x -> nth_error (l ++ [t]) j = Some x /\ (j < length l)%nat.
Proof.
  intros H. assert (Hlt : (j < length l)%nat) by (apply nth_error_Some; congruence).
  split; [|exact Hlt]. rewrite nth_error_app1 by exact Hlt. exact H.
Qed.

Lemma nth_error_snoc_new {A} (l : list A) t : nth_error (l ++ [t]) (length l) = Some t.
Proof. rewrite nth_error_app2 by lia. rewrite Nat.sub_diag. reflexivity. Qed.

Lemma latestAt_keep k l t j x :
  latestAt k l j x ->
  (hasKey k t = true -> eventTs (length l) t <= eventTs j x) ->
  latestAt k (l ++ [t]) j x.
Proof.
  intros (Hn & Hk & Hall) Hnew.
  destruct (nth_error_snoc_old l t j x Hn) as [Hn' Hj].
  split; [exact Hn'|]. split; [exact Hk|].
  intros j' t' Hn2 Hk2. apply nth_error_snoc_inv in Hn2.
  destruct Hn2 as [[_ Hn2]|[-> ->]]; [apply Hall; assumption|].
  split; [apply Hnew, Hk2|lia].
Qed.

Lemma latestAt_new k l t :
  hasKey k t = true ->
  (forall j' t', nth_error l j' = Some t' -> hasKey k t' = true ->
                 eventTs j' t' < eventTs (length l) t) ->
  latestAt k (l ++ [t]) (length l) t.
Proof.
  intros Hk Hall. split; [apply nth_error_snoc_new|]. split; [exact Hk|].
  intros j' t' Hn2 Hk2. apply nth_error_snoc_inv in Hn2.
  destruct Hn2 as [[_ Hn2]|[-> ->]].
  - specialize (Hall j' t' Hn2 Hk2). split; [lia|intros _; exact Hall].
  - split; lia.
Qed.

Lemma earliestAt_keep k l t j x :
  earliestAt k l j x ->
  (hasKey k t = true -> eventTs j x <= eventTs (length l) t) ->
  earliestAt k (l ++ [t]) j x.
Proof.
  intros (Hn & Hk & Hall) Hnew.
  destruct (nth_error_snoc_old l t j x Hn) as [Hn' Hj].
  split; [exact Hn'|]. split; [exact Hk|].
  intros j' t' Hn2 Hk2. apply nth_error_snoc_inv in Hn2.
  destruct Hn2 as [[_ Hn2]|[-> ->]]; [apply Hall; assumption|].
  split; [apply Hnew, Hk2|lia].
Qed.

Lemma earliestAt_new k l t :
  hasKey k t = true ->
  (forall j' t', nth_error l j' = Some t' -> hasKey k t' = true ->
                 eventTs (length l) t < eventTs j' t') ->
  earliestAt k (l ++ [t]) (length l) t.
Proof.
  intros Hk Hall. split; [apply nth_error_snoc_new|]. split; [exact Hk|].
  intros j' t' Hn2 Hk2. apply nth_error_snoc_inv in Hn2.
  destruct Hn2 as [[_ Hn2]|[-> ->]].
  - specialize (Hall j' t' Hn2 Hk2). split; [lia|intros _; exact Hall].
  - split; lia.
Qed.

Ltac summary_fields :=
  unfold groupSummarises;
  cbn [TrackGroup.count TrackGroup.latestTs TrackGroup.firstTs TrackGroup.latestIso
       TrackGroup.firstIso TrackGroup.album TrackGroup.coverUrl].

Lemma summary_other k l t g :
  groupSummarises k l g -> hasKey k t = false -> groupSummarises k (l ++ [t]) g.
Proof.
  intros (Hc & Hfl & (jl & tl & Hlat & Hl) & (je & te & Hear & He)) Hk.
  split; [exact Hc|]. split; [exact Hfl|]. split.
  - exists jl, tl. split; [|exact Hl]. apply latestAt_keep; [exact Hlat|congruence].
  - exists je, te. split; [|exact He]. apply earliestAt_keep; [exact Hear|congruence].
Qed.

Lemma summary_first k l t :
  (forall j x, nth_error l j = Some x -> hasKey k x = false) -> hasKey k t = true ->
  groupSummarises k (l ++ [t]) (countPlay (length l) t (newGroup (length l) t)).
Proof.
  intros Hnone Hk. unfold countPlay, newGroup. cbn [TrackGroup.latestTs].
  replace (eventTs (length l) t >? eventTs (length l) t) with false
    by (symmetry; rewrite Z.gtb_ltb; apply Z.ltb_ge; lia).
  cbn [TrackGroup.firstTs].
  replace (eventTs (length l) t <? eventTs (length l) t) with false
    by (symmetry; apply Z.ltb_ge; lia).
  summary_fields. split; [lia|]. split; [lia|]. split.
  - exists (length l), t. split; [|auto].
    apply latestAt_new; [exact Hk|]. intros j' t' Hn Hk'.
    rewrite (Hnone j' t' Hn) in Hk'. discriminate.
  - exists (length l), t. split; [|auto].
    apply earliestAt_new; [exact Hk|]. intros j' t' Hn Hk'.
    rewrite (Hnone j' t' Hn) in Hk'. discriminate.
Qed.

Lemma summary_next k l t g0 :
  groupSummarises k l g0 -> hasKey k t = true ->
  groupSummarises k (l ++ [t]) (countPlay (length l) t g0).
Proof.
  intros (Hc & Hfl & (jl & tl & Hlat & Hlts & Hliso & Halb & Hcov)
             & (je & te & Hear & Hfts & Hfiso)) Hk.
  assert (Hmax : forall j' t', nth_error l j' = Some t' -> hasKey k t' = true ->
                               eventTs j' t' <= TrackGroup.latestTs g0).
  { intros j' t' Hn Hk'. rewrite Hlts. apply Hlat; assumption. }
  assert (Hmin : forall j' t', nth_error l j' = Some t' -> hasKey k t' = true ->
                               TrackGroup.firstTs g0 <= eventTs j' t').
  { intros j' t' Hn Hk'. rewrite Hfts. apply Hear; assumption. }
  unfold countPlay. fold (albumOf t).
  destruct (eventTs (length l) t >? TrackGroup.latestTs g0) eqn:E1.
  - apply Z.gtb_lt in E1. cbn [TrackGroup.firstTs].
    replace (eventTs (length l) t <? TrackGroup.firstTs g0) with false
      by (symmetry; apply Z.ltb_ge; lia).
    summary_fields. split; [lia|]. split; [lia|]. split.
    + exists (length l), t. split; [|auto].
      apply latestAt_new; [exact Hk|]. intros j' t' Hn Hk'.
      specialize (Hmax j' t' Hn Hk'). lia.
    + exists je, te. split; [|auto]. apply earliestAt_keep; [exact Hear|]. lia.
  - assert (Hle : eventTs (length l) t <= TrackGroup.latestTs g0).
    { destruct (Z.gtb_spec (eventTs (length l) t) (TrackGroup.latestTs g0));
        [discriminate|lia]. }
    cbn [TrackGroup.firstTs].
    destruct (eventTs (length l) t <? TrackGroup.firstTs g0) eqn:E2.
    + apply Z.ltb_lt in E2. summary_fields. split; [lia|]. split; [lia|]. split.
      * exists jl, tl. split; [|auto]. apply latestAt_keep; [exact Hlat|]. lia.
      * exists (length l), t. split; [|auto].
        apply earliestAt_new; [exact Hk|]. intros j' t' Hn Hk'.
        specialize (Hmin j' t' Hn Hk'). lia.
    + apply Z.ltb_ge in E2. summary_fields. split; [lia|]. split; [lia|]. split.
      * exists jl, tl. split; [|auto]. apply latestAt_keep; [exact Hlat|]. lia.
      * exists je, te. split; [|auto]. apply earliestAt_keep; [exact Hear|]. lia.
Qed.

Lemma no_group_no_event k l :
  mapGet k (fst (aggregate 0 l [] [])) = None ->
  forall j x, nth_error l j = Some x -> hasKey k x = false.
Proof.
  intros Hnone j x Hn.
  pose proof (aggregate_groupCount k l 0 [] []) as H.
  unfold groupCount in H. rewrite Hnone in H. cbn [mapGet] in H.
  unfold countKey in H.
  destruct (hasKey k x) eqn:E; [|reflexivity].
  assert (Hin : In x (List.filter (hasKey k) l)).
  { apply filter_In. split; [eapply nth_error_In, Hn|exact E]. }
  destruct (List.filter (hasKey k) l); [destruct Hin|cbn [length] in H; lia].
Qed.

(** X10. What a TrackGroup records. For every group the aggregator
    builds from the surviving events of a run: its count is at least 1,
    its first timestamp is not after its latest, its latest timestamp,
    local time, album and cover are those of the first event with the
    greatest timestamp among the events of its key, and its first
    timestamp and local time are those of the first event with the least
    timestamp among them. *)
Theorem X10_group_summarises_its_events :
  forall tracks k g,
    mapGet k (fst (aggregate 0 tracks [] [])) = Some g ->
    groupSummarises k tracks g.
Proof.
  intros tracks. induction tracks as [|t l IH] using rev_ind; intros k g.
  - cbn. discriminate.
  - rewrite aggregate_snoc. cbn [Nat.add aggregate fst].
    set (G := fst (aggregate 0 l [] [])) in *.
    set (key := keyOf (artistOf t) (nameOf t)).
    destruct (decide (k = key)) as [->|Hne].
    + rewrite mapGet_mapSet_eq. intros H. apply Some_inj in H. subst g.
      assert (Hk : hasKey key t = true) by apply eqStr_refl.
      destruct (mapGet key G) as [g0|] eqn:E.
      * apply summary_next; [apply IH, E|exact Hk].
      * apply summary_first; [apply no_group_no_event, E|exact Hk].
    + rewrite mapGet_mapSet_ne by exact Hne. intros H.
      apply summary_other; [apply IH, H|].
      apply eqStr_false. fold key. congruence.
Qed.

Lemma insertPlay_perm p l : Permutation (insertPlay p l) (p :: l).
Proof.
  induction l as [|q l IH]; cbn [insertPlay]; [reflexivity|].
  destruct (Play.ts p <=? Play.ts q); [reflexivity|].
  rewrite IH. apply perm_swap.
Qed.

Lemma sortPlays_perm plays : Permutation (sortPlays plays) plays.
Proof.
  induction plays as [|p l IH]; cbn; [reflexivity|].
  rewrite insertPlay_perm. apply perm_skip, IH.
Qed.

Lemma playsFrom_length tracks : forall i, length (playsFrom i tracks) = length tracks.
Proof. induction tracks as [|t l IH]; intros i; cbn; [reflexivity|rewrite IH; reflexivity]. Qed.

(** X11. The flat list of plays handed to the history writer holds one
    play per surviving event, each with the file name, local time and
    timestamp of its event, and is in ascending order of timestamp. *)
Theorem X11_run_plays_sorted_one_per_event :
  forall trulyNew,
    Permutation (runPlays trulyNew) (playsFrom 0 trulyNew)
    /\ length (runPlays trulyNew) = length trulyNew
    /\ sortedByTs (runPlays trulyNew).
Proof.
  intros trulyNew. unfold runPlays.
  assert (Hp : Permutation (sortPlays (snd (aggregate 0 trulyNew [] [])))
                 (playsFrom 0 trulyNew)).
  { rewrite sortPlays_perm, aggregate_plays. reflexivity. }
  split; [exact Hp|]. split.
  - rewrite (Permutation_length Hp). apply playsFrom_length.
  - apply sortPlays_sorted.
Qed.

(** *** The track records *)

Lemma digits_acc d : forall acc,
  fold_left (fun a c => 10 * a + (Z.of_N c - 48)) (uintCodes d) (Zpos acc)
  = Zpos (Pos.of_uint_acc d acc).
Proof.
  induction d; intros acc; cbn [uintCodes fold_left Pos.of_uint_acc];
    [reflexivity|rewrite <- IHd; f_equal; lia..].
Qed.

Lemma digits_uint d : digitsToNum (uintCodes d) = Z.of_N (Pos.of_uint d).
Proof.
  unfold digitsToNum.
  induction d; cbn [uintCodes fold_left Pos.of_uint];
    [reflexivity|exact IHd|apply (digits_acc d)..].
Qed.

Lemma numToString_reads_back z : 0 <= z -> digitsToNum (numToString z) = z.
Proof.
  intros Hz. destruct z as [|p|p]; [reflexivity| |lia].
  cbn [numToString Z.to_N N.to_uint]. rewrite digits_uint, DecimalPos.Unsigned.of_to.
  reflexivity.
Qed.

Lemma isoLike_plain iso : isoLike iso = true -> plainValue iso = true.
Proof.
  destruct iso as [|c s]; [discriminate|]. cbn [isoLike plainValue]. intros H.
  apply andb_true_intro. split.
  - cbn [forallb] in H. apply andb_prop in H. destruct H as [Hc _].
    apply isoChar_plain in Hc. destruct Hc as [Hc _]. rewrite Hc. reflexivity.
  - apply forallb_forall. intros x Hx. rewrite forallb_forall in H.
    specialize (H x Hx). apply isoChar_plain in H. destruct H as [_ H].
    rewrite H. reflexivity.
Qed.

Lemma storedCount_record head digits middle last tail :
  wellFormedRecord head digits middle ->
  storedCount (recordText head digits middle last tail) = digitsToNum digits.
Proof.
  intros (Hhead & _ & Hne & Hd). unfold storedCount, recordText.
  rewrite findFirst_skip.
  2:{ intros k Hk. apply matchPlayCount_key, key_not_in_lines; try assumption;
        [apply noLF_str_lit; reflexivity|discriminate]. }
  rewrite (findFirst_here _ _ _ (matchPlayCount_line digits _ Hne Hd)). reflexivity.
Qed.



Lemma startsWith_app_cases p : forall u s,
  startsWith p (u ++ s) = true -> startsWith p u = true \/ startsWith u p = true.
Proof.
  induction p as [|y p IH]; intros u s H; [left; destruct u; reflexivity|].
  destruct u as [|x u]; [right; reflexivity|].
  cbn [app startsWith] in *. apply andb_prop in H. destruct H as [Hx H].
  rewrite (N.eqb_sym x y), Hx. cbn [andb]. apply (IH u s H).
Qed.

Lemma includes_clearOf p lit s : clearOf p lit = true -> includes (lit ++ s) p = includes s p.
Proof.
  induction lit as [|x r IH]; intros H; [reflexivity|].
  cbn [clearOf] in H. apply andb_prop in H. destruct H as [Hx Hr].
  apply negb_true_iff, orb_false_iff in Hx. destruct Hx as [H1 H2].
  change ((x :: r) ++ s) with (x :: (r ++ s)). cbn [includes].
  rewrite (IH Hr).
  destruct (startsWith p (x :: r ++ s)) eqn:E; [|reflexivity].
  apply (startsWith_app_cases p (x :: r) s) in E. destruct E; congruence.
Qed.

Lemma build_as_record g url :
  buildNewTrackContent g url
  = recordText (recordHead g url) (numToString (TrackGroup.count g))
      [str "first_listened_at: " ++ TrackGroup.firstIso g]
      (TrackGroup.latestIso g) (recordTail g url).
Proof.
  unfold buildNewTrackContent, recordText, recordHead, recordTail, unlines, countLine,
    lastLine.
  cbn [List.map concat]. rewrite <- !app_assoc. reflexivity.
Qed.

Lemma record_wellFormed g url :
  0 <= TrackGroup.count g ->
  keyFree (TrackGroup.name g) = true -> keyFree (TrackGroup.artist g) = true ->
  keyFree (TrackGroup.album g) = true -> keyFree url = true ->
  includes (TrackGroup.firstIso g) LAST_KEY = false ->
  wellFormedRecord (recordHead g url) (numToString (TrackGroup.count g))
    [str "first_listened_at: " ++ TrackGroup.firstIso g].
Proof.
  intros Hc Hn Ha Hal Hu Hf.
  assert (Halb : keyFree (orElse (TrackGroup.album g) [EM_DASH]) = true).
  { destruct (TrackGroup.album g); [reflexivity|exact Hal]. }
  unfold keyFree in *.
  apply andb_prop in Hn, Ha, Halb, Hu.
  destruct Hn as [Hn1 Hn2], Ha as [Ha1 Ha2], Halb as [Hb1 Hb2], Hu as [Hu1 Hu2].
  apply negb_true_iff in Hn1, Hn2, Ha1, Ha2, Hb1, Hb2, Hu1, Hu2.
  destruct (numToString_digits _ Hc) as [Hne Hd].
  split; [|split; [|split; assumption]].
  - unfold recordHead. repeat constructor;
      try (rewrite includes_clearOf by (vm_compute; reflexivity); assumption);
      vm_compute; reflexivity.
  - unfold recordHead. cbn [app]. repeat constructor;
      try (rewrite includes_clearOf by (vm_compute; reflexivity); assumption);
      vm_compute; reflexivity.
Qed.

(** X14. Creating and then updating is creating the merged group: for a
    group whose name, artist, album and URL hold neither key of the
    update, the count read from its new record is the count of the
    group, and updating that record with [n] plays, the latest at [iso],
    gives exactly the record the plugin would have created for the group
    with [n] more plays and [iso] as its latest local time. *)
Theorem X14_create_then_update :
  forall g url n iso,
    0 <= TrackGroup.count g -> 0 <= n ->
    keyFree (TrackGroup.name g) = true -> keyFree (TrackGroup.artist g) = true ->
    keyFree (TrackGroup.album g) = true -> keyFree url = true ->
    includes (TrackGroup.firstIso g) LAST_KEY = false ->
    plainValue (TrackGroup.latestIso g) = true -> isoLike iso = true ->
    storedCount (buildNewTrackContent g url) = TrackGroup.count g
    /\ updateTrackContent (buildNewTrackContent g url) n iso
       = buildNewTrackContent (withPlays g n iso) url.
Proof.
  intros g url n iso Hc Hn0 Hn Ha Hal Hu Hf Hl Hiso.
  pose proof (record_wellFormed g url Hc Hn Ha Hal Hu Hf) as Hwf.
  rewrite !build_as_record. split.
  - rewrite storedCount_record by exact Hwf. apply numToString_reads_back, Hc.
  - destruct (updateTrackContent_record _ _ _ _ (recordTail g url) n iso
                Hwf Hl (isoLike_plain iso Hiso) Hn0) as [E _].
    rewrite E, numToString_reads_back by exact Hc. reflexivity.
Qed.

(** *** The store writer *)

Lemma writeGroup_file folder v g v' b :
  writeGroup folder v g = Some (v', b) ->
  exists content, v' !! recordPath folder g = Some (TFile content).
Proof.
  unfold writeGroup, vaultModify, vaultCreate.
  destruct (v !! recordPath folder g) as [[c|]|]; intros H; try discriminate H;
    apply Some_inj in H; apply (f_equal fst) in H; cbn [fst] in H; subst v';
    eexists; apply lookup_insert_eq.
Qed.

Lemma grows_file v v' p c :
  grows v v' -> v !! p = Some (TFile c) -> exists c', v' !! p = Some (TFile c').
Proof. intros Hg Hp. specialize (Hg p). rewrite Hp in Hg. exact Hg. Qed.

Lemma writeGroups_done folder groups : forall v c u v' c' u',
  writeGroups folder v groups c u = Done v' (c', u') ->
  c' + u' = c + u + Z.of_nat (length groups) /\ c <= c' /\ u <= u'
  /\ forall g, In g groups -> exists content, v' !! recordPath folder g = Some (TFile content).
Proof.
  induction groups as [|g rest IH]; intros v c u v' c' u' H; cbn [writeGroups] in H.
  - apply (f_equal (fun r => match r with Done _ a => a | Thrown _ => (0, 0) end)) in H.
    apply (f_equal fst) in H as H1. apply (f_equal snd) in H as H2. cbn in H1, H2.
    subst c' u'. cbn [length]. repeat split; try lia. intros g [].
  - destruct (writeGroup folder v g) as [[v1 b]|] eqn:E; [|discriminate H].
    assert (Hgrow : grows v1 v').
    { pose proof (grows_writeGroups folder rest v1 (if b then c + 1 else c)
                    (if b then u else u + 1)) as Hg.
      destruct b; rewrite H in Hg; exact Hg. }
    destruct (writeGroup_file folder v g v1 b E) as [c0 Hc0].
    destruct (grows_file v1 v' _ c0 Hgrow Hc0) as [c1 Hc1].
    destruct b; apply IH in H; destruct H as (Hs & Hc & Hu & Hall);
      cbn [length]; (split; [lia|]); (split; [lia|]); (split; [lia|]);
      intros g' [<-|Hin]; eauto.
Qed.

(** X15. What a completed store-writer phase reports and leaves: the
    numbers of created and of updated records are not negative and add
    up to the number of groups of the run, and the record of every group
    is a file of the vault afterwards. *)
Theorem X15_summary_counts_and_records :
  forall settings vault trulyNew vault' created updated,
    storeWriter settings vault trulyNew = (vault', Synced created updated) ->
    created + updated = Z.of_nat (length (runGroups trulyNew))
    /\ 0 <= created /\ 0 <= updated
    /\ forall g, In g (runGroups trulyNew) ->
         exists content,
           vault' !! recordPath (Settings.folder settings) g = Some (TFile content).
Proof.
  intros settings vault trulyNew vault' created updated H.
  pose proof (storeWriter_synced _ _ _ _ _ _ H) as Happ.
  unfold storeWriter in H. unfold recordsWritten in Happ. unfold runGroups in *.
  destruct (aggregate 0 trulyNew [] []) as [groups plays]. cbn [fst] in *.
  destruct (writeGroups _ _ _ _ _) as [v1 [c u]|v1] eqn:Ew; [|discriminate H].
  cbn [runVault] in Happ.
  destruct (appendAll settings v1 (sortPlays plays)) as [v2 []|v2] eqn:Ea; [|discriminate H].
  apply (f_equal snd) in H. cbn [snd] in H.
  assert (Hc : c = created) by congruence. assert (Hu : u = updated) by congruence.
  subst c u.
  destruct (writeGroups_done _ _ _ _ _ _ _ _ Ew) as (Hs & Hc & Hu & Hall).
  split; [lia|]. split; [lia|]. split; [lia|].
  intros g Hg. destruct (Hall g Hg) as [c0 Hc0].
  pose proof (grows_appendAll settings (runPlays trulyNew) v1) as Hg2.
  rewrite Happ in Hg2. cbn [runVault] in Hg2.
  apply (grows_file v1 vault' _ c0 Hg2 Hc0).
Qed.

(** *** The history logs *)

Lemma includes_self x : includes x x = true.
Proof. apply includes_spec. exists [], []. rewrite app_nil_r. reflexivity. Qed.

Lemma inserted_includes content entry :
  includes (join (topOf content ++ entry :: restOf content)) entry = true.
Proof.
  apply (includes_join_intro _ entry); [|apply includes_self].
  apply in_or_app. right. left. reflexivity.
Qed.

(** X16. [appendToHistory] is idempotent: once a call with a name and a
    local time has completed, the same call on the vault it left
    completes again and leaves that vault as it is. *)
Theorem X16_appendToHistory_idempotent :
  forall settings vault name iso vault1,
    appendToHistory settings vault name iso = Done vault1 tt ->
    appendToHistory settings vault1 name iso = Done vault1 tt.
Proof.
  intros settings v name iso v1. unfold appendToHistory.
  set (folder := historyFolderOf settings).
  set (path := historyPath folder (firstn 4 iso)). set (entry := entryOf name iso).
  destruct (adapterRead v path) as [c|] eqn:Hread.
  - rewrite insertEntry_eq. destruct (includes c entry) eqn:Hinc.
    + intros H. apply Done_inj in H. subst v1.
      rewrite Hread, insertEntry_eq, Hinc. reflexivity.
    + unfold adapterRead in Hread.
      destruct (v !! path) as [[c0|]|] eqn:Hl; try discriminate Hread.
      unfold vaultModify. rewrite Hl. intros H. apply Done_inj in H. subst v1.
      rewrite adapterRead_insert. destruct (decide (path = path)); [|congruence].
      rewrite insertEntry_eq, inserted_includes. reflexivity.
  - rewrite insertEntry_eq.
    destruct (includes (HEADING ++ [LF; LF]) entry) eqn:Hinc.
    + intros H. apply Done_inj in H. subst v1.
      rewrite createFolder_adapterRead, Hread.
      rewrite (createFolder_present (createFolder v folder) folder)
        by apply createFolder_lookup.
      rewrite insertEntry_eq, Hinc. reflexivity.
    + pose proof (createFolder_adapterRead v folder path) as Hcf.
      rewrite Hread in Hcf. unfold adapterRead in Hcf.
      destruct (createFolder v folder !! path) as [[c0|]|] eqn:Hl.
      * discriminate Hcf.
      * unfold vaultModify. rewrite Hl. intros H. discriminate H.
      * unfold vaultCreate. rewrite Hl. intros H. apply Done_inj in H. subst v1.
        rewrite adapterRead_insert. destruct (decide (path = path)); [|congruence].
        rewrite insertEntry_eq, inserted_includes. reflexivity.
Qed.

Lemma skipBlank_next r :
  match skipn (skipBlank r 0) r with
  | l :: _ => isBlank l = false
  | [] => True
  end.
Proof.
  induction r as [|l r IH]; cbn [skipBlank]; [exact I|].
  destruct (isBlank l) eqn:E; [|exact E].
  rewrite skipBlank_add. exact IH.
Qed.

(** Where the insertion point lies among the lines. *)
Lemma insert_point lines :
  let top := firstn (insertPos lines) lines in
  let rest := skipn (insertPos lines) lines in
  match rest with l :: _ => isBlank l = false | [] => True end
  /\ ((Forall (fun l => isHeadingLine l = false) lines
       /\ Forall (fun l => isBlank l = true) top)
      \/ exists pre h blanks,
           top = pre ++ h :: blanks
           /\ Forall (fun l => isHeadingLine l = false) pre
           /\ isHeadingLine h = true
           /\ Forall (fun l => isBlank l = true) blanks).
Proof.
  unfold insertPos.
  destruct (findIndexSucc_cases isHeadingLine lines)
    as [[H0 Hall]|(pre & h & tl & -> & Hpre & Hh & Hi)].
  - rewrite H0. rewrite skipn_O. split; [apply skipBlank_next|].
    left. split; [exact Hall|apply skipBlank_prefix].
  - rewrite Hi.
    assert (Htl : skipn (S (length pre)) (pre ++ h :: tl) = tl).
    { change (S (length pre)) with (1 + length pre)%nat.
      rewrite <- skipn_skipn, skipn_app, skipn_all, Nat.sub_diag. reflexivity. }
    rewrite Htl, skipBlank_add.
    set (k := skipBlank tl 0).
    assert (Hrest : skipn (S (length pre) + k) (pre ++ h :: tl) = skipn k tl).
    { rewrite Nat.add_comm, <- skipn_skipn, Htl. reflexivity. }
    assert (Htop : firstn (S (length pre) + k) (pre ++ h :: tl) = pre ++ h :: firstn k tl).
    { rewrite List.firstn_app, firstn_all2 by lia.
      replace (S (length pre) + k - length pre)%nat with (S k) by lia. reflexivity. }
    rewrite Hrest, Htop. split; [apply skipBlank_next|].
    right. exists pre, h, (firstn k tl). repeat split; try assumption.
    apply skipBlank_prefix.
Qed.

Lemma In_split_includes s l : In l (split s) -> includes s l = true.
Proof.
  intros H. rewrite <- (join_split s). apply (includes_join_intro _ l); [exact H|].
  apply includes_self.
Qed.

Lemma includes_app_r a s x : includes s x = true -> includes (a ++ s) x = true.
Proof.
  intros H. apply includes_spec in H. destruct H as (u & w & ->).
  apply includes_spec. exists (a ++ u), w. rewrite <- app_assoc. reflexivity.
Qed.

Lemma includes_of_trimStart s x : includes (trimStart s) x = true -> includes s x = true.
Proof.
  destruct (trimStart_suffix s) as [ws Hs]. rewrite Hs at 2. apply includes_app_r.
Qed.

Lemma line_of_withHeading content l :
  In l (split (withHeading content)) ->
  isHeadingLine l = false -> l <> [] -> includes content l = true.
Proof.
  unfold withHeading. destruct (includes content HEADING) eqn:E.
  - intros H _ _. apply In_split_includes, H.
  - intros H Hh Hne.
    change (HEADING ++ [LF; LF] ++ trimStart content)
      with (HEADING ++ LF :: ([] ++ LF :: trimStart content)) in H.
    rewrite (split_app_LF _ _ noLF_HEADING) in H.
    rewrite (split_app_LF [] (trimStart content)) in H by (intros []).
    destruct H as [<-|[<-|H]].
    + discriminate Hh.
    + congruence.
    + apply includes_of_trimStart, In_split_includes, H.
Qed.

(** X17. An insertion into a log is append-only and happens once: when
    [appendToHistory] gets past its guard with an entry that holds no
    line feed, the lines of the new text are the lines of the old one
    (the heading put first if it was missing) with the entry as one more
    line, which none of the old lines is; the entry stands right below
    the first heading line and the blank lines that follow it (below the
    leading blank lines when no line is a heading), and the line below
    the entry is not blank. *)
Theorem X17_insertion_is_append_only :
  forall content name iso text,
    noLF name -> noLF iso ->
    insertEntry content (entryOf name iso) = Some text ->
    exists top rest,
      split (withHeading content) = top ++ rest
      /\ split text = top ++ entryOf name iso :: rest
      /\ ~ In (entryOf name iso) (top ++ rest)
      /\ match rest with l :: _ => isBlank l = false | [] => True end
      /\ ((Forall (fun l => isHeadingLine l = false) (top ++ rest)
           /\ Forall (fun l => isBlank l = true) top)
          \/ exists pre h blanks,
               top = pre ++ h :: blanks
               /\ Forall (fun l => isHeadingLine l = false) pre
               /\ isHeadingLine h = true
               /\ Forall (fun l => isBlank l = true) blanks).
Proof.
  intros content name iso text Hname Hiso. rewrite insertEntry_eq.
  set (entry := entryOf name iso).
  destruct (includes content entry) eqn:Hinc; [discriminate|].
  intros H. apply Some_inj in H. subst text.
  exists (topOf content), (restOf content).
  pose proof (top_rest content) as Htr.
  pose proof (split_noLF (withHeading content)) as Hlf. rewrite <- Htr in Hlf.
  apply Forall_app in Hlf. destruct Hlf as [Hlf1 Hlf2].
  assert (He : noLF entry) by (apply noLF_entryOf; assumption).
  destruct (entryOf_line name iso) as [Hb Hh]. fold entry in Hb, Hh.
  split; [symmetry; exact Htr|]. split.
  - apply split_join.
    + destruct (topOf content); discriminate.
    + apply Forall_app. split; [exact Hlf1|]. constructor; assumption.
  - split.
    + intros Hin. rewrite Htr in Hin.
      apply line_of_withHeading in Hin; [congruence|exact Hh|].
      unfold entry, entryOf. destruct (str "- ") eqn:E; discriminate.
    + rewrite Htr. apply insert_point.
Qed.

Lemma includes_in_trimStart s x c r :
  x = c :: r -> isWhiteSpace c = false ->
  includes s x = true -> includes (trimStart s) x = true.
Proof.
  intros -> Hc. induction s as [|a s IH]; [intros H; exact H|].
  cbn [trimStart]. destruct (isWhiteSpace a) eqn:Ea; [|intros H; exact H].
  cbn [includes startsWith].
  destruct (c =? a)%N eqn:Eca; [apply N.eqb_eq in Eca; congruence|].
  cbn [andb orb]. exact IH.
Qed.

Lemma insertEntry_keeps content e text x c r :
  insertEntry content e = Some text ->
  noLF x -> x = c :: r -> isWhiteSpace c = false ->
  includes content x = true -> includes text x = true.
Proof.
  rewrite insertEntry_eq. destruct (includes content e); [discriminate|].
  intros H Hlf Hx Hc Hinc. apply Some_inj in H. subst text.
  assert (Hw : includes (withHeading content) x = true).
  { unfold withHeading. destruct (includes content HEADING); [exact Hinc|].
    rewrite app_assoc. apply includes_app_r.
    eapply includes_in_trimStart; eassumption. }
  rewrite <- (join_split (withHeading content)) in Hw.
  apply includes_join_elim in Hw; [|exact Hlf|subst x; discriminate].
  destruct Hw as (l & Hl & Hlx). rewrite <- top_rest in Hl.
  apply (includes_join_intro _ l); [|exact Hlx].
  apply in_app_or in Hl. apply in_or_app. destruct Hl as [Hl|Hl]; [left|right; right]; exact Hl.
Qed.

Lemma heading_no_entry name iso : includes (HEADING ++ [LF; LF]) (entryOf name iso) = false.
Proof.
  destruct (includes _ _) eqn:E; [exfalso|reflexivity].
  assert (Hin : In 91%N (HEADING ++ [LF; LF])).
  { apply (includes_chars _ _ _ E). unfold entryOf.
    apply in_or_app. right. apply in_or_app. right. apply in_or_app. right.
    apply in_or_app. left. left. reflexivity. }
  revert Hin. apply not_In_lit. reflexivity.
Qed.

Lemma logged_new settings v p v' :
  appendToHistory settings v (stripMd (Play.fileName p)) (Play.dateIso p) = Done v' tt ->
  logged settings v' p.
Proof.
  intros H. destruct (appendToHistory_read settings v p v' H) as [_ Hr].
  unfold logged. rewrite Hr. unfold willInsert, logContent.
  destruct (adapterRead v (logPathOf settings p)) as [c|] eqn:E.
  - destruct (includes c (entryOfPlay p)) eqn:Hinc; cbn [negb].
    + exists c. split; [reflexivity|exact Hinc].
    + eexists. split; [reflexivity|apply inserted_includes].
  - unfold entryOfPlay at 1. rewrite heading_no_entry. cbn [negb].
    eexists. split; [reflexivity|apply inserted_includes].
Qed.

Lemma logged_keep settings v q v' p :
  appendToHistory settings v (stripMd (Play.fileName q)) (Play.dateIso q) = Done v' tt ->
  noLF (entryOfPlay p) -> logged settings v p -> logged settings v' p.
Proof.
  intros H Hlf (text & Hread & Hinc).
  destruct (appendToHistory_read settings v q v' H) as [Hother Hr].
  destruct (decide (logPathOf settings p = logPathOf settings q)) as [Heq|Hne].
  - unfold logged. rewrite Heq, Hr. unfold willInsert, logContent.
    rewrite <- Heq, Hread.
    destruct (includes text (entryOfPlay q)) eqn:Eq; cbn [negb].
    + exists text. split; [reflexivity|exact Hinc].
    + eexists. split; [reflexivity|].
      apply (insertEntry_keeps text (entryOfPlay q) _ (entryOfPlay p) 45%N
               (32%N :: Play.dateIso p ++ [32%N; EM_DASH; 32%N] ++ str "[["
                  ++ stripMd (Play.fileName p) ++ str "]]"));
        [rewrite insertEntry_eq, Eq; reflexivity|exact Hlf|reflexivity|reflexivity|exact Hinc].
  - exists text. split; [|exact Hinc]. rewrite (Hother _ Hne). exact Hread.
Qed.

Lemma appendAll_logged settings plays : forall v v',
  Forall (fun p => noLF (entryOfPlay p)) plays ->
  appendAll settings v plays = Done v' tt ->
  (forall p, noLF (entryOfPlay p) -> logged settings v p -> logged settings v' p)
  /\ forall p, In p plays -> logged settings v' p.
Proof.
  induction plays as [|q rest IH]; intros v v' Hlf H; cbn [appendAll] in H.
  - apply Done_inj in H. subst v'. split; [auto|intros p []].
  - inversion Hlf as [|? ? Hq Hrest]; subst.
    destruct (appendToHistory settings v _ _) as [v1 []|v1] eqn:E; [|discriminate H].
    destruct (IH v1 v' Hrest H) as [Hkeep Hall]. split.
    + intros p Hp Hl. apply Hkeep; [exact Hp|]. eapply logged_keep; eassumption.
    + intros p [<-|Hin]; [|apply Hall, Hin].
      apply Hkeep; [exact Hq|]. eapply logged_new, E.
Qed.

(** X18. No play of a completed run is left out of the history: when the
    artist and track names of the surviving events hold no line feed and
    the store writer completes, the entry of every play of the run is in
    the log of its year. *)
Theorem X18_every_play_is_logged :
  forall settings vault trulyNew vault' created updated,
    storeWriter settings vault trulyNew = (vault', Synced created updated) ->
    (forall t, In t trulyNew ->
               noLF (LastFmTrack.artist t) /\ noLF (LastFmTrack.name t)) ->
    forall p, In p (runPlays trulyNew) -> logged settings vault' p.
Proof.
  intros settings vault trulyNew vault' created updated H Hnames p Hp.
  apply storeWriter_synced in H.
  refine (proj2 (appendAll_logged settings (runPlays trulyNew) _ vault' _ H) p Hp).
  apply Forall_forall. intros x Hx. unfold runPlays in Hx.
  apply (proj1 (sortPlays_In _ _)) in Hx.
  rewrite aggregate_plays in Hx. cbn [app] in Hx.
  pose proof (noLF_playsFrom trulyNew 0 Hnames) as Hall.
  rewrite Forall_forall in Hall. apply Hall, Hx.
Qed.

(** *** Whole runs *)

(** X19. A run deletes nothing, whatever its outcome, a crash in the
    middle of the writes included: every file of the vault is still a
    file afterwards and every folder still a folder. *)
Theorem X19_nothing_is_deleted :
  forall settings vault, grows vault (Result.vault (syncTracks settings vault)).
Proof.
  intros settings vault. rewrite syncTracks_prepare.
  destruct (prepare settings vault) as [[[settings1 vault1] hf]|] eqn:Hp.
  - apply (grows_trans _ vault1); [|apply grows_syncFrom].
    unfold prepare in Hp.
    destruct (Settings.apiKey settings); [discriminate Hp|].
    destruct (Settings.username settings); [discriminate Hp|].
    destruct (trim (Settings.historyFolderPath settings)).
    + apply Some_inj in Hp. apply (f_equal (fun x => snd (fst x))) in Hp.
      cbn [fst snd] in Hp. subst vault1.
      eapply grows_trans; apply grows_createFolder.
    + destruct (createFolder vault _ !! _); [|discriminate Hp].
      apply Some_inj in Hp. apply (f_equal (fun x => snd (fst x))) in Hp.
      cbn [fst snd] in Hp. subst vault1. apply grows_createFolder.
  - destruct (Settings.apiKey settings); [apply grows_refl|].
    destruct (Settings.username settings); [apply grows_refl|].
    apply grows_createFolder.
Qed.

Lemma storeWriter_outcome settings v trulyNew :
  snd (storeWriter settings v trulyNew) = Crashed
  \/ exists c u, snd (storeWriter settings v trulyNew) = Synced c u.
Proof.
  unfold storeWriter. destruct (aggregate 0 trulyNew [] []) as [groups plays].
  destruct (writeGroups _ _ _ _ _) as [v1 [c u]|v1]; [|left; reflexivity].
  destruct (appendAll _ _ _) as [v2 []|v2]; [right; eauto|left; reflexivity].
Qed.

(** X20. A run that does not reach the store writer writes no file: when
    the outcome is neither a completed sync nor a crash (missing
    credentials, missing history folder, failed fetch, nothing fetched,
    nothing new), every path of the vault holds what it held before,
    except that a path which held nothing may now hold a folder. *)
Theorem X20_early_end_writes_no_file :
  forall settings vault,
    Result.outcome (syncTracks settings vault) <> Crashed ->
    (forall c u, Result.outcome (syncTracks settings vault) <> Synced c u) ->
    forall p,
      (Result.vault (syncTracks settings vault) !! p = vault !! p
       \/ (vault !! p = None
           /\ Result.vault (syncTracks settings vault) !! p = Some TFolder))
      /\ adapterRead (Result.vault (syncTracks settings vault)) p = adapterRead vault p.
Proof.
  intros settings vault. rewrite syncTracks_prepare.
  assert (Hcf : forall v q p,
             (createFolder v q !! p = v !! p
              \/ (v !! p = None /\ createFolder v q !! p = Some TFolder))).
  { intros v q p. unfold createFolder. destruct (v !! q) eqn:E; [left; reflexivity|].
    destruct (decide (p = q)) as [->|Hne].
    - right. split; [exact E|apply lookup_insert_eq].
    - left. apply lookup_insert_ne. congruence. }
  destruct (prepare settings vault) as [[[settings1 vault1] hf]|] eqn:Hp.
  - intros Hcrash Hsync p.
    assert (Hv : Result.vault (syncFrom settings1 vault1 hf) = vault1).
    { destruct (syncFrom_survivors settings1 vault1 hf) as [Hv Ho].
      rewrite Hv. destruct (survivors vault1 hf) as [|t rest] eqn:Es; [reflexivity|].
      exfalso. rewrite Ho in Hcrash, Hsync. unfold survivors in Es.
      destruct (fetched vault1 hf) as [all| |]; try discriminate Es.
      destruct all as [|a all]; [discriminate Es|].
      destruct (storeWriter_outcome settings1 vault1 (t :: rest)) as [H|(c & u & H)].
      - apply Hcrash, H.
      - apply (Hsync c u), H. }
    rewrite Hv. split; [|eapply prepare_read, Hp].
    unfold prepare in Hp.
    destruct (Settings.apiKey settings); [discriminate Hp|].
    destruct (Settings.username settings); [discriminate Hp|].
    destruct (trim (Settings.historyFolderPath settings)).
    + apply Some_inj in Hp. apply (f_equal (fun x => snd (fst x))) in Hp.
      cbn [fst snd] in Hp. subst vault1.
      destruct (Hcf (createFolder vault (normalizePath (Settings.folder settings)))
                  (normalizePath (Settings.folder settings ++ str "/History")) p)
        as [H2|[H2a H2b]];
        destruct (Hcf vault (normalizePath (Settings.folder settings)) p) as [H1|[H1a H1b]].
      * left. congruence.
      * right. split; congruence.
      * right. split; congruence.
      * right. split; congruence.
    + destruct (createFolder vault _ !! _); [|discriminate Hp].
      apply Some_inj in Hp. apply (f_equal (fun x => snd (fst x))) in Hp.
      cbn [fst snd] in Hp. subst vault1. apply Hcf.
  - intros _ _ p.
    destruct (Settings.apiKey settings); [split; [left|]; reflexivity|].
    destruct (Settings.username settings); [split; [left|]; reflexivity|].
    cbn [Result.vault]. split; [apply Hcf|apply createFolder_adapterRead].
Qed.

(** X21. What a run does to the settings: the API key, the user name,
    the notes folder and the auto-sync flag are never changed, and the
    history folder is changed only by a run with credentials whose
    history-folder setting is blank, which stores the derived History
    folder of the notes folder. *)
Theorem X21_settings_after_a_run :
  forall settings vault,
    let settings' := Result.settings (syncTracks settings vault) in
    Settings.apiKey settings' = Settings.apiKey settings
    /\ Settings.username settings' = Settings.username settings
    /\ Settings.folder settings' = Settings.folder settings
    /\ Settings.autoSyncEnabled settings' = Settings.autoSyncEnabled settings
    /\ (settings' = settings
        \/ (Settings.apiKey settings <> [] /\ Settings.username settings <> []
            /\ trim (Settings.historyFolderPath settings) = []
            /\ Settings.historyFolderPath settings'
               = normalizePath (Settings.folder settings ++ str "/History"))).
Proof.
  intros settings vault settings'. subst settings'. unfold syncTracks.
  destruct (Settings.apiKey settings) eqn:Ek; [repeat split; auto|].
  destruct (Settings.username settings) eqn:Eu; [repeat split; auto|].
  destruct (trim (Settings.historyFolderPath settings)) eqn:Eh.
  - rewrite syncFrom_settings. cbn. repeat split; auto;
      try (right; repeat split; congruence).
  - destruct (createFolder vault _ !! _); [rewrite syncFrom_settings|];
      cbn; repeat split; auto.
Qed.

(** X22. The resolver scans the folder the history writer writes to: in
    a run that gets past the folder preparation, the history folder the
    resume point is resolved in is the one [appendToHistory] derives
    from the settings of that run, provided [normalizePath] leaves that
    normalized folder as it is. *)
Theorem X22_resolver_and_writer_share_the_folder :
  forall settings vault settings1 vault1 historyFolder,
    prepare settings vault = Some (settings1, vault1, historyFolder) ->
    normalizePath historyFolder = historyFolder ->
    historyFolderOf settings1 = historyFolder.
Proof.
  intros settings vault settings1 vault1 hf Hp Hn.
  destruct (prepare_folder _ _ _ _ _ Hp)
    as (_ & _ & _ & _ & Hf & [(Hb & -> & ->)|(Hb & -> & Hhf)]).
  - unfold historyFolderOf. destruct (trim (Settings.historyFolderPath settings));
      [congruence|reflexivity].
  - unfold historyFolderOf. cbn [Settings.historyFolderPath Settings.folder withHistoryFolder].
    destruct (trim hf); [symmetry; exact Hhf|exact Hn].
Qed.

(** *** The plugin around the engine *)

Lemma timerMatches_status message p : timerMatches p -> timerMatches (updateStatusBar message p).
Proof. unfold updateStatusBar. destruct (Plugin.statusBarItem p); intros H; exact H. Qed.

Lemma timerMatches_enable p : timerMatches p -> timerMatches (enableAutoSync p).
Proof.
  intros [Hi Hf]. unfold enableAutoSync.
  destruct (Plugin.autoSyncIntervalId p) eqn:E; [split; [rewrite E|]; assumption|].
  apply timerMatches_status. split; cbn.
  - rewrite Hi. reflexivity.
  - intros id [<-|Hin]; [lia|]. specialize (Hf id Hin). lia.
Qed.

Lemma timerMatches_disable p : timerMatches p -> timerMatches (disableAutoSync p).
Proof.
  intros [Hi Hf]. unfold disableAutoSync.
  destruct (Plugin.autoSyncIntervalId p) as [id|] eqn:E; [|split; [rewrite E|]; assumption].
  apply timerMatches_status. split; cbn.
  - rewrite Hi. cbn. rewrite Nat.eqb_refl. reflexivity.
  - intros i Hin. apply filter_In in Hin. apply Hf, Hin.
Qed.

Lemma timerMatches_toggle value p : timerMatches p -> timerMatches (onChangeAutoSync value p).
Proof.
  intros H. unfold onChangeAutoSync.
  destruct value; [apply timerMatches_enable|apply timerMatches_disable]; exact H.
Qed.

Lemma timerMatches_calls cs : forall p, timerMatches p -> timerMatches (calls cs p).
Proof.
  unfold calls. induction cs as [|c cs IH]; intros p H; [exact H|].
  cbn [fold_left]. apply IH. destruct c; cbn [call].
  - apply timerMatches_enable, H.
  - apply timerMatches_disable, H.
  - apply timerMatches_toggle, H.
  - apply timerMatches_status, H.
Qed.

Lemma timerMatches_onload data next : timerMatches (onload data next).
Proof.
  unfold onload.
  assert (H : timerMatches (updateStatusBar (str "Ready")
                              (Plugin.mk (loadSettings data) (Some []) None [] next))).
  { apply timerMatches_status. split; [reflexivity|intros id []]. }
  destruct (Settings.autoSyncEnabled _); [apply timerMatches_enable|]; exact H.
Qed.

(** X23. The plugin never runs two auto-sync timers: from [onload] on,
    whatever calls of [enableAutoSync], [disableAutoSync], the
    automatic-sync toggle and [updateStatusBar] follow in whatever
    order, at most one interval of the plugin is running, and it is
    running exactly when the plugin remembers its identifier. *)
Theorem X23_at_most_one_timer :
  forall data next cs,
    let p := calls cs (onload data next) in
    (length (Plugin.intervals p) <= 1)%nat
    /\ Plugin.intervals p
       = match Plugin.autoSyncIntervalId p with Some id => [id] | None => [] end.
Proof.
  intros data next cs p.
  destruct (timerMatches_calls cs _ (timerMatches_onload data next)) as [Hi _].
  fold p in Hi. split; [|exact Hi]. rewrite Hi.
  destruct (Plugin.autoSyncIntervalId p); cbn; lia.
Qed.

Lemma status_keeps message p :
  Plugin.settings (updateStatusBar message p) = Plugin.settings p
  /\ Plugin.intervals (updateStatusBar message p) = Plugin.intervals p
  /\ Plugin.autoSyncIntervalId (updateStatusBar message p) = Plugin.autoSyncIntervalId p.
Proof. unfold updateStatusBar. destruct (Plugin.statusBarItem p); repeat split. Qed.

(** X24. The automatic-sync toggle keeps the stored flag and the timer
    in step: after the toggle is set to [value], whatever calls came
    before, the flag of the settings is [value], a timer is running
    exactly when [value] is true, and the other settings are as they
    were. *)
Theorem X24_toggle_sets_flag_and_timer :
  forall data next cs value,
    let before := calls cs (onload data next) in
    let after := onChangeAutoSync value before in
    Settings.autoSyncEnabled (Plugin.settings after) = value
    /\ (Plugin.intervals after <> [] <-> value = true)
    /\ Settings.apiKey (Plugin.settings after) = Settings.apiKey (Plugin.settings before)
    /\ Settings.username (Plugin.settings after) = Settings.username (Plugin.settings before)
    /\ Settings.folder (Plugin.settings after) = Settings.folder (Plugin.settings before)
    /\ Settings.historyFolderPath (Plugin.settings after)
       = Settings.historyFolderPath (Plugin.settings before).
Proof.
  intros data next cs value before after.
  destruct (timerMatches_calls cs _ (timerMatches_onload data next)) as [Hi _].
  fold before in Hi. subst after. unfold onChangeAutoSync.
  destruct value.
  - unfold enableAutoSync. cbn [Plugin.autoSyncIntervalId].
    destruct (Plugin.autoSyncIntervalId before) as [id|] eqn:E.
    + cbn. rewrite Hi. repeat split; auto; discriminate.
    + destruct (status_keeps (str "Auto ON")
                  (Plugin.mk
                     (Settings.mk (Settings.apiKey (Plugin.settings before))
                        (Settings.username (Plugin.settings before))
                        (Settings.folder (Plugin.settings before))
                        (Settings.historyFolderPath (Plugin.settings before)) true)
                     (Plugin.statusBarItem before) (Some (Plugin.nextInterval before))
                     (Plugin.nextInterval before :: Plugin.intervals before)
                     (S (Plugin.nextInterval before)))) as (Hs & Hint & _).
      cbn [Plugin.settings Plugin.intervals Plugin.statusBarItem Plugin.nextInterval] in *.
      rewrite Hs, Hint. cbn. repeat split; auto; discriminate.
  - unfold disableAutoSync. cbn [Plugin.autoSyncIntervalId].
    destruct (Plugin.autoSyncIntervalId before) as [id|] eqn:E.
    + destruct (status_keeps (str "Auto OFF")
                  (Plugin.mk
                     (Settings.mk (Settings.apiKey (Plugin.settings before))
                        (Settings.username (Plugin.settings before))
                        (Settings.folder (Plugin.settings before))
                        (Settings.historyFolderPath (Plugin.settings before)) false)
                     (Plugin.statusBarItem before) None
                     (List.filter (fun i => negb (i =? id)%nat) (Plugin.intervals before))
                     (Plugin.nextInterval before))) as (Hs & Hint & _).
      cbn [Plugin.settings Plugin.intervals Plugin.statusBarItem Plugin.nextInterval] in *.
      rewrite Hs, Hint, Hi. cbn. rewrite Nat.eqb_refl. cbn.
      repeat split; auto; try discriminate; try (intros H; congruence).
    + cbn. rewrite Hi. repeat split; auto; try discriminate; try (intros H; congruence).
Qed.

(** X25. Text entered in the settings tab is stored trimmed, so a field
    left blank is stored empty: a blank API key or user name makes the
    next run end at once for missing credentials with the vault as it
    was, and a blank history folder is the empty setting from which the
    run derives the History folder. *)
Theorem X25_settings_tab_trims :
  forall value s,
    Settings.apiKey (onChangeApiKey value s) = trim value
    /\ Settings.username (onChangeUsername value s) = trim value
    /\ Settings.folder (onChangeFolder value s) = trim value
    /\ Settings.historyFolderPath (onChangeHistoryFolder value s) = trim value
    /\ trim (trim value) = trim value
    /\ (trim value = [] ->
        forall vault,
          syncTracks (onChangeApiKey value s) vault
          = Result.mk vault (onChangeApiKey value s) [] MissingCredentials
          /\ syncTracks (onChangeUsername value s) vault
             = Result.mk vault (onChangeUsername value s) [] MissingCredentials)
    /\ (trim (Settings.historyFolderPath (onChangeHistoryFolder value s)) = []
        <-> Settings.historyFolderPath (onChangeHistoryFolder value s) = []).
Proof.
  intros value s. repeat split; try reflexivity; try apply trim_idem.
  - unfold syncTracks. cbn [onChangeApiKey Settings.apiKey]. rewrite H. reflexivity.
  - unfold syncTracks. cbn [onChangeUsername Settings.apiKey Settings.username]. rewrite H.
    destruct (Settings.apiKey s); reflexivity.
  - cbn [onChangeHistoryFolder Settings.historyFolderPath]. rewrite trim_idem. auto.
  - cbn [onChangeHistoryFolder Settings.historyFolderPath]. intros ->. reflexivity.
Qed.

(** X26. A plugin whose stored data lacks the API key or the user name,
    a fresh install among them, takes the empty defaults for them, and
    its runs end at once for missing credentials: no folder is made, no
    request is sent and the settings stay as loaded. *)
Theorem X26_no_credentials_no_run :
  forall data vault,
    match data with
    | None => True
    | Some d => Stored.apiKey d = None \/ Stored.username d = None
    end ->
    syncTracks (loadSettings data) vault
    = Result.mk vault (loadSettings data) [] MissingCredentials.
Proof.
  intros [d|] vault H; [|reflexivity].
  unfold syncTracks, loadSettings. cbn [Settings.apiKey Settings.username].
  destruct H as [-> | ->]; cbn [default DEFAULT_SETTINGS Settings.apiKey Settings.username].
  - reflexivity.
  - destruct (default [] (Stored.apiKey d)); reflexivity.
Qed.

(** *** The resolver and the fetcher within a run *)

Lemma syncFrom_effects settings v hf :
  Result.effects (syncFrom settings v hf)
  = snd (fetchTracks
           (match resolveWatermark v hf currentYear with Some _ => true | None => false end)
           (match resolveWatermark v hf currentYear with Some ts => ts + 1 | None => 0 end)).
Proof.
  unfold syncFrom.
  destruct (fetchTracks _ _) as [[all| |] log]; cbn [snd]; try reflexivity.
  destruct all as [|t all]; [reflexivity|].
  destruct (trulyNewTracks _ _); [reflexivity|].
  destruct (storeWriter _ _ _). reflexivity.
Qed.

(** X27. The requests of a whole run: they are never sent back to back,
    and when the run resumes from a watermark [W] found in the logs each
    of them carries the lower bound [W + 1], while a run that finds no
    watermark sends none. *)
Theorem X27_requests_of_a_run :
  forall settings vault,
    paced (Result.effects (syncTracks settings vault)) = true
    /\ forall settings1 vault1 historyFolder req,
         prepare settings vault = Some (settings1, vault1, historyFolder) ->
         In req (requestsOf (Result.effects (syncTracks settings vault))) ->
         from req = match resolveWatermark vault1 historyFolder currentYear with
                    | Some W => Some (W + 1)
                    | None => None
                    end.
Proof.
  intros settings vault. rewrite syncTracks_prepare.
  destruct (prepare settings vault) as [[[s1 v1] hf]|] eqn:Hp.
  - rewrite syncFrom_effects. split.
    + apply fetchLoop_paced; [reflexivity|]. intros _. left. reflexivity.
    + intros s1' v1' hf' req H Hin. apply Some_inj in H.
      assert (Hv : v1' = v1) by congruence. assert (Hh : hf' = hf) by congruence.
      subst v1' hf'.
      set (found := match resolveWatermark v1 hf currentYear with
                    | Some _ => true | None => false end) in *.
      set (fromTs := match resolveWatermark v1 hf currentYear with
                     | Some ts => ts + 1 | None => 0 end) in *.
      destruct (fetchLoop_stepwise (fetchFuel found fromTs) found fromTs 0 1 1 0 [] [])
        as [_ Hr]; [lia|reflexivity|intros r []|right; reflexivity|].
      destruct (Hr req Hin) as [Hfrom _]. rewrite Hfrom.
      unfold found, fromTs. destruct (resolveWatermark v1 hf currentYear); reflexivity.
  - split; [|discriminate].
    destruct (Settings.apiKey settings); [reflexivity|].
    destruct (Settings.username settings); reflexivity.
Qed.

(** *** From one run to the next *)

(** X29. The watermark advances to the latest play of a completed run.
    When the store writer completes on events whose names hold no line
    feed, and the latest play of the run has a time the host formats in
    four-digit-year form and reads back, after time 0, in a year of the
    21 the resolver scans, and its entry was inserted, then the resume
    point resolved on the vault the run leaves is the time of that play,
    provided no log of a later year of the window had an entry, the log
    of that year had none above its insertion point, and neither a later
    log of the window nor a log of the window from that year on is the
    path of a play or of a record of the run. *)
Theorem X29_watermark_advances :
  forall settings vault trulyNew vault' created updated,
    storeWriter settings vault trulyNew = (vault', Synced created updated) ->
    trulyNew <> [] ->
    (forall t, In t trulyNew ->
               noLF (LastFmTrack.artist t) /\ noLF (LastFmTrack.name t)) ->
    let logs := historyFolderOf settings in
    let latest := latestPlay trulyNew in
    let year := fullYear (localFields (Play.ts latest)) in
    wellDated (Play.ts latest) -> 0 < Play.ts latest ->
    currentYear - 20 <= year <= currentYear ->
    (forall y, year < y <= currentYear -> scanYear vault logs y = None) ->
    scanLines (topOf (logContent vault (historyPath logs (numToString year)))) = None ->
    In latest (runAppended settings vault trulyNew) ->
    (forall p y, In p (runPlays trulyNew) -> year < y <= currentYear ->
                 logPathOf settings p <> historyPath logs (numToString y)) ->
    (forall g y, In g (runGroups trulyNew) -> year <= y <= currentYear ->
                 recordPath (Settings.folder settings) g
                 <> historyPath logs (numToString y)) ->
    resolveWatermark vault' logs currentYear = Some (Play.ts latest).
Proof.
  intros settings vault trulyNew vault' created updated H Hne Hnames logs latest year.
  apply (watermark_after_run settings vault trulyNew vault' created updated H Hne Hnames).
Qed.

(** *** The stored count through a run *)







(** X28. A log is made when its first entry comes: when nothing is at
    the path of the log of the entry's year once the history folder is
    made, [appendToHistory] makes that folder if it was missing and
    creates the log with the heading, two empty lines and the entry,
    and nothing else changes. *)
Theorem X28_new_log_layout :
  forall settings vault name iso,
    let folder := historyFolderOf settings in
    let path := historyPath folder (firstn 4 iso) in
    createFolder vault folder !! path = None ->
    appendToHistory settings vault name iso
    = Done (<[path := TFile (HEADING ++ [LF; LF; LF] ++ entryOf name iso)]>
              (createFolder vault folder)) tt.
Proof.
  intros settings vault name iso folder path Hfree.
  assert (Hread : adapterRead vault path = None).
  { rewrite <- (createFolder_adapterRead vault folder path).
    unfold adapterRead. rewrite Hfree. reflexivity. }
  unfold appendToHistory. fold folder. fold path. rewrite Hread.
  rewrite insertEntry_eq, heading_no_entry.
  replace (topOf (HEADING ++ [LF; LF])) with [HEADING; []; ([] : jsstring)]
    by (vm_compute; reflexivity).
  replace (restOf (HEADING ++ [LF; LF])) with ([] : list jsstring)
    by (vm_compute; reflexivity).
  rewrite Hfree. unfold vaultCreate. rewrite Hfree.
  cbn [app join]. reflexivity.
Qed.

End Engine.

(** ** Two runs in a row *)

Section TwoRuns.

Variable normalizePath : jsstring -> jsstring.
Variable encodeURIComponent : jsstring -> jsstring.
Variable localFields : Z -> DateFields.
Variable parseDate : jsstring -> option Z.
Variable currentYear : Z.

(** The clock and the remote service of the first and of the second run. *)
Variables clock1 clock2 : nat -> Z.
Variables remote1 remote2 : nat -> Request -> Reply.

(** C1, as amended. Idempotence of a second run. Take a first run that
    completes its writes, with artist and track names free of line feeds,
    and assume:
    - the host formats the timestamp of the latest play with a four-digit
      year and reads it back ([wellDated]), it is positive, and its local
      year lies in the 21 years the resolver scans;
    - the logs of the later years in that window hold no dated entry, and
      the log of that year has none above its insertion point;
    - the run inserted the entry of its latest play, filed no play under a
      later year, and stored no track record at the path of a log;
    - the second fetch only returns events that the first fetch returned.
    Then the second run leaves the vault exactly as the first run left it:
    it ends before any record or history write. *)
Theorem C1_second_run_writes_nothing :
  forall settings vault settings1 vault1 historyFolder created updated,
    let first := syncTracks normalizePath encodeURIComponent localFields parseDate
                   clock1 remote1 currentYear settings vault in
    prepare normalizePath settings vault = Some (settings1, vault1, historyFolder) ->
    Result.outcome first = Synced created updated ->
    let trulyNew := survivors normalizePath parseDate remote1 currentYear vault1 historyFolder in
    let logs := historyFolderOf normalizePath settings1 in
    let latest := latestPlay localFields clock1 trulyNew in
    let year := fullYear (localFields (Play.ts latest)) in
    (forall t, In t trulyNew ->
               noLF (LastFmTrack.artist t) /\ noLF (LastFmTrack.name t)) ->
    wellDated localFields parseDate (Play.ts latest) ->
    0 < Play.ts latest ->
    currentYear - 20 <= year <= currentYear ->
    (forall y, year < y <= currentYear ->
               scanYear normalizePath parseDate vault1 logs y = None) ->
    scanLines parseDate
      (topOf (logContent vault1 (historyPath normalizePath logs (numToString year)))) = None ->
    In latest (runAppended normalizePath encodeURIComponent localFields clock1
                 settings1 vault1 trulyNew) ->
    (forall p y, In p (runPlays localFields clock1 trulyNew) -> year < y <= currentYear ->
                 logPathOf normalizePath settings1 p
                 <> historyPath normalizePath logs (numToString y)) ->
    (forall g y, In g (runGroups localFields clock1 trulyNew) -> year <= y <= currentYear ->
                 recordPath normalizePath (Settings.folder settings1) g
                 <> historyPath normalizePath logs (numToString y)) ->
    (forall all1 all2,
        fetched normalizePath parseDate remote1 currentYear vault1 historyFolder
          = Fetched all1 ->
        fst (fetchTracks remote2 true (Play.ts latest + 1)) = Fetched all2 ->
        incl all2 all1) ->
    let second := syncTracks normalizePath encodeURIComponent localFields parseDate
                    clock2 remote2 currentYear (Result.settings first) (Result.vault first) in
    Result.vault second = Result.vault first
    /\ Result.outcome second <> Crashed
    /\ (forall c u, Result.outcome second <> Synced c u).
Proof.
  intros settings vault settings1 vault1 historyFolder created updated first Hprep Hout
    trulyNew logs latest year Hnames Hwd Hpos Hwin Hlater Htop Hins Hfiled Hrec Hsame second.
  assert (Hfirst : first = syncFrom normalizePath encodeURIComponent localFields parseDate
                             clock1 remote1 currentYear settings1 vault1 historyFolder).
  { unfold first. rewrite syncTracks_prepare, Hprep. reflexivity. }
  destruct (syncFrom_survivors normalizePath encodeURIComponent localFields parseDate
              clock1 remote1 currentYear settings1 vault1 historyFolder) as [Hv Ho].
  rewrite <- Hfirst in Hv, Ho. fold trulyNew in Hv, Ho.
  assert (Hset : Result.settings first = settings1)
    by (rewrite Hfirst; apply syncFrom_settings).
  assert (Hne : trulyNew <> []).
  { intros E. rewrite E in Ho. rewrite Hout in Ho.
    destruct (fetched _ _ _ _ _ _) as [[|? ?]| |]; discriminate Ho. }
  assert (Hall1 : exists all1,
             fetched normalizePath parseDate remote1 currentYear vault1 historyFolder
             = Fetched all1
             /\ trulyNew = trulyNewTracks
                             (lastFetched normalizePath parseDate currentYear vault1 historyFolder)
                             all1).
  { unfold trulyNew, survivors in Hne |- *.
    destruct (fetched _ _ _ _ _ _) as [all1| |]; [eauto|congruence|congruence]. }
  destruct Hall1 as (all1 & Hf1 & Hnews).
  assert (Hsw : storeWriter normalizePath encodeURIComponent localFields clock1
                  settings1 vault1 trulyNew = (Result.vault first, Synced created updated)).
  { rewrite Hf1 in Ho. destruct trulyNew as [|t rest] eqn:E; [congruence|].
    destruct all1 as [|a all1']; [discriminate Hnews|].
    rewrite Hout in Ho.
    destruct (storeWriter _ _ _ _ _ _ _) as [v' o]. cbn [fst snd] in *. congruence. }
  pose proof (watermark_after_run normalizePath encodeURIComponent localFields parseDate
                clock1 currentYear settings1 vault1 trulyNew (Result.vault first)
                created updated Hsw Hne Hnames Hwd Hpos Hwin Hlater Htop Hins Hfiled Hrec)
    as Hmark.
  assert (Hgrow : grows vault1 (Result.vault first))
    by (rewrite Hfirst; apply grows_syncFrom).
  assert (Hidle : forall all2,
             fst (fetchTracks remote2 true (Play.ts latest + 1)) = Fetched all2 ->
             trulyNewTracks (Play.ts latest) all2 = []).
  { intros all2 Hf2. unfold latest. rewrite Hnews.
    apply (refetched_events_are_filtered localFields clock1 currentYear).
    - rewrite <- Hnews. exact Hne.
    - rewrite <- Hnews. exact Hpos.
    - apply (Hsame all1 all2 Hf1 Hf2). }
  unfold second. rewrite Hset.
  destruct (next_run normalizePath encodeURIComponent localFields parseDate clock2 remote2
              currentYear settings vault settings1 vault1 historyFolder
              (Result.vault first) Hprep Hgrow) as [E|E]; rewrite E.
  - cbn [Result.vault Result.outcome]. repeat split; intros; discriminate.
  - apply (syncFrom_idle normalizePath encodeURIComponent localFields parseDate clock2
             remote2 currentYear settings1 (Result.vault first) logs (Play.ts latest)
             Hmark Hidle).
Qed.

End TwoRuns.

(** ** The claims on the example host *)

(** C9: the code drops an event that lacks a timestamp. On a fresh
    vault, the only fetched event has no [date]: the filter reads its
    timestamp as 0, which is not above the watermark 0, so the run ends
    with [AllRecorded] and writes neither a record nor a history entry;
    the fallback to the clock is never reached. *)
Theorem C9_undated_event_is_dropped :
  syncTracks idPath hostEncode utcFields utcParseDate hostClock
    (scripted [Responds None (Some 1) [uprising None]]) 2024 settingsFresh ∅
  = Result.mk (<[str "Music/History" := TFolder]> (<[str "Music" := TFolder]> ∅))
      (withHistoryFolder settingsFresh (str "Music/History"))
      [Requested (mkRequest 1 None)] AllRecorded.
Proof. vm_compute. reflexivity. Qed.

(** C7: the code leaves a stored count that it cannot parse as it is.
    With [play_count: "many"], or with no [play_count] line at all, two new
    plays change [last_listened_at] only: the count 0 + 2 is computed and
    never written. *)
Theorem C7_unparsable_count_is_kept :
  updateTrackContent (recordWith (quote ++ str "many" ++ quote)) 2 (str "2024-01-01T00:00:00")
  = str "---" ++ [LF]
    ++ str "track: Uprising" ++ [LF]
    ++ str "artist: Muse" ++ [LF]
    ++ str "play_count: " ++ quote ++ str "many" ++ quote ++ [LF]
    ++ str "first_listened_at: 2023-05-01T10:00:00" ++ [LF]
    ++ str "last_listened_at: 2024-01-01T00:00:00" ++ [LF]
    ++ str "---" ++ [LF]
  /\ storedCount
       (updateTrackContent (str "track: Uprising" ++ [LF] ++ str "last_listened_at: x" ++ [LF])
          2 (str "2024-01-01T00:00:00")) = 0.
Proof. vm_compute. split; reflexivity. Qed.


(** C8, counterexample: two distinct identities with one file
    identifier, and two distinct identities merged into one group. *)
Lemma C8_counterexample :
  ((str "AC/DC", str "TNT") <> (str "AC-DC", str "TNT")
   /\ fileNameOf (str "AC/DC") (str "TNT") = fileNameOf (str "AC-DC") (str "TNT"))
  /\ (let t1 := LastFmTrack.mk (str "C") (str "A|B") None (Some T2024) [] in
      let t2 := LastFmTrack.mk (str "B|C") (str "A") None (Some (T2024 + 60)) [] in
      (artistOf t1, nameOf t1) <> (artistOf t2, nameOf t2)
      /\ List.map (fun kg => TrackGroup.count (snd kg))
           (fst (aggregate utcFields hostClock 0 [t1; t2] [] [])) = [2]).
Proof. vm_compute. repeat split; (reflexivity || discriminate). Qed.

(** C10, counterexample: a history-folder setting of one space is not
    empty and nothing exists at that path, yet the run trims it, derives
    [Music/History], stores that, and goes on to the remote request. So
    does a run whose history folder is set to the notes folder when
    neither exists: the notes folder is created before the check. *)
Lemma C10_counterexample :
  let blank := withHistoryFolder settingsFresh (str " ") in
  let run settings := syncTracks idPath hostEncode utcFields utcParseDate hostClock
                        (scripted []) 2024 settings ∅ in
  (Settings.historyFolderPath blank <> []
   /\ (∅ : gmap (list N) Node) !! idPath (Settings.historyFolderPath blank) = None
   /\ Result.effects (run blank) = [Requested (mkRequest 1 None)]
   /\ Settings.historyFolderPath (Result.settings (run blank)) = str "Music/History")
  /\ (Settings.historyFolderPath settingsShared <> []
      /\ (∅ : gmap (list N) Node) !! idPath (Settings.historyFolderPath settingsShared) = None
      /\ Result.effects (run settingsShared) = [Requested (mkRequest 1 None)]).
Proof. vm_compute. repeat split; (reflexivity || discriminate). Qed.

(** C10 on the example host: a history folder that is set and missing
    ends the run; a blank setting derives and creates [Music/History]. *)
Lemma C10_witness :
  (syncTracks idPath hostEncode utcFields utcParseDate hostClock (scripted []) 2024
     (withHistoryFolder settingsFresh (str "Logs")) ∅
   = Result.mk (<[str "Music" := TFolder]> ∅)
       (withHistoryFolder settingsFresh (str "Logs")) [] HistoryFolderMissing)
  /\ Result.vault
       (syncTracks idPath hostEncode utcFields utcParseDate hostClock (scripted []) 2024
          settingsFresh ∅) !! str "Music/History" = Some TFolder.
Proof.
  split.
  - refine (proj1 (proj1 (C10_history_folder_setup idPath hostEncode utcFields utcParseDate
                            hostClock (scripted []) 2024
                            (withHistoryFolder settingsFresh (str "Logs")) ∅ _ _) _ _));
      vm_compute; (discriminate || reflexivity).
  - refine (proj2 (proj2 (proj2 (C10_history_folder_setup idPath hostEncode utcFields
                                   utcParseDate hostClock (scripted []) 2024
                                   settingsFresh ∅ _ _) _)) _);
      vm_compute; (discriminate || reflexivity).
Defined.


(** C1, counterexample: plays older than the 20 years the resolver looks
    back. The first run of 2024 records a play of 2003 in History-2003;
    the second run finds no watermark, fetches the same page and counts
    the play again. *)
Lemma C1_counterexample :
  let remote := scripted [Responds None (Some 1) [uprising (Some T2003)]] in
  let first := syncTracks idPath hostEncode utcFields utcParseDate hostClock remote 2024
                 settingsFresh ∅ in
  let second := syncTracks idPath hostEncode utcFields utcParseDate hostClock remote 2024
                  (Result.settings first) (Result.vault first) in
  Result.outcome first = Synced 1 0
  /\ playCountAt (Result.vault first) recordPathOfUprising = 1
  /\ Result.outcome second = Synced 0 1
  /\ playCountAt (Result.vault second) recordPathOfUprising = 2.
Proof. vm_compute. repeat split; reflexivity. Qed.

(** C1 on the example host: two plays of 2024 fetched on a fresh vault,
    then the same page fetched again. *)
Lemma C1_witness :
  let remote := scripted [Responds None (Some 1) twoPlays] in
  let first := syncTracks idPath hostEncode utcFields utcParseDate hostClock remote 2024
                 settingsFresh ∅ in
  let second := syncTracks idPath hostEncode utcFields utcParseDate hostClock remote 2024
                  (Result.settings first) (Result.vault first) in
  Result.vault second = Result.vault first
  /\ Result.outcome second <> Crashed
  /\ (forall c u, Result.outcome second <> Synced c u).
Proof.
  intros remote.
  apply (C1_second_run_writes_nothing idPath hostEncode utcFields utcParseDate 2024
           hostClock hostClock remote remote settingsFresh ∅
           (withHistoryFolder settingsFresh (str "Music/History"))
           (<[str "Music/History" := TFolder]> (<[str "Music" := TFolder]> ∅))
           (str "Music/History") 1 0).
  - vm_compute. reflexivity.
  - vm_compute. reflexivity.
  - intros t Ht. vm_compute in Ht. destruct Ht as [<-|[<-|[]]];
      split; apply noLF_str_lit; reflexivity.
  - vm_compute. repeat split; (discriminate || reflexivity).
  - vm_compute. reflexivity.
  - vm_compute. split; discriminate.
  - intros y Hy. exfalso. set (yy := fullYear _) in Hy. vm_compute in yy. subst yy. lia.
  - vm_compute. reflexivity.
  - vm_compute. right. left. reflexivity.
  - intros p y _ Hy. exfalso. set (yy := fullYear _) in Hy. vm_compute in yy. subst yy. lia.
  - intros g y Hg Hy. set (yy := fullYear _) in Hy. vm_compute in yy. subst yy.
    assert (y = 2024) by lia. subst y.
    vm_compute in Hg. destruct Hg as [<-|[]]. vm_compute. discriminate.
  - intros all1 all2 H1 H2. vm_compute in H1, H2.
    injection H1 as <-. injection H2 as <-. intros x Hx. exact Hx.
Defined.



(** ** Further properties on the example host *)

(** X4 on the example host: the first second of 2024. *)
Lemma X4_witness :
  matchEntry (entryOf (str "Muse - Uprising") (timestampToLocalISO utcFields T2024))
  = Some (timestampToLocalISO utcFields T2024)
  /\ length (timestampToLocalISO utcFields T2024) = 19%nat
  /\ firstn 4 (timestampToLocalISO utcFields T2024)
     = numToString (fullYear (utcFields T2024)).
Proof.
  apply (X4_entry_matches_resolver_pattern utcFields (str "Muse - Uprising") T2024).
  vm_compute. repeat split; discriminate.
Defined.

(** X10 on the example host: the group of two plays of one track. *)
Lemma X10_witness :
  exists g,
    mapGet (str "Muse|Uprising") (fst (aggregate utcFields hostClock 0 twoPlays [] []))
    = Some g
    /\ groupSummarises utcFields hostClock (str "Muse|Uprising") twoPlays g.
Proof.
  eexists. split; [vm_compute; reflexivity|].
  apply (X10_group_summarises_its_events utcFields hostClock twoPlays (str "Muse|Uprising")).
  vm_compute. reflexivity.
Defined.



(** X14 on the example host: the record of two plays of Uprising, then
    one more play. *)
Lemma X14_witness :
  let g := TrackGroup.mk 2 (str "2024-01-01T00:03:20") (T2024 + 200)
             (str "2024-01-01T00:01:40") (T2024 + 100) (str "The Resistance") []
             (str "Muse") (str "Uprising") (str "Muse - Uprising.md") in
  let url := buildLastFmUrl hostEncode (str "Muse") (str "Uprising") in
  storedCount (buildNewTrackContent g url) = TrackGroup.count g
  /\ updateTrackContent (buildNewTrackContent g url) 1 (str "2024-01-01T00:05:00")
     = buildNewTrackContent (withPlays g 1 (str "2024-01-01T00:05:00")) url.
Proof.
  intros g url.
  apply (X14_create_then_update idPath hostEncode utcFields utcParseDate 2024
           g url 1 (str "2024-01-01T00:05:00"));
    try (vm_compute; reflexivity); vm_compute; discriminate.
Defined.

(** X15 on the example host: two plays of one track on a fresh vault
    make one group, whose record is created. *)
Lemma X15_witness :
  let run := storeWriter idPath hostEncode utcFields hostClock settingsFresh ∅ twoPlays in
  1 + 0 = Z.of_nat (length (runGroups utcFields hostClock twoPlays))
  /\ 0 <= 1 /\ 0 <= 0
  /\ forall g, In g (runGroups utcFields hostClock twoPlays) ->
       exists content,
         fst run !! recordPath idPath (Settings.folder settingsFresh) g
         = Some (TFile content).
Proof.
  intros run.
  apply (X15_summary_counts_and_records idPath hostEncode utcFields hostClock
           settingsFresh ∅ twoPlays (fst run) 1 0).
  vm_compute. reflexivity.
Defined.

(** X16 on the example host: the same entry appended twice to a fresh
    vault. *)
Lemma X16_witness :
  let once := runVault (appendToHistory idPath settingsFresh ∅ (str "Muse - Uprising")
                          (str "2024-01-01T00:03:20")) in
  appendToHistory idPath settingsFresh once (str "Muse - Uprising")
    (str "2024-01-01T00:03:20")
  = Done once tt.
Proof.
  intros once.
  apply (X16_appendToHistory_idempotent idPath settingsFresh ∅ (str "Muse - Uprising")
           (str "2024-01-01T00:03:20") once).
  vm_compute. reflexivity.
Defined.

(** X17 on the example host: an entry inserted into a log that holds
    one. *)
Lemma X17_witness :
  let content := HEADING ++ [LF; LF]
                 ++ entryOf (str "Muse - Uprising") (str "2024-01-01T00:01:40") in
  let entry := entryOf (str "Muse - Uprising") (str "2024-01-01T00:03:20") in
  let text := default [] (insertEntry content entry) in
  exists top rest,
    split (withHeading content) = top ++ rest
    /\ split text = top ++ entry :: rest
    /\ ~ In entry (top ++ rest)
    /\ match rest with l :: _ => isBlank l = false | [] => True end
    /\ ((Forall (fun l => isHeadingLine l = false) (top ++ rest)
         /\ Forall (fun l => isBlank l = true) top)
        \/ exists pre h blanks,
             top = pre ++ h :: blanks
             /\ Forall (fun l => isHeadingLine l = false) pre
             /\ isHeadingLine h = true
             /\ Forall (fun l => isBlank l = true) blanks).
Proof.
  intros content entry text.
  apply (X17_insertion_is_append_only idPath hostEncode utcFields utcParseDate 2024
           content (str "Muse - Uprising") (str "2024-01-01T00:03:20") text).
  - apply noLF_str_lit. reflexivity.
  - apply noLF_str_lit. reflexivity.
  - vm_compute. reflexivity.
Defined.

(** X18 on the example host: the later of the two plays of a run on a
    fresh vault. *)
Lemma X18_witness :
  let run := storeWriter idPath hostEncode utcFields hostClock settingsFresh ∅ twoPlays in
  logged idPath settingsFresh (fst run)
    (playOf utcFields hostClock 0 (uprising (Some (T2024 + 200)))).
Proof.
  intros run.
  apply (X18_every_play_is_logged idPath hostEncode utcFields utcParseDate hostClock 2024
           settingsFresh ∅ twoPlays (fst run) 1 0).
  - vm_compute. reflexivity.
  - intros t [<-|[<-|[]]]; split; apply noLF_str_lit; reflexivity.
  - vm_compute. right. left. reflexivity.
Defined.

(** X20 on the example host: a run whose only request is rejected, on a
    vault that holds a record; the record reads as before. *)
Lemma X20_witness :
  let r := syncTracks idPath hostEncode utcFields utcParseDate hostClock (scripted []) 2024
             settingsFresh vaultWithRecord in
  (Result.vault r !! recordPathOfUprising = vaultWithRecord !! recordPathOfUprising
   \/ (vaultWithRecord !! recordPathOfUprising = None
       /\ Result.vault r !! recordPathOfUprising = Some TFolder))
  /\ adapterRead (Result.vault r) recordPathOfUprising
     = adapterRead vaultWithRecord recordPathOfUprising.
Proof.
  intros r.
  apply (X20_early_end_writes_no_file idPath hostEncode utcFields utcParseDate hostClock
           (scripted []) 2024 settingsFresh vaultWithRecord).
  - vm_compute. discriminate.
  - intros c u. vm_compute. discriminate.
Defined.

(** X22 on the example host: the derived History folder. *)
Lemma X22_witness :
  historyFolderOf idPath (withHistoryFolder settingsFresh (str "Music/History"))
  = str "Music/History".
Proof.
  apply (X22_resolver_and_writer_share_the_folder idPath settingsFresh ∅
           (withHistoryFolder settingsFresh (str "Music/History"))
           (<[str "Music/History" := TFolder]> (<[str "Music" := TFolder]> ∅))
           (str "Music/History")).
  - vm_compute. reflexivity.
  - reflexivity.
Defined.

(** X26 on the example host: a fresh install. *)
Lemma X26_witness :
  syncTracks idPath hostEncode utcFields utcParseDate hostClock (scripted []) 2024
    (loadSettings None) vaultWithRecord
  = Result.mk vaultWithRecord (loadSettings None) [] MissingCredentials.
Proof.
  apply (X26_no_credentials_no_run idPath hostEncode utcFields utcParseDate hostClock
           (scripted []) 2024 None vaultWithRecord).
  exact I.
Defined.

(** X29 on the example host: two plays of 2024 on a fresh vault whose
    folders are made; the next resume point is the later play. *)
Lemma X29_witness :
  let settings := withHistoryFolder settingsFresh (str "Music/History") in
  let vault : gmap (list N) Node :=
    <[str "Music/History" := TFolder]> (<[str "Music" := TFolder]> ∅) in
  let run := storeWriter idPath hostEncode utcFields hostClock settings vault twoPlays in
  resolveWatermark idPath utcParseDate (fst run) (historyFolderOf idPath settings) 2024
  = Some (Play.ts (latestPlay utcFields hostClock twoPlays)).
Proof.
  intros settings vault run.
  apply (X29_watermark_advances idPath hostEncode utcFields utcParseDate hostClock 2024
           settings vault twoPlays (fst run) 1 0).
  - vm_compute. reflexivity.
  - discriminate.
  - intros t [<-|[<-|[]]]; split; apply noLF_str_lit; reflexivity.
  - vm_compute. repeat split; (discriminate || reflexivity).
  - vm_compute. reflexivity.
  - vm_compute. split; discriminate.
  - intros y Hy. exfalso. set (yy := fullYear _) in Hy. vm_compute in yy. subst yy. lia.
  - vm_compute. reflexivity.
  - vm_compute. right. left. reflexivity.
  - intros p y _ Hy. exfalso. set (yy := fullYear _) in Hy. vm_compute in yy. subst yy. lia.
  - intros g y Hg Hy. set (yy := fullYear _) in Hy. vm_compute in yy. subst yy.
    assert (y = 2024) by lia. subst y.
    vm_compute in Hg. destruct Hg as [<-|[]]. vm_compute. discriminate.
Defined.


(** X28 on the example host: the first entry of 2024 on a fresh
    vault. *)
Lemma X28_witness :
  appendToHistory idPath settingsFresh ∅ (str "Muse - Uprising") (str "2024-01-01T00:03:20")
  = Done (<[str "Music/History/History-2024.md"
            := TFile (HEADING ++ [LF; LF; LF]
                      ++ entryOf (str "Muse - Uprising") (str "2024-01-01T00:03:20"))]>
            (createFolder ∅ (str "Music/History"))) tt.
Proof.
  apply (X28_new_log_layout idPath settingsFresh ∅ (str "Muse - Uprising")
           (str "2024-01-01T00:03:20")).
  vm_compute. reflexivity.
Defined.
